(** * generateRandomData: random data from a JSON schema

    A shallow embedding of [generateRandomData.js] and the properties of
    its generators.

    - Part I embeds the generators over decoded schemas and tree-shaped
      values.  [Math.random()] reads the next entry of a stream of draws
      and advances a counter; the [while] loop of [generateArray] runs
      on fuel, so that a run that never leaves the loop is visible as
      [Diverge] for every amount of fuel.
    - Numbers in Part I.  The quantities the program uses as integers
      (lengths, indices, the values of integer nodes) are computed in
      exact arithmetic, which is what binary64 gives except at draws
      whose product rounds up to the next integer and beyond the safe
      range.  [getRandomNumber], whose result is the fraction itself, is
      computed in binary64: each operator rounds to nearest, ties to
      even, and overflows to an infinity.  The rounding is compared with
      the Standard Library's [SpecFloat] at sample operands.
    - Part II embeds the same code over a store of objects and arrays, to
      follow every write the generators perform.
    - Part III embeds [generateDataFromFile.js] on top of Part II, with
      the file system and [JSON.parse] as the host's.
    - Part IV embeds the generators of Part I once more, as the engine
      evaluates them: every number in binary64, the call
      [properties.hasOwnProperty(key)] as a call, and the assignment to
      [__proto__] as the engine performs it.  The properties of integer
      nodes, of the lengths of strings and arrays, and of the keys of
      objects are stated there. *)

From Stdlib Require Import ZArith QArith Qround Qcanon Qabs Qpower Lia Lqa.
From Stdlib Require Import String Ascii List Bool DecimalString SpecFloat.
Import ListNotations.

Local Open Scope Q_scope.
#[local] Set Warnings "-register-all".
#[local] Set Warnings "-notation-overridden".
#[local] Set Warnings "-ambiguous-paths".

(** ** JavaScript values *)

(** A JavaScript number: a finite value, kept in canonical form so that
    equal numbers are equal terms, or one of the three special values.
    The two zeros are identified: no operator used by the program tells
    them apart. *)
Inductive number : Type :=
| Fin (q : Qc)
| PosInfinity
| NegInfinity
| NaN.

(** Values as trees.  An object is the list of its own properties in
    enumeration order. *)
Inductive value : Type :=
| VUndefined
| VNull
| VBool (b : bool)
| VNum (n : number)
| VStr (s : string)
| VArr (items : list value)
| VObj (props : list (string * value)).

Definition num_of_Q (q : Q) : number := Fin (Q2Qc q).
Definition num_of_Z (z : Z) : number := num_of_Q (inject_Z z).
Definition Q_of_nat (n : nat) : Q := inject_Z (Z.of_nat n).

(** ** Schema nodes

    A node decoded from JSON.  A field is [None] when the property is
    absent ([undefined]); [s_enum = Some []] is an [enum] that is present
    and empty. *)
Inductive schema : Type := mkSchema {
  s_enum : option (list value);
  s_type : option string;
  s_minimum : option Q;
  s_maximum : option Q;
  s_minLength : option Q;
  s_maxLength : option Q;
  s_minItems : option Q;
  s_maxItems : option Q;
  s_uniqueItems : option bool;
  s_items : option schema;
  s_properties : option (list (string * schema));
  s_required : option (list string)
}.

(** [x !== undefined ? x : d] *)
Definition or_default {A} (x : option A) (d : A) : A :=
  match x with Some v => v | None => d end.

(** ** Outcomes and the generator monad *)

Inductive error : Type :=
| TypeError (msg : string).

(** A run either completes with a value and the number of draws consumed
    so far, throws, or is still inside a loop when the fuel is spent. *)
Inductive outcome (A : Type) : Type :=
| Ret (a : A) (k : nat)
| Throw (e : error)
| Diverge.
Arguments Ret {A} a k.
Arguments Throw {A} e.
Arguments Diverge {A}.

Definition M (A : Type) : Type := nat -> outcome A.

Definition ret {A} (a : A) : M A := fun k => Ret a k.
Definition throw {A} (e : error) : M A := fun _ => Throw e.
Definition bind {A B} (c : M A) (f : A -> M B) : M B :=
  fun k => match c k with
           | Ret a k' => f a k'
           | Throw e => Throw e
           | Diverge => Diverge
           end.

Declare Scope gen_scope.
Delimit Scope gen_scope with gen.
Notation "x <- c ;; f" := (bind c (fun x => f))
  (at level 61, c at next level, right associativity) : gen_scope.
Local Open Scope gen_scope.

(** ** Numbers of the program *)

Definition MIN_SAFE_INTEGER : Q := inject_Z (- (2 ^ 53 - 1)).
Definition MAX_SAFE_INTEGER : Q := inject_Z (2 ^ 53 - 1).

Definition Math_floor (x : Q) : Q := inject_Z (Qfloor x).

Definition Qltb (x y : Q) : bool := negb (Qle_bool y x).

(** ** Binary64 rounding

    [ilog2 x] is the exponent of the binade of a positive [x]:
    [2 ^ ilog2 x <= x < 2 ^ (ilog2 x + 1)]. *)
Definition pow2 (e : Z) : Q := 2 ^ e.

Definition ilog2 (x : Q) : Z :=
  let e := (Z.log2 (Qnum x) - Z.log2 (Zpos (Qden x)))%Z in
  if Qle_bool (pow2 e) x then e else (e - 1)%Z.

(** Round to the nearest integer, ties to the even one. *)
Definition round_half_even (x : Q) : Z :=
  let f := Qfloor x in
  match Qcompare (x - inject_Z f) (1 # 2) with
  | Lt => f
  | Gt => (f + 1)%Z
  | Eq => if Z.even f then f else (f + 1)%Z
  end.

(** The exponent of the unit in the last place of [x]: 53 significant
    bits, and the subnormal spacing [2 ^ -1074] below [2 ^ -1022]. *)
Definition ulp_exp (x : Q) : Z := (Z.max (ilog2 (Qabs x)) (-1022) - 52)%Z.

(** The finite value nearest to [x], before the overflow test. *)
Definition round_finite (x : Q) : Q :=
  if Qeq_bool x 0 then 0
  else inject_Z (round_half_even (x / pow2 (ulp_exp x))) * pow2 (ulp_exp x).

(** Round to nearest, ties to even, overflow to an infinity. *)
Definition round64 (x : Q) : number :=
  let y := round_finite x in
  if Qle_bool (pow2 1024) y then PosInfinity
  else if Qle_bool y (- pow2 1024) then NegInfinity
  else num_of_Q y.

(** The literal [0.7] of the program: the binary64 value nearest to
    [7/10], a little below it. *)
Definition literal_0_7 : Q := round_finite (7 # 10).
Arguments literal_0_7 : simpl never.

(** A rational that is a binary64 value. *)
Definition is_double (x : Q) : Prop :=
  round_finite x == x /\ Qabs x < pow2 1024.

(** The operators of the program on numbers. *)
Definition js_sub (x y : number) : number :=
  match x, y with
  | Fin a, Fin b => round64 (a - b)
  | NaN, _ | _, NaN => NaN
  | PosInfinity, PosInfinity | NegInfinity, NegInfinity => NaN
  | PosInfinity, _ | _, NegInfinity => PosInfinity
  | NegInfinity, _ | _, PosInfinity => NegInfinity
  end.

Definition js_add (x y : number) : number :=
  match x, y with
  | Fin a, Fin b => round64 (a + b)
  | NaN, _ | _, NaN => NaN
  | PosInfinity, NegInfinity | NegInfinity, PosInfinity => NaN
  | PosInfinity, _ | _, PosInfinity => PosInfinity
  | NegInfinity, _ | _, NegInfinity => NegInfinity
  end.

Definition js_mul (x y : number) : number :=
  match x, y with
  | Fin a, Fin b => round64 (a * b)
  | NaN, _ | _, NaN => NaN
  | Fin a, PosInfinity | PosInfinity, Fin a =>
      match Qcompare a 0 with Eq => NaN | Gt => PosInfinity | Lt => NegInfinity end
  | Fin a, NegInfinity | NegInfinity, Fin a =>
      match Qcompare a 0 with Eq => NaN | Gt => NegInfinity | Lt => PosInfinity end
  | PosInfinity, PosInfinity | NegInfinity, NegInfinity => PosInfinity
  | PosInfinity, NegInfinity | NegInfinity, PosInfinity => NegInfinity
  end.

(** [Math.floor] on numbers. *)
Definition Math_floor_num (x : number) : number :=
  match x with
  | Fin q => num_of_Q (Math_floor q)
  | _ => x
  end.

(** [Math.floor(r * (max - min + 1)) + min] with every operator in
    binary64, for a draw [r]: what [getRandomInteger] computes when its
    integers are read as the binary64 values they are. *)
Definition getRandomInteger64 (r min max : Q) : number :=
  js_add (Math_floor_num
            (js_mul (num_of_Q r)
                    (js_add (js_sub (num_of_Q max) (num_of_Q min)) (num_of_Z 1))))
         (num_of_Q min).

(** ** Arrays, strings and objects of the host *)

(** [a[i]] for a numeric [i]: the element when [i] is an index of [a],
    [undefined] otherwise. *)
Definition array_get (a : list value) (i : Q) : value :=
  if Qeq_bool i (Math_floor i) && Qle_bool 0 i
  then nth (Z.to_nat (Qfloor i)) a VUndefined
  else VUndefined.

(** [s.charAt(i)]: the one-character string at position [i], the empty
    string out of range. *)
Definition charAt (s : string) (i : Q) : string :=
  if Qle_bool 0 i then
    match String.get (Z.to_nat (Qfloor i)) s with
    | Some c => String c EmptyString
    | None => EmptyString
    end
  else EmptyString.

(** [required.includes(key)] *)
Definition includes (required : list string) (key : string) : bool :=
  existsb (String.eqb key) required.

(** [result[key] = v] for a key that names a property of its own:
    overwrite an existing own property in place, or add a new last one.
    (The key [__proto__] is dealt with in Part IV.) *)
Fixpoint obj_set (key : string) (v : value) (o : list (string * value))
  : list (string * value) :=
  match o with
  | [] => [(key, v)]
  | (k', v') :: rest =>
      if String.eqb key k' then (k', v) :: rest
      else (k', v') :: obj_set key v rest
  end.

(** [o[key]] on the own properties. *)
Fixpoint obj_get (key : string) (o : list (string * value)) : option value :=
  match o with
  | [] => None
  | (k', v') :: rest => if String.eqb key k' then Some v' else obj_get key rest
  end.

(** [===] on the results of [JSON.stringify]: a string, or [undefined]. *)
Definition json_eqb (x y : option string) : bool :=
  match x, y with
  | Some a, Some b => String.eqb a b
  | None, None => true
  | _, _ => false
  end.

(** The number of iterations of [for (let i = 0; i < length; i++)]. *)
Definition for_count (length : Q) : nat := Z.to_nat (Qceiling length).

(** ** The generators *)

Section Generators.

(** The stream of values returned by successive calls of
    [Math.random()]. *)
Variable rs : nat -> Q.

(** [JSON.stringify], a builtin of the host: any function from values to
    strings ([None] where the builtin answers [undefined]). *)
Variable JSON_stringify : value -> option string.

Definition Math_random : M Q := fun k => Ret (rs k) (S k).

(** [getRandomInteger] in exact arithmetic; [getRandomInteger_64] of
    Part IV is the function as binary64 evaluates it. *)
Definition getRandomInteger (min max : Q) : M Q :=
  r <- Math_random ;;
  ret (Math_floor (r * (max - min + 1)) + min).

Definition getRandomNumber (min max : Q) : M number :=
  r <- Math_random ;;
  ret (js_add (js_mul (num_of_Q r) (js_sub (num_of_Q max) (num_of_Q min)))
              (num_of_Q min)).

Definition chars : string :=
  "ABCDEFGHIJKLMNOPQRSTUVWXYZabcdefghijklmnopqrstuvwxyz0123456789".

Fixpoint getRandomString_loop (n : nat) (result : string) : M string :=
  match n with
  | O => ret result
  | S n' =>
      r <- Math_random ;;
      getRandomString_loop n'
        (result ++ charAt chars (Math_floor (r * Q_of_nat (String.length chars))))
  end.

Definition getRandomString (length : Q) : M string :=
  getRandomString_loop (for_count length) EmptyString.

Definition getRandomBoolean : M bool :=
  r <- Math_random ;;
  ret (Qltb r (1 # 2)).

(** [!result.some(e => JSON.stringify(e) === JSON.stringify(item))] *)
Definition isUnique (result : list value) (item : value) : bool :=
  negb (existsb (fun existingItem =>
                   json_eqb (JSON_stringify existingItem) (JSON_stringify item))
                result).

(** The [while (result.length < length)] loop of [generateArray];
    [item] is [generateData(itemsSchema)].  One unit of fuel is one
    iteration. *)
Fixpoint generateArray_loop (item : M value) (uniqueItems : bool)
    (length : Q) (fuel : nat) (result : list value) : M (list value) :=
  fun k =>
    if Qltb (Q_of_nat (List.length result)) length then
      match fuel with
      | O => Diverge
      | S fuel' =>
          match item k with
          | Ret it k' =>
              if uniqueItems then
                if isUnique result it
                then generateArray_loop item uniqueItems length fuel'
                       (result ++ [it]) k'
                else generateArray_loop item uniqueItems length fuel' result k'
              else generateArray_loop item uniqueItems length fuel'
                     (result ++ [it]) k'
          | Throw e => Throw e
          | Diverge => Diverge
          end
      end
    else Ret result k.

Section Recursion.

(** The recursive call [generateData], as seen from [generateArray] and
    [generateObject]. *)
Variable generateData : schema -> M value.

(** [generateData(schema)] where [schema] may be [undefined]: reading
    [schema.enum] then throws. *)
Definition generateData_of (s : option schema) : M value :=
  match s with
  | Some s' => generateData s'
  | None => throw (TypeError "Cannot read properties of undefined (reading 'enum')")
  end.

Definition generateArray (fuel : nat) (s : schema) : M value :=
  let minItems := or_default (s_minItems s) 0 in
  let maxItems := or_default (s_maxItems s) (minItems + 10) in
  if Qeq_bool minItems 0 && Qeq_bool maxItems 0 then ret (VArr [])
  else
    let uniqueItems := or_default (s_uniqueItems s) false in
    length <- getRandomInteger minItems maxItems ;;
    let itemsSchema := s_items s in
    result <- generateArray_loop (generateData_of itemsSchema)
                uniqueItems length fuel [] ;;
    ret (VArr result).

(** The [for (const key in properties)] loop of [generateObject].
    Every enumerated key of a decoded JSON object is an own property, so
    the [hasOwnProperty] test holds at each iteration where the call
    reaches [Object.prototype.hasOwnProperty]; Part IV has the call
    itself, which fails when [properties] declares that name. *)
Fixpoint generateObject_loop (required : list string)
    (properties : list (string * schema))
    (result : list (string * value)) : M (list (string * value)) :=
  match properties with
  | [] => ret result
  | (key, sub) :: rest =>
      let isRequired := includes required key in
      include <- (if isRequired then ret true
                  else r <- Math_random ;; ret (Qltb r literal_0_7)) ;;
      if (include : bool) then
        v <- generateData sub ;;
        generateObject_loop required rest (obj_set key v result)
      else generateObject_loop required rest result
  end.

(** [schema.properties || {}] is written as a case distinction, which
    keeps the declared nodes visibly inside [s]. *)
Definition generateObject (s : schema) : M value :=
  let required := or_default (s_required s) [] in
  result <- match s_properties s with
            | Some properties => generateObject_loop required properties []
            | None => generateObject_loop required [] []
            end ;;
  ret (VObj result).

End Recursion.

Fixpoint generateData (fuel : nat) (s : schema) {struct s} : M value :=
  match s_enum s with
  | Some enumValues =>
      i <- getRandomInteger 0 (Q_of_nat (List.length enumValues) - 1) ;;
      ret (array_get enumValues i)
  | None =>
      let type := or_default (s_type s) EmptyString in
      if String.eqb type "integer" then
        let intMin := or_default (s_minimum s) MIN_SAFE_INTEGER in
        let intMax := or_default (s_maximum s) MAX_SAFE_INTEGER in
        n <- getRandomInteger intMin intMax ;;
        ret (VNum (num_of_Q n))
      else if String.eqb type "number" then
        let numMin := or_default (s_minimum s) (- (10000000000 # 1)) in
        let numMax := or_default (s_maximum s) (10000000000 # 1) in
        n <- getRandomNumber numMin numMax ;;
        ret (VNum n)
      else if String.eqb type "string" then
        let minLength := or_default (s_minLength s) 0 in
        let maxLength := or_default (s_maxLength s) (minLength + 20) in
        length <- getRandomInteger minLength maxLength ;;
        str <- getRandomString length ;;
        ret (VStr str)
      else if String.eqb type "boolean" then
        b <- getRandomBoolean ;;
        ret (VBool b)
      else if String.eqb type "array" then
        generateArray (generateData fuel) fuel s
      else if String.eqb type "object" then
        generateObject (generateData fuel) s
      else ret VNull
  end.

Definition generateRandomData (fuel : nat) (s : schema) : M value :=
  generateData fuel s.

End Generators.


(** A draw of [Math.random()] lies in [[0, 1)]. *)
Definition valid_draw (r : Q) : Prop := 0 <= r /\ r < 1.
Definition valid_draws (rs : nat -> Q) : Prop := forall n, valid_draw (rs n).

(** The six type names that [generateData] dispatches on. *)
Definition known_type (t : string) : Prop :=
  In t ["integer"; "number"; "string"; "boolean"; "array"; "object"]%string.

(** A run that never moves the draw counter backwards. *)
Definition advances {A} (c : M A) : Prop :=
  forall k a k', c k = Ret a k' -> (k <= k')%nat.

(** ** Induction on schema nodes *)

(** The nodes below [s]: its [items] and the nodes of its [properties]. *)
Definition items_node (P : schema -> Prop) (o : option schema) : Prop :=
  match o with Some it => P it | None => True end.

Definition property_nodes (P : schema -> Prop)
    (o : option (list (string * schema))) : Prop :=
  match o with Some ps => Forall (fun p => P (snd p)) ps | None => True end.

Fixpoint schema_nodes_ind (P : schema -> Prop)
    (step : forall s, items_node P (s_items s) ->
                      property_nodes P (s_properties s) -> P s)
    (s : schema) {struct s} : P s :=
  step s
    (match s_items s as o return items_node P o with
     | Some it => schema_nodes_ind P step it
     | None => I
     end)
    (match s_properties s as o return property_nodes P o with
     | Some ps =>
         (fix all (l : list (string * schema)) : Forall (fun p => P (snd p)) l :=
            match l with
            | [] => Forall_nil _
            | p :: rest =>
                Forall_cons p (schema_nodes_ind P step (snd p)) (all rest)
            end) ps
     | None => I
     end).

(** * Part II: the generators over a store

    The same code, with objects and arrays held in a store and passed by
    reference, as the program has them.  The schema itself lives in the
    store, undecoded: a node is whatever value the caller passes, and its
    attributes are read with ordinary property reads.  The store is
    written in three places only: the two [result.push(item)] of
    [generateArray] and [result[key] = ...] of [generateObject]. *)

Definition loc : Type := nat.

Inductive jsval : Type :=
| JUndefined
| JNull
| JBool (b : bool)
| JNum (n : number)
| JStr (s : string)
| JRef (l : loc).

(** What a location holds: an array or a plain object. *)
Inductive hobj : Type :=
| HArr (elems : list jsval)
| HObj (props : list (string * jsval)).

(** The store: location [l] is position [l]; allocation appends. *)
Definition heap : Type := list hobj.

(** The outcome of a run over the store.  The store and the draw counter
    reached are kept in every case. *)
Inductive hres (A : Type) : Type :=
| HRet (a : A) (h : heap) (k : nat)
| HThrow (e : error) (h : heap) (k : nat)
| HDiverge (h : heap) (k : nat).
Arguments HRet {A} a h k.
Arguments HThrow {A} e h k.
Arguments HDiverge {A} h k.

Definition final_heap {A} (r : hres A) : heap :=
  match r with HRet _ h _ | HThrow _ h _ | HDiverge h _ => h end.

Definition HM (A : Type) : Type := heap -> nat -> hres A.

Definition hret {A} (a : A) : HM A := fun h k => HRet a h k.
Definition hthrow {A} (e : error) : HM A := fun h k => HThrow e h k.
Definition hdiverge {A} : HM A := fun h k => HDiverge h k.
Definition hbind {A B} (c : HM A) (f : A -> HM B) : HM B :=
  fun h k => match c h k with
             | HRet a h' k' => f a h' k'
             | HThrow e h' k' => HThrow e h' k'
             | HDiverge h' k' => HDiverge h' k'
             end.

Declare Scope store_scope.
Delimit Scope store_scope with store.
Notation "x <- c ;; f" := (hbind c (fun x => f))
  (at level 61, c at next level, right associativity) : store_scope.

(** Reading the store as it is. *)
Definition with_heap {A} (f : heap -> A) : HM A := fun h k => HRet (f h) h k.

(** [[]] and [{}]: a new location. *)
Definition alloc (o : hobj) : HM loc :=
  fun h k => HRet (List.length h) (h ++ [o]) k.

(** Replace what location [l] holds. *)
Fixpoint heap_update (l : loc) (f : hobj -> hobj) (h : heap) : heap :=
  match h, l with
  | [], _ => []
  | o :: rest, O => f o :: rest
  | o :: rest, S l' => o :: heap_update l' f rest
  end.

Fixpoint prop_set (key : string) (v : jsval) (o : list (string * jsval))
  : list (string * jsval) :=
  match o with
  | [] => [(key, v)]
  | (k', v') :: rest =>
      if String.eqb key k' then (k', v) :: rest
      else (k', v') :: prop_set key v rest
  end.

Fixpoint prop_get (key : string) (o : list (string * jsval)) : option jsval :=
  match o with
  | [] => None
  | (k', v') :: rest => if String.eqb key k' then Some v' else prop_get key rest
  end.

(** [result.push(item)] on the array at [l]. *)
Definition array_push (l : loc) (item : jsval) : HM unit :=
  fun h k =>
    HRet tt (heap_update l (fun o => match o with
                                     | HArr elems => HArr (elems ++ [item])
                                     | HObj props => HObj props
                                     end) h) k.

(** [result[key] = v] on the object at [l]. *)
Definition object_set (l : loc) (key : string) (v : jsval) : HM unit :=
  fun h k =>
    HRet tt (heap_update l (fun o => match o with
                                     | HObj props => HObj (prop_set key v props)
                                     | HArr elems => HArr elems
                                     end) h) k.

(** [ToBoolean] *)
Definition truthy (v : jsval) : bool :=
  match v with
  | JUndefined | JNull => false
  | JBool b => b
  | JNum (Fin q) => negb (Qeq_bool q 0)
  | JNum NaN => false
  | JNum _ => true
  | JStr s => negb (String.eqb s EmptyString)
  | JRef _ => true
  end.

(** [x === y] *)
Definition strict_eq (x y : jsval) : bool :=
  match x, y with
  | JUndefined, JUndefined | JNull, JNull => true
  | JBool a, JBool b => Bool.eqb a b
  | JNum (Fin a), JNum (Fin b) => Qeq_bool a b
  | JNum PosInfinity, JNum PosInfinity | JNum NegInfinity, JNum NegInfinity => true
  | JStr a, JStr b => String.eqb a b
  | JRef a, JRef b => Nat.eqb a b
  | _, _ => false
  end.

(** [x !== undefined ? x : d] *)
Definition defined_or (x d : jsval) : jsval :=
  match x with JUndefined => d | _ => x end.

Inductive binop : Type := Sub | Add | Mul.

Section StoreGenerators.

Variable rs : nat -> Q.

(** The operators and builtins of the host.  They read the store (a
    reference operand is converted through what it points to) and never
    write it. *)
Variable js_arith : binop -> heap -> jsval -> jsval -> jsval.
Variable js_floor : heap -> jsval -> jsval.
Variable js_lt : heap -> jsval -> jsval -> bool.
Variable js_charAt : string -> jsval -> string.
Variable key_of_index : nat -> string.
Variable to_key : heap -> jsval -> string.
Variable prim_get : jsval -> string -> jsval.
Variable prim_includes : jsval -> string -> option bool.
(** [None]: [JSON.stringify] throws. *)
Variable JSON_stringify : heap -> jsval -> option (option string).

Definition arith (op : binop) (x y : jsval) : HM jsval :=
  with_heap (fun h => js_arith op h x y).

(** The own enumerable keys of what [l] holds, in enumeration order. *)
Definition own_keys (o : hobj) : list string :=
  match o with
  | HObj props => map fst props
  | HArr elems => map key_of_index (seq 0 (List.length elems))
  end.

Definition own_get (o : hobj) (key : string) : jsval :=
  match o with
  | HObj props => or_default (prop_get key props) JUndefined
  | HArr elems =>
      if String.eqb key "length" then JNum (num_of_Z (Z.of_nat (List.length elems)))
      else
        match find (fun i => String.eqb (key_of_index i) key)
                   (seq 0 (List.length elems)) with
        | Some i => nth i elems JUndefined
        | None => JUndefined
        end
  end.

(** [v.key] and [v[key]] for a string [key]. *)
Definition get_prop (v : jsval) (key : string) : HM jsval :=
  fun h k =>
    match v with
    | JUndefined | JNull =>
        HThrow (TypeError "Cannot read properties of undefined or null") h k
    | JRef l =>
        match nth_error h l with
        | Some o => HRet (own_get o key) h k
        | None => HRet JUndefined h k
        end
    | _ => HRet (prim_get v key) h k
    end.

(** [a[i]]: the property whose key is [i] converted to a string. *)
Definition get_index (a : jsval) (i : jsval) : HM jsval :=
  fun h k => get_prop a (to_key h i) h k.

(** The keys visited by [for (const key in v)]. *)
Definition for_in_keys (v : jsval) : HM (list string) :=
  fun h k =>
    match v with
    | JRef l =>
        match nth_error h l with
        | Some o => HRet (own_keys o) h k
        | None => HRet [] h k
        end
    | _ => HRet [] h k
    end.

(** [required.includes(key)] *)
Definition includesH (required : jsval) (key : string) : HM bool :=
  fun h k =>
    match required with
    | JRef l =>
        match nth_error h l with
        | Some (HArr elems) => HRet (existsb (strict_eq (JStr key)) elems) h k
        | _ => HThrow (TypeError "required.includes is not a function") h k
        end
    | _ =>
        match prim_includes required key with
        | Some b => HRet b h k
        | None => HThrow (TypeError "required.includes is not a function") h k
        end
    end.

Definition Math_randomH : HM jsval :=
  fun h k => HRet (JNum (num_of_Q (rs k))) h (S k).

Definition getRandomIntegerH (min max : jsval) : HM jsval :=
  (r <- Math_randomH ;;
   d <- arith Sub max min ;;
   n <- arith Add d (JNum (num_of_Z 1)) ;;
   p <- arith Mul r n ;;
   f <- with_heap (fun h => js_floor h p) ;;
   arith Add f min)%store.

Definition getRandomNumberH (min max : jsval) : HM jsval :=
  (r <- Math_randomH ;;
   d <- arith Sub max min ;;
   p <- arith Mul r d ;;
   arith Add p min)%store.

(** [for (let i = 0; i < length; i++) result += chars.charAt(...)] *)
Fixpoint getRandomStringH_loop (fuel : nat) (length : jsval) (i : nat)
    (result : string) : HM string :=
  fun h k =>
    if js_lt h (JNum (num_of_Z (Z.of_nat i))) length then
      match fuel with
      | O => HDiverge h k
      | S fuel' =>
          (r <- Math_randomH ;;
           p <- arith Mul r (JNum (num_of_Z (Z.of_nat (String.length chars)))) ;;
           f <- with_heap (fun h => js_floor h p) ;;
           getRandomStringH_loop fuel' length (S i) (result ++ js_charAt chars f))%store
            h k
      end
    else HRet result h k.

Definition getRandomBooleanH : HM jsval :=
  (r <- Math_randomH ;;
   b <- with_heap (fun h => js_lt h r (JNum (num_of_Q (1 # 2)))) ;;
   hret (JBool b))%store.

(** [result.some(e => JSON.stringify(e) === JSON.stringify(item))] *)
Fixpoint someH (elems : list jsval) (item : jsval) : HM bool :=
  match elems with
  | [] => hret false
  | e :: rest =>
      fun h k =>
        match JSON_stringify h e, JSON_stringify h item with
        | Some x, Some y =>
            if json_eqb x y then HRet true h k else someH rest item h k
        | _, _ => HThrow (TypeError "Converting circular structure to JSON") h k
        end
  end.

Definition array_elems (l : loc) : HM (list jsval) :=
  with_heap (fun h => match nth_error h l with
                      | Some (HArr elems) => elems
                      | _ => []
                      end).

(** The [while (result.length < length)] loop; [result] is the location
    of the array under construction. *)
Fixpoint generateArrayH_loop (item : HM jsval) (uniqueItems : jsval)
    (length : jsval) (result : loc) (fuel : nat) : HM unit :=
  (elems <- array_elems result ;;
   continue <- with_heap (fun h =>
                 js_lt h (JNum (num_of_Z (Z.of_nat (List.length elems)))) length) ;;
   if (continue : bool) then
     match fuel with
     | O => hdiverge
     | S fuel' =>
         it <- item ;;
         if truthy uniqueItems then
           existing <- array_elems result ;;
           found <- someH existing it ;;
           if (found : bool)
           then generateArrayH_loop item uniqueItems length result fuel'
           else (_ <- array_push result it ;;
                 generateArrayH_loop item uniqueItems length result fuel')
         else (_ <- array_push result it ;;
               generateArrayH_loop item uniqueItems length result fuel')
     end
   else hret tt)%store.

Section StoreRecursion.

Variable generateDataH : jsval -> HM jsval.

Definition generateArrayH (fuel : nat) (schema : jsval) : HM jsval :=
  (mi <- get_prop schema "minItems" ;;
   let minItems := defined_or mi (JNum (num_of_Z 0)) in
   ma <- get_prop schema "maxItems" ;;
   dflt <- arith Add minItems (JNum (num_of_Z 10)) ;;
   let maxItems := defined_or ma dflt in
   if strict_eq minItems (JNum (num_of_Z 0)) && strict_eq maxItems (JNum (num_of_Z 0))
   then (l <- alloc (HArr []) ;; hret (JRef l))
   else
     u <- get_prop schema "uniqueItems" ;;
     let uniqueItems := if truthy u then u else JBool false in
     length <- getRandomIntegerH minItems maxItems ;;
     itemsSchema <- get_prop schema "items" ;;
     result <- alloc (HArr []) ;;
     _ <- generateArrayH_loop (generateDataH itemsSchema) uniqueItems length
            result fuel ;;
     hret (JRef result))%store.

(** The body of [for (const key in properties)], over the keys still to
    visit. *)
Fixpoint generateObjectH_loop (properties required : jsval) (result : loc)
    (keys : list string) : HM unit :=
  match keys with
  | [] => hret tt
  | key :: rest =>
      (isRequired <- includesH required key ;;
       include <- (if (isRequired : bool) then hret true
                   else r <- Math_randomH ;;
                        with_heap (fun h => js_lt h r (JNum (num_of_Q literal_0_7)))) ;;
       if (include : bool) then
         sub <- get_prop properties key ;;
         v <- generateDataH sub ;;
         _ <- object_set result key v ;;
         generateObjectH_loop properties required result rest
       else generateObjectH_loop properties required result rest)%store
  end.

Definition generateObjectH (schema : jsval) : HM jsval :=
  (result <- alloc (HObj []) ;;
   p <- get_prop schema "properties" ;;
   properties <- (if truthy p then hret p
                  else l <- alloc (HObj []) ;; hret (JRef l)) ;;
   r <- get_prop schema "required" ;;
   required <- (if truthy r then hret r
                else l <- alloc (HArr []) ;; hret (JRef l)) ;;
   keys <- for_in_keys properties ;;
   _ <- generateObjectH_loop properties required result keys ;;
   hret (JRef result))%store.

End StoreRecursion.

(** One unit of fuel is one level of recursion, and one iteration of each
    loop below it. *)
Fixpoint generateDataH (fuel : nat) (schema : jsval) {struct fuel} : HM jsval :=
  match fuel with
  | O => hdiverge
  | S fuel' =>
      (enumValues <- get_prop schema "enum" ;;
       if truthy enumValues then
         len <- get_prop enumValues "length" ;;
         hi <- arith Sub len (JNum (num_of_Z 1)) ;;
         i <- getRandomIntegerH (JNum (num_of_Z 0)) hi ;;
         get_index enumValues i
       else
         type <- get_prop schema "type" ;;
         if strict_eq type (JStr "integer") then
           mn <- get_prop schema "minimum" ;;
           mx <- get_prop schema "maximum" ;;
           getRandomIntegerH (defined_or mn (JNum (num_of_Q MIN_SAFE_INTEGER)))
                             (defined_or mx (JNum (num_of_Q MAX_SAFE_INTEGER)))
         else if strict_eq type (JStr "number") then
           mn <- get_prop schema "minimum" ;;
           mx <- get_prop schema "maximum" ;;
           getRandomNumberH (defined_or mn (JNum (num_of_Q (- (10000000000 # 1)))))
                            (defined_or mx (JNum (num_of_Q (10000000000 # 1))))
         else if strict_eq type (JStr "string") then
           mn <- get_prop schema "minLength" ;;
           let minLength := defined_or mn (JNum (num_of_Z 0)) in
           mx <- get_prop schema "maxLength" ;;
           dflt <- arith Add minLength (JNum (num_of_Z 20)) ;;
           let maxLength := defined_or mx dflt in
           length <- getRandomIntegerH minLength maxLength ;;
           str <- getRandomStringH_loop fuel' length 0 EmptyString ;;
           hret (JStr str)
         else if strict_eq type (JStr "boolean") then getRandomBooleanH
         else if strict_eq type (JStr "array") then
           generateArrayH (generateDataH fuel') fuel' schema
         else if strict_eq type (JStr "object") then
           generateObjectH (generateDataH fuel') schema
         else hret JNull)%store
  end.

Definition generateRandomDataH (fuel : nat) (schema : jsval) : HM jsval :=
  generateDataH fuel schema.

End StoreGenerators.

(** The store [h'] still holds, at every location of [h], what [h] holds
    there. *)
Definition unchanged (h h' : heap) : Prop :=
  (List.length h <= List.length h')%nat /\
  forall l o, nth_error h l = Some o -> nth_error h' l = Some o.

(** A run that leaves the first [n] locations as they are. *)
Definition keeps {A} (n : nat) (c : HM A) : Prop :=
  forall h k,
    (n <= List.length h)%nat ->
    (n <= List.length (final_heap (c h k)))%nat /\
    forall l, (l < n)%nat -> nth_error (final_heap (c h k)) l = nth_error h l.

(** Runs that do not touch the store. *)
Definition readonly {A} (c : HM A) : Prop :=
  forall h k, final_heap (c h k) = h.

(** * Sample inputs

    A stream of draws, a [JSON.stringify], a host for the store-level
    code, and the schemas of the repository's tests, for running the
    definitions. *)

Definition sample_draws (n : nat) : Q :=
  inject_Z (Z.of_nat ((n * 37 + 11) mod 100)) / 100.

Definition half_draws (n : nat) : Q := 1 # 2.

Definition string_of_Z (z : Z) : string := NilZero.string_of_int (Z.to_int z).

Definition quote : string := String (ascii_of_nat 34) EmptyString.

Definition number_text (n : number) : string :=
  match n with
  | Fin q =>
      match Qden q with
      | xH => string_of_Z (Qnum q)
      | d => string_of_Z (Qnum q) ++ "/" ++ string_of_Z (Zpos d)
      end
  | _ => "null"
  end.

Fixpoint join (sep : string) (l : list string) : string :=
  match l with
  | [] => EmptyString
  | [x] => x
  | x :: rest => x ++ sep ++ join sep rest
  end.

(** A serialiser in the manner of [JSON.stringify]: [undefined] has no
    text, is [null] inside an array and is left out of an object.  A
    number that is not a whole number is printed as a fraction. *)
Fixpoint sample_stringify (v : value) : option string :=
  match v with
  | VUndefined => None
  | VNull => Some "null"
  | VBool true => Some "true"
  | VBool false => Some "false"
  | VNum n => Some (number_text n)
  | VStr s => Some (quote ++ s ++ quote)
  | VArr items =>
      Some ("[" ++ join "," (map (fun x => or_default (sample_stringify x) "null") items)
                ++ "]")
  | VObj props =>
      Some ("{" ++ join ","
                     ((fix members (l : list (string * value)) : list string :=
                         match l with
                         | [] => []
                         | (key, x) :: rest =>
                             match sample_stringify x with
                             | Some t => (quote ++ key ++ quote ++ ":" ++ t) :: members rest
                             | None => members rest
                             end
                         end) props)
                ++ "}")
  end%string.

Definition empty_schema : schema :=
  mkSchema None None None None None None None None None None None None.

Definition typed (t : string) : schema :=
  mkSchema None (Some t) None None None None None None None None None None.

Definition integer_schema (a b : Z) : schema :=
  mkSchema None (Some "integer"%string) (Some (inject_Z a)) (Some (inject_Z b))
           None None None None None None None None.

Definition number_schema (a b : Q) : schema :=
  mkSchema None (Some "number"%string) (Some a) (Some b)
           None None None None None None None None.

Definition enum_schema (t : string) (l : list value) : schema :=
  mkSchema (Some l) (Some t) None None None None None None None None None None.

Definition array_schema (a b : nat) (unique : bool) (it : schema) : schema :=
  mkSchema None (Some "array"%string) None None None None
           (Some (Q_of_nat a)) (Some (Q_of_nat b)) (Some unique) (Some it) None None.

Definition object_schema (ps : list (string * schema)) (req : list string) : schema :=
  mkSchema None (Some "object"%string) None None None None None None None None
           (Some ps) (Some req).

(** [integerSchema.json], [enumStringSchema.json], [uniqueArraySchema.json],
    [emptyArraySchema.json] and [objectSchema.json] of the tests. *)
Definition integerSchema : schema := integer_schema 10 20.
Definition enumStringSchema : schema :=
  enum_schema "string" [VStr "red"; VStr "green"; VStr "blue"].
Definition uniqueArraySchema : schema := array_schema 3 5 true (integer_schema 1 100).
Definition emptyArraySchema : schema := array_schema 0 0 false (typed "integer").
Definition objectSchema : schema :=
  object_schema [("id", integer_schema 1 1000);
                 ("name", mkSchema None (Some "string") None None (Some 3) (Some 50)
                                   None None None None None None);
                 ("active", typed "boolean")]%string
                ["id"; "name"]%string.

(** A request that cannot be met: two different items out of one. *)
Definition stuckArraySchema : schema :=
  array_schema 2 2 true (enum_schema "string" [VStr "only"]).

(** ** A host for the store-level code *)

Definition sample_to_number (v : jsval) : number :=
  match v with
  | JNum n => n
  | JBool true => num_of_Z 1
  | JBool false | JNull => num_of_Z 0
  | _ => NaN
  end.

Definition sample_arith (op : binop) (h : heap) (x y : jsval) : jsval :=
  let a := sample_to_number x in
  let b := sample_to_number y in
  JNum match op with Sub => js_sub a b | Add => js_add a b | Mul => js_mul a b end.

Definition sample_floor (h : heap) (x : jsval) : jsval :=
  JNum (Math_floor_num (sample_to_number x)).

Definition sample_lt (h : heap) (x y : jsval) : bool :=
  match sample_to_number x, sample_to_number y with
  | Fin a, Fin b => Qltb a b
  | NegInfinity, Fin _ | NegInfinity, PosInfinity | Fin _, PosInfinity => true
  | _, _ => false
  end.

Definition sample_charAt (s : string) (i : jsval) : string :=
  match i with
  | JNum (Fin q) => charAt s q
  | _ => EmptyString
  end.

Definition sample_key_of_index (n : nat) : string :=
  NilZero.string_of_uint (Nat.to_uint n).

Definition sample_to_key (h : heap) (v : jsval) : string :=
  match v with
  | JStr s => s
  | JNum (Fin q) =>
      if Qeq_bool q (Math_floor q) && Qle_bool 0 q
      then sample_key_of_index (Z.to_nat (Qfloor q))
      else number_text (Fin q)
  | JNum PosInfinity => "Infinity"
  | JNum NegInfinity => "-Infinity"
  | JNum NaN => "NaN"
  | JUndefined => "undefined"
  | JNull => "null"
  | JBool true => "true"
  | JBool false => "false"
  | JRef _ => "[object Object]"
  end.

Definition sample_prim_get (v : jsval) (key : string) : jsval :=
  match v with
  | JStr s => if String.eqb key "length"
              then JNum (num_of_Z (Z.of_nat (String.length s)))
              else JUndefined
  | _ => JUndefined
  end.

Definition sample_prim_includes (v : jsval) (key : string) : option bool := None.

(** The texts of the store-level serialiser; [None] when the fuel is
    spent, as on a circular structure. *)
Fixpoint sample_stringifyH_fuel (fuel : nat) (h : heap) (v : jsval)
  : option (option string) :=
  match fuel with
  | O => None
  | S fuel' =>
      match v with
      | JUndefined => Some None
      | JNull => Some (Some "null")
      | JBool true => Some (Some "true")
      | JBool false => Some (Some "false")
      | JNum n => Some (Some (number_text n))
      | JStr s => Some (Some (quote ++ s ++ quote))
      | JRef l =>
          match nth_error h l with
          | None => Some None
          | Some (HArr elems) =>
              match fold_right
                      (fun x acc =>
                         match sample_stringifyH_fuel fuel' h x, acc with
                         | Some t, Some ts => Some (or_default t "null" :: ts)
                         | _, _ => None
                         end) (Some []) elems with
              | Some ts => Some (Some ("[" ++ join "," ts ++ "]"))
              | None => None
              end
          | Some (HObj props) =>
              match fold_right
                      (fun p acc =>
                         match sample_stringifyH_fuel fuel' h (snd p), acc with
                         | Some (Some t), Some ts =>
                             Some ((quote ++ fst p ++ quote ++ ":" ++ t) :: ts)
                         | Some None, Some ts => Some ts
                         | _, _ => None
                         end) (Some []) props with
              | Some ts => Some (Some ("{" ++ join "," ts ++ "}"))
              | None => None
              end
          end
      end
  end%string.

Definition sample_stringifyH (h : heap) (v : jsval) : option (option string) :=
  sample_stringifyH_fuel (S (List.length h)) h v.

Definition sample_generateDataH : nat -> jsval -> HM jsval :=
  generateDataH sample_draws sample_arith sample_floor sample_lt sample_charAt
    sample_key_of_index sample_to_key sample_prim_get sample_prim_includes
    sample_stringifyH.

(** [objectSchema.json] in the store: the node at location 0, its
    [properties] at 1, its [required] at 2, the declared nodes at 3..5. *)
Definition objectSchema_store : heap :=
  [ HObj [("type", JStr "object"); ("properties", JRef 1%nat); ("required", JRef 2%nat)];
    HObj [("id", JRef 3%nat); ("name", JRef 4%nat); ("active", JRef 5%nat)];
    HArr [JStr "id"; JStr "name"];
    HObj [("type", JStr "integer"); ("minimum", JNum (num_of_Z 1));
          ("maximum", JNum (num_of_Z 1000))];
    HObj [("type", JStr "string"); ("minLength", JNum (num_of_Z 3));
          ("maxLength", JNum (num_of_Z 50))];
    HObj [("type", JStr "boolean")] ]%string.

(** [uniqueArraySchema.json] in the store, with the array node at 0. *)
Definition uniqueArraySchema_store : heap :=
  [ HObj [("type", JStr "array"); ("minItems", JNum (num_of_Z 3));
          ("maxItems", JNum (num_of_Z 5)); ("uniqueItems", JBool true);
          ("items", JRef 1%nat)];
    HObj [("type", JStr "integer"); ("minimum", JNum (num_of_Z 1));
          ("maximum", JNum (num_of_Z 100))] ]%string.

(** Bounds two units apart at [2^53], where the binary64 values are the
    even integers, and a stream whose draws are all [0.75]. *)
Definition tightNumberSchema : schema :=
  number_schema (inject_Z (2 ^ 53)) (inject_Z (2 ^ 53 + 2)).

Definition three_quarter_draws (n : nat) : Q := 3 # 4.

(** Bounds whose difference is beyond the largest binary64 value. *)
Definition wideNumberSchema : schema :=
  number_schema (- inject_Z (2 ^ 1023)) (inject_Z (2 ^ 1023)).

(** [numberSchema.json] of the tests. *)
Definition numberSchema : schema := number_schema (1 # 2) (21 # 2).

(** ** The binary64 operations of the Standard Library

    [SpecFloat] specifies the IEEE 754 operations that Rocq's primitive
    floats implement.  Its values are read back as numbers, to compare
    its operations with [js_add], [js_sub] and [js_mul] at sample
    operands. *)

Definition SF64 (m e : Z) : spec_float := binary_normalize 53 1024 m e false.

Definition number_of_SF (f : spec_float) : number :=
  match f with
  | S754_zero _ => num_of_Z 0
  | S754_infinity false => PosInfinity
  | S754_infinity true => NegInfinity
  | S754_nan => NaN
  | S754_finite s m e =>
      num_of_Q ((if s then - (1) else 1) * inject_Z (Zpos m) * pow2 e)
  end.

(** Operands: ordinary values, ties at [2^53], subnormals, the largest
    finite value with the halves of its last unit, and values next to a
    power of two. *)
Definition sample_operands : list spec_float :=
  [ SF64 0 0; SF64 3 (-2); SF64 1 (-1); SF64 10 0; SF64 (-7) (-3);
    SF64 (2 ^ 53) 0; SF64 (2 ^ 53 + 2) 0; SF64 (- (2 ^ 53 - 1)) 0;
    SF64 1 (-1074); SF64 3 (-1074); SF64 (2 ^ 53 - 1) 971; SF64 1 970 ].

Definition number_eqb (x y : number) : bool :=
  match x, y with
  | Fin a, Fin b => Qeq_bool a b
  | PosInfinity, PosInfinity | NegInfinity, NegInfinity | NaN, NaN => true
  | _, _ => false
  end.

(** [op] and [op'] agree on every pair of sample operands. *)
Definition agree_on_samples
    (op : spec_float -> spec_float -> spec_float)
    (op' : number -> number -> number) : bool :=
  forallb (fun x =>
    forallb (fun y =>
      number_eqb (number_of_SF (op x y)) (op' (number_of_SF x) (number_of_SF y)))
      sample_operands) sample_operands.

(** Two results that differ at most in how their numbers are written are
    the same result. *)
Ltac same_run :=
  vm_compute;
  repeat first [reflexivity | apply Qc_is_canon; reflexivity | progress f_equal].

(** * Whole schemas

    [all_nodes P s]: [P] holds of [s], of its [items] node and of the
    nodes of its [properties], and so on below them. *)
Fixpoint all_nodes (P : schema -> Prop) (s : schema) {struct s} : Prop :=
  P s /\
  match s_items s with
  | Some it => all_nodes P it
  | None => True
  end /\
  match s_properties s with
  | Some ps =>
      (fix all (l : list (string * schema)) : Prop :=
         match l with
         | [] => True
         | p :: rest => all_nodes P (snd p) /\ all rest
         end) ps
  | None => True
  end.

(** An array node names the node of its items. *)
Definition items_declared (s : schema) : Prop :=
  s_type s = Some "array"%string -> s_items s <> None.


(** * The store: what a location holds

    A run that leaves [P] true of the store, however it ends. *)
Definition preserves {A} (P : heap -> Prop) (c : HM A) : Prop :=
  forall h k, P h -> P (final_heap (c h k)).

Definition holds_array (l : loc) (h : heap) : Prop :=
  exists elems, nth_error h l = Some (HArr elems).

Definition holds_object (l : loc) (h : heap) : Prop :=
  exists props, nth_error h l = Some (HObj props).

(** One step of a run [hbind c f] whose first part [c] preserves the
    property [HP] of the store; runs that do not return are set aside. *)
Ltac step_preserving Hc :=
  match goal with
  | HP : _ ?h |- context [hbind ?c ?f ?h ?k] =>
      unfold hbind at 1;
      let HP' := fresh "HP" in
      pose proof (Hc h k HP) as HP';
      destruct (c h k) as [? ? ?|? ? ?|? ?]; simpl in HP'; [clear HP|exact I..]
  end.

(** * Part III: generateDataFromFile

    [generateDataFromFile.js] reads a schema from a file and generates
    from it, inside [try ... catch].  The file system, [path.resolve]
    and [JSON.parse] are the host's; the schema that [JSON.parse] builds
    lives in the store, so the generators are those of Part II. *)

(** What a [catch] clause can receive: an exception of the generators,
    or one raised by the host, with its [name] and [message]. *)
Inductive exn : Type :=
| Generated (e : error)
| HostError (name message : string).

(** [error.message] *)
Definition message (e : exn) : string :=
  match e with
  | Generated (TypeError msg) => msg
  | HostError _ msg => msg
  end.

(** The state a call runs in: the store, the draws consumed, and the
    lines written with [console.error]. *)
Record world : Type := mkWorld {
  w_heap : heap;
  w_draws : nat;
  w_stderr : list string
}.

Inductive fres (A : Type) : Type :=
| FRet (a : A) (w : world)
| FThrow (e : exn) (w : world)
| FDiverge (w : world).
Arguments FRet {A} a w.
Arguments FThrow {A} e w.
Arguments FDiverge {A} w.

Definition FM (A : Type) : Type := world -> fres A.

Definition fret {A} (a : A) : FM A := fun w => FRet a w.
Definition fbind {A B} (c : FM A) (f : A -> FM B) : FM B :=
  fun w => match c w with
           | FRet a w' => f a w'
           | FThrow e w' => FThrow e w'
           | FDiverge w' => FDiverge w'
           end.

Declare Scope file_scope.
Delimit Scope file_scope with file.
Notation "x <- c ;; f" := (fbind c (fun x => f))
  (at level 61, c at next level, right associativity) : file_scope.

(** [try { body } catch (error) { handler }] *)
Definition try_catch {A} (body : FM A) (handler : exn -> FM A) : FM A :=
  fun w => match body w with
           | FThrow e w' => handler e w'
           | r => r
           end.

(** [console.error(line)] *)
Definition console_error (line : string) : FM unit :=
  fun w => FRet tt (mkWorld (w_heap w) (w_draws w) (w_stderr w ++ [line])).

(** A call of a host function that reads the state at most. *)
Definition host_call {A} (r : exn + A) : FM A :=
  fun w => match r with
           | inl e => FThrow e w
           | inr a => FRet a w
           end.

(** A run of the generators of Part II. *)
Definition run_generator {A} (c : HM A) : FM A :=
  fun w => match c (w_heap w) (w_draws w) with
           | HRet a h k => FRet a (mkWorld h k (w_stderr w))
           | HThrow e h k => FThrow (Generated e) (mkWorld h k (w_stderr w))
           | HDiverge h k => FDiverge (mkWorld h k (w_stderr w))
           end.

Section FileGeneration.

Variable rs : nat -> Q.
Variable js_arith : binop -> heap -> jsval -> jsval -> jsval.
Variable js_floor : heap -> jsval -> jsval.
Variable js_lt : heap -> jsval -> jsval -> bool.
Variable js_charAt : string -> jsval -> string.
Variable key_of_index : nat -> string.
Variable to_key : heap -> jsval -> string.
Variable prim_get : jsval -> string -> jsval.
Variable prim_includes : jsval -> string -> option bool.
Variable JSON_stringify : heap -> jsval -> option (option string).

(** [path.resolve(p)], [fs.readFileSync(p, encoding)] and
    [JSON.parse(text)]: each returns or throws; [JSON.parse] builds its
    result in the store. *)
Variable path_resolve : string -> exn + string.
Variable fs_readFileSync : string -> string -> exn + string.
Variable JSON_parse : string -> heap -> exn + (jsval * heap).

Definition parse (text : string) : FM jsval :=
  fun w => match JSON_parse text (w_heap w) with
           | inl e => FThrow e w
           | inr (v, h) => FRet v (mkWorld h (w_draws w) (w_stderr w))
           end.

Definition generateDataFromFile (fuel : nat) (schemaFilePath : string)
  : FM jsval :=
  (try_catch
     (absolutePath <- host_call (path_resolve schemaFilePath) ;;
      schemaData <- host_call (fs_readFileSync absolutePath "utf-8") ;;
      schema <- parse schemaData ;;
      run_generator
        (generateRandomDataH rs js_arith js_floor js_lt js_charAt key_of_index
           to_key prim_get prim_includes JSON_stringify fuel schema))
     (fun error =>
        _ <- console_error ("Error reading schema from file: " ++ message error) ;;
        fret JNull))%file.

End FileGeneration.

(** * Further sample inputs

    [stringSchema.json] and [enumArraySchema.json] as the tests describe
    them, an integer node whose bounds are in the wrong order, and an
    array node that names no items. *)
Definition stringSchema : schema :=
  mkSchema None (Some "string"%string) None None (Some 5) (Some 10)
           None None None None None None.


Definition wrongOrderIntegerSchema : schema := integer_schema 20 10.

Definition wrongOrderNumberSchema : schema := number_schema (21 # 2) (1 # 2).

Definition arrayWithoutItems : schema :=
  mkSchema None (Some "array"%string) None None None None
           (Some (Q_of_nat 1)) (Some (Q_of_nat 2)) None None None None.

(** [enumObjectSchema.json] in the store: the node at location 0, its
    [enum] array at 1, the three objects of the array at 2..4. *)
Definition enumObjectSchema_store : heap :=
  [ HObj [("enum", JRef 1%nat)];
    HArr [JRef 2%nat; JRef 3%nat; JRef 4%nat];
    HObj [("role", JStr "admin")];
    HObj [("role", JStr "user")];
    HObj [("role", JStr "guest")] ]%string.

(** * Part IV: the generators as the engine evaluates them

    Part I reads the integers of the program in exact arithmetic and an
    object as the list of its properties, whatever their names.  Here
    the same code is embedded as JavaScript evaluates it:
    - every number is a binary64 value and every operator rounds, also
      in [getRandomInteger], in the defaults [minItems + 10] and
      [minLength + 20] and in [enumValues.length - 1];
    - [properties.hasOwnProperty(key)] is a method call on [properties]
      itself, where a declared property of that name is a schema node and
      not a function;
    - [result[key] = v] for the key [__proto__] goes to the setter that
      [Object.prototype] provides and adds no property to [result] (the
      prototype of an object is not part of a value here);
    - a [for] loop whose bound is infinite, or beyond [2^53] where [i++]
      no longer advances, does not end.
    The numbers of a schema are its [Q] fields read with [num_of_Q]; the
    theorems say which of them they take to be binary64 values.  The
    limits of an engine on the size of a string or of an array are limits
    of its resources, and are not part of the embedding. *)

Definition num_of_nat (n : nat) : number := num_of_Z (Z.of_nat n).

(** [x < y] on numbers. *)
Definition js_lt_num (x y : number) : bool :=
  match x, y with
  | Fin a, Fin b => Qltb a b
  | NegInfinity, Fin _ | NegInfinity, PosInfinity | Fin _, PosInfinity => true
  | _, _ => false
  end.

(** [x === y] on numbers. *)
Definition strict_eq_num (x y : number) : bool :=
  match x, y with
  | Fin a, Fin b => Qeq_bool a b
  | PosInfinity, PosInfinity | NegInfinity, NegInfinity => true
  | _, _ => false
  end.

(** [a[i]] for a number [i]. *)
Definition array_get_num (a : list value) (i : number) : value :=
  match i with
  | Fin q => array_get a q
  | _ => VUndefined
  end.

(** [s.charAt(i)] for a number [i]: [NaN] counts as position [0]. *)
Definition charAt_num (s : string) (i : number) : string :=
  match i with
  | Fin q => charAt s q
  | NaN => charAt s 0
  | _ => EmptyString
  end.

(** The number of iterations of [for (let i = 0; i < length; i++)], or
    [None] when the loop does not end. *)
Definition for_count_64 (length : number) : option nat :=
  match length with
  | Fin q => if Qle_bool q (inject_Z (2 ^ 53))
             then Some (Z.to_nat (Qceiling q)) else None
  | PosInfinity => None
  | NegInfinity | NaN => Some 0%nat
  end.

(** [result[key] = v] on a plain object. *)
Definition obj_set_64 (key : string) (v : value) (o : list (string * value))
  : list (string * value) :=
  if String.eqb key "__proto__" then o else obj_set key v o.

(** [properties.hasOwnProperty(key)] for a key that [for ... in] visits. *)
Definition hasOwnProperty_call (properties : list (string * schema))
    (key : string) : M bool :=
  if existsb (String.eqb "hasOwnProperty") (map fst properties)
  then throw (TypeError "properties.hasOwnProperty is not a function")
  else ret (existsb (String.eqb key) (map fst properties)).

Section Generators64.

Variable rs : nat -> Q.
Variable JSON_stringify : value -> option string.

Definition getRandomInteger_64 (min max : number) : M number :=
  r <- Math_random rs ;;
  ret (js_add (Math_floor_num
                 (js_mul (num_of_Q r) (js_add (js_sub max min) (num_of_Z 1))))
              min).

Fixpoint getRandomString_loop_64 (n : nat) (result : string) : M string :=
  match n with
  | O => ret result
  | S n' =>
      r <- Math_random rs ;;
      getRandomString_loop_64 n'
        (result ++ charAt_num chars
                     (Math_floor_num
                        (js_mul (num_of_Q r) (num_of_nat (String.length chars)))))
  end.

Definition getRandomString_64 (length : number) : M string :=
  match for_count_64 length with
  | Some n => getRandomString_loop_64 n EmptyString
  | None => fun _ => Diverge
  end.

(** The [while (result.length < length)] loop, [length] being a number. *)
Fixpoint generateArray_loop_64 (item : M value) (uniqueItems : bool)
    (length : number) (fuel : nat) (result : list value) : M (list value) :=
  fun k =>
    if js_lt_num (num_of_nat (List.length result)) length then
      match fuel with
      | O => Diverge
      | S fuel' =>
          match item k with
          | Ret it k' =>
              if uniqueItems then
                if isUnique JSON_stringify result it
                then generateArray_loop_64 item uniqueItems length fuel'
                       (result ++ [it]) k'
                else generateArray_loop_64 item uniqueItems length fuel' result k'
              else generateArray_loop_64 item uniqueItems length fuel'
                     (result ++ [it]) k'
          | Throw e => Throw e
          | Diverge => Diverge
          end
      end
    else Ret result k.

Section Recursion64.

Variable generateData : schema -> M value.

Definition generateArray_64 (fuel : nat) (s : schema) : M value :=
  let minItems := num_of_Q (or_default (s_minItems s) 0) in
  let maxItems := match s_maxItems s with
                  | Some m => num_of_Q m
                  | None => js_add minItems (num_of_Z 10)
                  end in
  if strict_eq_num minItems (num_of_Z 0) && strict_eq_num maxItems (num_of_Z 0)
  then ret (VArr [])
  else
    let uniqueItems := or_default (s_uniqueItems s) false in
    length <- getRandomInteger_64 minItems maxItems ;;
    let itemsSchema := s_items s in
    result <- generateArray_loop_64 (generateData_of generateData itemsSchema)
                uniqueItems length fuel [] ;;
    ret (VArr result).

(** The [for (const key in properties)] loop: [declared] is the object
    [properties], [properties] the part of it still to visit. *)
Fixpoint generateObject_loop_64 (required : list string)
    (declared properties : list (string * schema))
    (result : list (string * value)) : M (list (string * value)) :=
  match properties with
  | [] => ret result
  | (key, sub) :: rest =>
      own <- hasOwnProperty_call declared key ;;
      if (own : bool) then
        let isRequired := includes required key in
        include <- (if isRequired then ret true
                    else r <- Math_random rs ;; ret (Qltb r literal_0_7)) ;;
        if (include : bool) then
          v <- generateData sub ;;
          generateObject_loop_64 required declared rest (obj_set_64 key v result)
        else generateObject_loop_64 required declared rest result
      else generateObject_loop_64 required declared rest result
  end.

Definition generateObject_64 (s : schema) : M value :=
  let required := or_default (s_required s) [] in
  result <- match s_properties s with
            | Some properties =>
                generateObject_loop_64 required properties properties []
            | None => generateObject_loop_64 required [] [] []
            end ;;
  ret (VObj result).

End Recursion64.

Fixpoint generateData_64 (fuel : nat) (s : schema) {struct s} : M value :=
  match s_enum s with
  | Some enumValues =>
      i <- getRandomInteger_64 (num_of_Z 0)
             (js_sub (num_of_nat (List.length enumValues)) (num_of_Z 1)) ;;
      ret (array_get_num enumValues i)
  | None =>
      let type := or_default (s_type s) EmptyString in
      if String.eqb type "integer" then
        let intMin := or_default (s_minimum s) MIN_SAFE_INTEGER in
        let intMax := or_default (s_maximum s) MAX_SAFE_INTEGER in
        n <- getRandomInteger_64 (num_of_Q intMin) (num_of_Q intMax) ;;
        ret (VNum n)
      else if String.eqb type "number" then
        let numMin := or_default (s_minimum s) (- (10000000000 # 1)) in
        let numMax := or_default (s_maximum s) (10000000000 # 1) in
        n <- getRandomNumber rs numMin numMax ;;
        ret (VNum n)
      else if String.eqb type "string" then
        let minLength := num_of_Q (or_default (s_minLength s) 0) in
        let maxLength := match s_maxLength s with
                         | Some m => num_of_Q m
                         | None => js_add minLength (num_of_Z 20)
                         end in
        length <- getRandomInteger_64 minLength maxLength ;;
        str <- getRandomString_64 length ;;
        ret (VStr str)
      else if String.eqb type "boolean" then
        b <- getRandomBoolean rs ;;
        ret (VBool b)
      else if String.eqb type "array" then
        generateArray_64 (generateData_64 fuel) fuel s
      else if String.eqb type "object" then
        generateObject_64 (generateData_64 fuel) s
      else ret VNull
  end.

Definition generateRandomData_64 (fuel : nat) (s : schema) : M value :=
  generateData_64 fuel s.

End Generators64.

(** Draws as [Math.random()] returns them: binary64 values in [[0, 1)]. *)
Definition double_draw (r : Q) : Prop := is_double r /\ valid_draw r.
Definition double_draws (rs : nat -> Q) : Prop := forall n, double_draw (rs n).


(** The node declares no property named [hasOwnProperty]. *)
Definition hasOwnProperty_free (s : schema) : Prop :=
  ~ In "hasOwnProperty"%string (map fst (or_default (s_properties s) [])).


(** [o] without its entries under [__proto__]. *)
Definition strip_proto (o : list (string * value)) : list (string * value) :=
  filter (fun p => negb (String.eqb (fst p) "__proto__")) o.

(** Equality of values as data: arrays by position, objects as
    mappings, whatever the order of their keys. *)
Fixpoint same_value (x y : value) {struct x} : bool :=
  match x, y with
  | VUndefined, VUndefined | VNull, VNull => true
  | VBool a, VBool b => Bool.eqb a b
  | VNum a, VNum b => number_eqb a b
  | VStr a, VStr b => String.eqb a b
  | VArr xs, VArr ys =>
      (fix all2 (l : list value) (m : list value) : bool :=
         match l, m with
         | [], [] => true
         | a :: l', b :: m' => same_value a b && all2 l' m'
         | _, _ => false
         end) xs ys
  | VObj xs, VObj ys =>
      Nat.eqb (List.length xs) (List.length ys) &&
      (fix each (l : list (string * value)) : bool :=
         match l with
         | [] => true
         | p :: l' =>
             match obj_get (fst p) ys with
             | Some w => same_value (snd p) w
             | None => false
             end && each l'
         end) xs
  | _, _ => false
  end.

(** ** Sample inputs for Part IV *)


(** Two unique items out of two objects that differ in the order of
    their keys only. *)
Definition sameMappingsSchema : schema :=
  array_schema 2 2 true
    (enum_schema "object"
       [VObj [("a", VNum (num_of_Z 1)); ("b", VNum (num_of_Z 2))];
        VObj [("b", VNum (num_of_Z 2)); ("a", VNum (num_of_Z 1))]]%string).

(** An object node that declares, and requires, a property named
    [__proto__]. *)
Definition protoSchema : schema :=
  object_schema [("__proto__", typed "boolean")]%string ["__proto__"]%string.

(** An object node that declares a property named [hasOwnProperty]. *)
Definition shadowingSchema : schema :=
  object_schema [("hasOwnProperty", typed "boolean")]%string [].

(** Draws that alternate between [0.25] and [0.75]. *)
Definition alternating_draws (n : nat) : Q :=
  if Nat.even n then 1 # 4 else 3 # 4.

(** Draws with seven binary digits. *)
Definition dyadic_draws (n : nat) : Q :=
  inject_Z (Z.of_nat ((n * 37 + 11) mod 128)) / 128.
(** * Part I: properties of the generators *)

(** ** Exact arithmetic of [getRandomInteger] *)

Lemma Qltb_lt (x y : Q) : Qltb x y = true <-> x < y.
Proof.
  unfold Qltb. rewrite negb_true_iff. split.
  - intros H. apply Qnot_le_lt. intros Hle.
    apply Qle_bool_iff in Hle. congruence.
  - intros H. destruct (Qle_bool y x) eqn:E; [|reflexivity].
    apply Qle_bool_iff in E. exfalso. apply (Qlt_not_le _ _ H E).
Qed.

Lemma Qltb_ge (x y : Q) : Qltb x y = false <-> y <= x.
Proof.
  unfold Qltb. rewrite negb_false_iff. apply Qle_bool_iff.
Qed.

Lemma num_of_Q_ext (x y : Q) : x == y -> num_of_Q x = num_of_Q y.
Proof.
  intros H. unfold num_of_Q. f_equal. apply Qc_is_canon. simpl.
  now rewrite !Qred_correct.
Qed.

Lemma Qfloor_add_Z (x : Q) (z : Z) : Qfloor (x + inject_Z z) = (Qfloor x + z)%Z.
Proof.
  assert (Hlo := Qfloor_le x). assert (Hhi := Qlt_floor x).
  assert (Hlo' := Qfloor_le (x + inject_Z z)).
  assert (Hhi' := Qlt_floor (x + inject_Z z)).
  rewrite inject_Z_plus in Hhi, Hhi'.
  assert (H1 : inject_Z (Qfloor (x + inject_Z z)) < inject_Z (Qfloor x + z + 1)).
  { rewrite !inject_Z_plus. lra. }
  assert (H2 : inject_Z (Qfloor x + z) < inject_Z (Qfloor (x + inject_Z z) + 1)).
  { rewrite !inject_Z_plus. lra. }
  rewrite <- Zlt_Qlt in H1, H2. lia.
Qed.

(** The integer that [Math.floor(r * n)] picks among [0 .. n-1]. *)
Lemma floor_scale_range (r : Q) (n : Z) :
  valid_draw r -> (0 < n)%Z -> (0 <= Qfloor (r * inject_Z n) < n)%Z.
Proof.
  intros [Hr0 Hr1] Hn.
  assert (Hn' : 0 < inject_Z n) by (now rewrite (Zlt_Qlt 0 n) in Hn).
  assert (Hlo := Qfloor_le (r * inject_Z n)).
  assert (Hhi := Qlt_floor (r * inject_Z n)).
  split.
  - enough (H : inject_Z 0 < inject_Z (Qfloor (r * inject_Z n) + 1))
      by (rewrite <- Zlt_Qlt in H; lia).
    apply Qle_lt_trans with (r * inject_Z n); [|assumption].
    apply Qmult_le_0_compat; [assumption|apply Qlt_le_weak; assumption].
  - rewrite Zlt_Qlt.
    apply Qle_lt_trans with (r * inject_Z n); [assumption|].
    rewrite <- (Qmult_1_l (inject_Z n)) at 2.
    apply Qmult_lt_r; assumption.
Qed.

(** The preimage of each value of [Math.floor(r * n)] is an interval of
    length [1 / n]. *)
Lemma floor_scale_uniform (r : Q) (n j : Z) :
  (0 < n)%Z ->
  Qfloor (r * inject_Z n) = j <->
  inject_Z j / inject_Z n <= r /\ r < inject_Z (j + 1) / inject_Z n.
Proof.
  intros Hn.
  assert (Hn' : 0 < inject_Z n) by (now rewrite (Zlt_Qlt 0 n) in Hn).
  assert (Hlo := Qfloor_le (r * inject_Z n)).
  assert (Hhi := Qlt_floor (r * inject_Z n)).
  split.
  - intros <-. split.
    + apply Qle_shift_div_r; assumption.
    + apply Qlt_shift_div_l; assumption.
  - intros [H1 H2].
    assert (H1' : inject_Z j <= r * inject_Z n).
    { apply (Qmult_le_r _ _ (inject_Z n)) in H1; [|assumption].
      field_simplify in H1; [|lra]. lra. }
    assert (H2' : r * inject_Z n < inject_Z (j + 1)).
    { apply (Qmult_lt_r _ _ (inject_Z n)) in H2; [|assumption].
      field_simplify in H2; [|lra]. lra. }
    assert (A : inject_Z (Qfloor (r * inject_Z n)) < inject_Z (j + 1)) by lra.
    assert (B : inject_Z j < inject_Z (Qfloor (r * inject_Z n) + 1)) by lra.
    rewrite <- Zlt_Qlt in A, B. lia.
Qed.

(** [getRandomInteger] on integer bounds: one draw, and an integer between
    the bounds. *)
Lemma getRandomInteger_spec rs (lo hi : Q) (a b : Z) (k : nat) :
  valid_draw (rs k) -> lo == inject_Z a -> hi == inject_Z b -> (a <= b)%Z ->
  exists n : Q,
    getRandomInteger rs lo hi k = Ret n (S k) /\
    n == inject_Z (Qfloor (rs k * inject_Z (b - a + 1)) + a) /\
    (a <= Qfloor (rs k * inject_Z (b - a + 1)) + a <= b)%Z.
Proof.
  intros Hr Hlo Hhi Hab.
  exists (Math_floor (rs k * (hi - lo + 1)) + lo). split; [reflexivity|].
  assert (E : rs k * (hi - lo + 1) == rs k * inject_Z (b - a + 1)).
  { rewrite Hlo, Hhi. unfold Z.sub. rewrite !inject_Z_plus, inject_Z_opp.
    simpl (inject_Z 1). ring. }
  split.
  - unfold Math_floor. rewrite E, Hlo.
    rewrite (inject_Z_plus (Qfloor (rs k * inject_Z (b - a + 1))) a).
    reflexivity.
  - pose proof (floor_scale_range (rs k) (b - a + 1) Hr ltac:(lia)). lia.
Qed.

Lemma Q_of_nat_pos (n : nat) : (0 < n)%nat -> (0 < Z.of_nat n)%Z.
Proof. lia. Qed.

Lemma array_get_index (a : list value) (i : Q) (z : Z) :
  i == inject_Z z -> (0 <= z)%Z -> array_get a i = nth (Z.to_nat z) a VUndefined.
Proof.
  intros Hi Hz. unfold array_get, Math_floor.
  assert (Hf : Qfloor i = z) by (rewrite Hi; apply Qfloor_Z).
  rewrite Hf.
  replace (Qeq_bool i (inject_Z z)) with true
    by (symmetry; apply Qeq_bool_iff; exact Hi).
  replace (Qle_bool 0 i) with true; [reflexivity|].
  symmetry. apply Qle_bool_iff. rewrite Hi.
  now rewrite (Zle_Qle 0 z) in Hz.
Qed.

(** ** Enumerations *)

Lemma generateData_enum
    (rs : nat -> Q) (JSON_stringify : value -> option string)
    (fuel : nat) (s : schema) (enumValues : list value) (k : nat) :
  valid_draw (rs k) ->
  s_enum s = Some enumValues ->
  enumValues <> [] ->
  let len := List.length enumValues in
  let i := Z.to_nat (Qfloor (rs k * Q_of_nat len)) in
  (i < len)%nat /\
  generateData rs JSON_stringify fuel s k = Ret (nth i enumValues VUndefined) (S k).
Proof.
  intros Hr He Hne len i.
  assert (Hlen : (0 < Z.of_nat len)%Z).
  { subst len. destruct enumValues; [congruence|simpl; lia]. }
  pose proof (floor_scale_range (rs k) (Z.of_nat len) Hr Hlen) as Hrange.
  assert (Hi : (i < len)%nat) by (subst i; unfold Q_of_nat; lia).
  split; [exact Hi|].
  destruct s; simpl in He; subst s_enum0. cbn [generateData s_enum].
  fold len.
  destruct (getRandomInteger_spec rs 0 (Q_of_nat len - 1) 0 (Z.of_nat len - 1) k)
    as (n & Hn & Hv & _); try assumption; try lia.
  - reflexivity.
  - unfold Q_of_nat, Z.sub. rewrite inject_Z_plus. reflexivity.
  - unfold bind. rewrite Hn. unfold ret. f_equal.
    replace (Z.of_nat len - 1 - 0 + 1)%Z with (Z.of_nat len) in Hv by lia.
    rewrite Z.add_0_r in Hv.
    rewrite (array_get_index _ _ _ Hv); [reflexivity|lia].
Qed.

(** C10.  A node whose [enum] is present and empty still takes the enum
    branch, whatever its [type]: one draw is consumed, the index computed
    is [0], and the result is [undefined]; nothing is thrown. *)
Theorem empty_enum_yields_undefined
    (rs : nat -> Q) (JSON_stringify : value -> option string)
    (fuel : nat) (s : schema) (k : nat) :
  s_enum s = Some [] ->
  (exists i, getRandomInteger rs 0 (Q_of_nat (List.length (@nil value)) - 1) k
             = Ret i (S k) /\ i == 0) /\
  array_get [] 0 = VUndefined /\
  generateData rs JSON_stringify fuel s k = Ret VUndefined (S k).
Proof.
  intros He. split; [|split].
  - eexists. split; [reflexivity|]. unfold Math_floor.
    assert (E : rs k * (Q_of_nat (List.length (@nil value)) - 1 - 0 + 1) == inject_Z 0).
    { unfold Q_of_nat. simpl. ring. }
    rewrite E, Qfloor_Z. reflexivity.
  - reflexivity.
  - destruct s; simpl in He; subst s_enum0. cbn [generateData s_enum].
    unfold bind, getRandomInteger, bind, Math_random, ret. f_equal.
    unfold array_get.
    destruct (_ && _); [|reflexivity].
    now destruct (Z.to_nat _).
Qed.

(** ** Unknown types *)

(** C7.  A node without [enum] whose [type] is missing or is none of the
    six known names yields [null]: the run completes, consumes no draw and
    throws nothing. *)
Theorem unknown_type_yields_null
    (rs : nat -> Q) (JSON_stringify : value -> option string)
    (fuel : nat) (s : schema) (k : nat) :
  s_enum s = None ->
  (s_type s = None \/ exists t, s_type s = Some t /\ ~ known_type t) ->
  generateData rs JSON_stringify fuel s k = Ret VNull k.
Proof.
  intros He Ht. destruct s; simpl in He, Ht; subst s_enum0.
  cbn [generateData s_enum s_type].
  destruct Ht as [-> | (t & -> & Hk)]; [reflexivity|].
  cbn [or_default]. unfold known_type in Hk. simpl in Hk.
  repeat match goal with
  | |- context [String.eqb t ?c] =>
      destruct (String.eqb_spec t c) as [->|_]; [exfalso; apply Hk; tauto|]
  end.
  reflexivity.
Qed.

(** ** Arrays *)

(** C5.  With [minItems = 0] and [maxItems = 0] (after the defaults)
    [generateArray] answers the empty array at once: no draw is consumed,
    and the answer is the same for every item generator (one that throws
    included), every [items] and every amount of fuel (none included). *)
Theorem empty_array_short_circuit
    (rs : nat -> Q) (JSON_stringify : value -> option string)
    (generateData' : schema -> M value) (fuel : nat) (s : schema) (k : nat) :
  or_default (s_minItems s) 0 == 0 ->
  or_default (s_maxItems s) (or_default (s_minItems s) 0 + 10) == 0 ->
  generateArray rs JSON_stringify generateData' fuel s k = Ret (VArr []) k /\
  (s_enum s = None -> s_type s = Some "array"%string ->
   generateData rs JSON_stringify fuel s k = Ret (VArr []) k).
Proof.
  intros Hmin Hmax.
  assert (G : forall g, generateArray rs JSON_stringify g fuel s k = Ret (VArr []) k).
  { intros g. unfold generateArray.
    apply Qeq_bool_iff in Hmin, Hmax. rewrite Hmin, Hmax. reflexivity. }
  split; [apply G|].
  intros He Ht. specialize (G (generateData rs JSON_stringify fuel)).
  destruct s; simpl in He, Ht; subst s_enum0 s_type0.
  cbn [generateData s_enum s_type or_default].
  cbn [String.eqb Ascii.eqb Bool.eqb andb]. exact G.
Qed.

Section ArrayLoop.

Variable JSON_stringify : value -> option string.
Variable item : M value.

Lemma json_eqb_eq (x y : option string) : json_eqb x y = true <-> x = y.
Proof.
  destruct x as [a|], y as [b|]; simpl; try (split; congruence).
  rewrite String.eqb_eq. split; congruence.
Qed.

(** The test of the loop accepts an item exactly when its JSON text is
    new. *)
Lemma isUnique_spec (result : list value) (it : value) :
  isUnique JSON_stringify result it = true <->
  ~ In (JSON_stringify it) (map JSON_stringify result).
Proof.
  unfold isUnique. rewrite negb_true_iff, <- not_true_iff_false.
  rewrite existsb_exists, in_map_iff.
  split; intros H (x & A & B); apply H; exists x.
  - split; [exact B|]. apply json_eqb_eq. exact A.
  - split; [|exact A]. apply json_eqb_eq in B. exact B.
Qed.

Lemma Q_of_nat_lt (n : nat) (z : Z) (len : Q) :
  len == inject_Z z ->
  Qltb (Q_of_nat n) len = true <-> (Z.of_nat n < z)%Z.
Proof.
  intros H. rewrite Qltb_lt, H. unfold Q_of_nat. rewrite <- Zlt_Qlt. reflexivity.
Qed.

(** Invariant of the loop: the result never grows past the drawn length,
    and under [uniqueItems] the JSON texts of its elements stay pairwise
    different.  On exit the length is the drawn one. *)
Lemma generateArray_loop_inv (uniqueItems : bool) (length : Q) (z : Z) :
  length == inject_Z z ->
  forall (fuel : nat) (result : list value) (k : nat) (out : list value) (k' : nat),
    (Z.of_nat (List.length result) <= z)%Z ->
    (uniqueItems = true -> NoDup (map JSON_stringify result)) ->
    generateArray_loop JSON_stringify item uniqueItems length fuel result k
      = Ret out k' ->
    Z.of_nat (List.length out) = z /\
    (uniqueItems = true -> NoDup (map JSON_stringify out)).
Proof.
  intros Hlen fuel. induction fuel as [|fuel IH]; intros result k out k' Hle Hnd Hrun.
  - simpl in Hrun.
    destruct (Qltb (Q_of_nat (List.length result)) length) eqn:Hc; [discriminate|].
    injection Hrun as <- <-. split; [|exact Hnd].
    apply not_true_iff_false in Hc. rewrite (Q_of_nat_lt _ z _ Hlen) in Hc. lia.
  - simpl in Hrun.
    destruct (Qltb (Q_of_nat (List.length result)) length) eqn:Hc.
    + rewrite (Q_of_nat_lt _ z _ Hlen) in Hc.
      destruct (item k) as [it k1| |]; try discriminate.
      assert (Hpush : (Z.of_nat (List.length (result ++ [it])) <= z)%Z).
      { rewrite length_app. simpl. lia. }
      destruct uniqueItems.
      * destruct (isUnique JSON_stringify result it) eqn:Hu.
        -- apply (IH (result ++ [it]) k1 out k' Hpush); [|exact Hrun].
           intros _. rewrite map_app. simpl.
           apply isUnique_spec in Hu.
           apply NoDup_app; [apply Hnd; reflexivity|repeat constructor; intros []|].
           intros x Hx [<-|[]]. apply Hu, Hx.
        -- apply (IH result k1 out k' Hle Hnd Hrun).
      * apply (IH (result ++ [it]) k1 out k' Hpush); [intros; discriminate|exact Hrun].
    + injection Hrun as <- <-. split; [|exact Hnd].
      apply not_true_iff_false in Hc. rewrite (Q_of_nat_lt _ z _ Hlen) in Hc. lia.
Qed.

(** Without [uniqueItems] every iteration appends, so the loop leaves
    after as many iterations as elements are missing. *)
Lemma generateArray_loop_returns (length : Q) (z : Z) :
  length == inject_Z z ->
  (forall k, exists v k', item k = Ret v k') ->
  forall (fuel : nat) (result : list value) (k : nat),
    (z - Z.of_nat (List.length result) <= Z.of_nat fuel)%Z ->
    exists out k',
      generateArray_loop JSON_stringify item false length fuel result k = Ret out k'.
Proof.
  intros Hlen Htot fuel. induction fuel as [|fuel IH]; intros result k Hfuel.
  - simpl. destruct (Qltb (Q_of_nat (List.length result)) length) eqn:Hc.
    + rewrite (Q_of_nat_lt _ z _ Hlen) in Hc. lia.
    + eauto.
  - simpl. destruct (Qltb (Q_of_nat (List.length result)) length) eqn:Hc; [|eauto].
    destruct (Htot k) as (v & k1 & ->).
    apply IH. rewrite length_app. simpl. lia.
Qed.

(** When every item the generator returns has its JSON text in a list
    [texts] shorter than the drawn length, the loop can never have
    accepted enough items, so it is still running whatever the fuel. *)
Lemma generateArray_loop_exhausted (length : Q) (z : Z) (texts : list (option string)) :
  length == inject_Z z ->
  (Z.of_nat (List.length texts) < z)%Z ->
  (forall k, exists v k', item k = Ret v k' /\ In (JSON_stringify v) texts) ->
  forall (fuel : nat) (result : list value) (k : nat),
    NoDup (map JSON_stringify result) ->
    incl (map JSON_stringify result) texts ->
    generateArray_loop JSON_stringify item true length fuel result k = Diverge.
Proof.
  intros Hlen Hfew Hall fuel.
  induction fuel as [|fuel IH]; intros result k Hnd Hincl;
    pose proof (NoDup_incl_length Hnd Hincl) as Hshort;
    rewrite length_map in Hshort;
    assert (Hc : Qltb (Q_of_nat (List.length result)) length = true)
      by (apply (Q_of_nat_lt _ z _ Hlen); lia);
    simpl; rewrite Hc; [reflexivity|].
  destruct (Hall k) as (v & k1 & -> & Hin).
  destruct (isUnique JSON_stringify result v) eqn:Hu.
  - apply IH.
    + rewrite map_app. simpl. apply isUnique_spec in Hu.
      apply NoDup_app; [exact Hnd|repeat constructor; intros []|].
      intros x Hx [<-|[]]. apply Hu, Hx.
    + rewrite map_app. simpl. apply incl_app; [exact Hincl|].
      intros x [<-|[]]. exact Hin.
  - apply IH; assumption.
Qed.

End ArrayLoop.

(** How [generateData] runs on an array node: the dispatch reaches
    [generateArray]. *)
Lemma generateData_array rs JSON_stringify fuel s k :
  s_enum s = None -> s_type s = Some "array"%string ->
  generateData rs JSON_stringify fuel s k =
  generateArray rs JSON_stringify (generateData rs JSON_stringify fuel) fuel s k.
Proof.
  intros He Ht. destruct s; simpl in He, Ht; subst s_enum0 s_type0. reflexivity.
Qed.

(** C8.  An array node that asks for [n] unique items drawn from an
    [enum] of fewer than [n] elements (two out of an [enum] of one, for
    example) never completes: the [while] loop has no bound on its
    iterations, so generation is still in the loop whatever the fuel.
    With an [enum] of one element each iteration after the first draws,
    rejects and goes round again: [m] iterations leave the result as it
    was and consume [m] draws, for every [m]. *)
Theorem unique_items_loop_has_no_cap
    (rs : nat -> Q) (JSON_stringify : value -> option string)
    (s it : schema) (enumValues : list value) (n : nat) (k : nat) :
  valid_draws rs ->
  s_enum s = None ->
  s_type s = Some "array"%string ->
  s_minItems s = Some (Q_of_nat n) ->
  s_maxItems s = Some (Q_of_nat n) ->
  s_uniqueItems s = Some true ->
  s_items s = Some it ->
  s_enum it = Some enumValues ->
  enumValues <> [] ->
  (List.length enumValues < n)%nat ->
  (forall fuel, generateData rs JSON_stringify fuel s k = Diverge) /\
  (forall v, enumValues = [v] ->
   forall fuel m j,
     generateArray_loop JSON_stringify (generateData rs JSON_stringify fuel it)
       true (Q_of_nat n) (m + fuel)%nat [v] j =
     generateArray_loop JSON_stringify (generateData rs JSON_stringify fuel it)
       true (Q_of_nat n) fuel [v] (m + j)%nat).
Proof.
  intros Hrs He Ht Hmin Hmax Hu Hit Hev Hne Hn.
  assert (Hitem : forall fuel j, exists v k',
            generateData rs JSON_stringify fuel it j = Ret v k' /\
            In (JSON_stringify v) (map JSON_stringify enumValues)).
  { intros fuel j.
    destruct (generateData_enum rs JSON_stringify fuel it enumValues j (Hrs j) Hev Hne)
      as [Hi Hrun].
    eexists. eexists. split; [exact Hrun|]. apply in_map, nth_In, Hi. }
  split.
  - intros fuel. rewrite (generateData_array _ _ _ _ _ He Ht). unfold generateArray.
    rewrite Hmin, Hmax, Hu, Hit. cbn [or_default generateData_of].
    replace (Qeq_bool (Q_of_nat n) 0) with false.
    2:{ symmetry. apply not_true_iff_false. rewrite Qeq_bool_iff.
        unfold Q_of_nat. change 0 with (inject_Z 0).
        rewrite inject_Z_injective. lia. }
    cbn [andb].
    destruct (getRandomInteger_spec rs (Q_of_nat n) (Q_of_nat n)
                (Z.of_nat n) (Z.of_nat n) k (Hrs k)) as (len & Hlen & Hv & Hbd);
      try reflexivity; try lia.
    unfold bind at 1. rewrite Hlen. unfold bind.
    rewrite (generateArray_loop_exhausted JSON_stringify
               (generateData rs JSON_stringify fuel it) len _
               (map JSON_stringify enumValues) Hv).
    + reflexivity.
    + rewrite length_map. lia.
    + apply Hitem.
    + constructor.
    + intros x [].
  - intros v -> fuel m. induction m as [|m IH]; intros j; [reflexivity|].
    assert (Hc : Qltb (Q_of_nat (List.length [v])) (Q_of_nat n) = true).
    { apply Qltb_lt. unfold Q_of_nat. rewrite <- Zlt_Qlt. simpl in *. lia. }
    destruct (Hitem fuel j) as (v' & k' & Hrun & Hin).
    destruct (generateData_enum rs JSON_stringify fuel it [v] j (Hrs j) Hev Hne)
      as [Hi Hrun'].
    assert (Ev : generateData rs JSON_stringify fuel it j = Ret v (S j)).
    { rewrite Hrun'. f_equal. simpl in Hi.
      destruct (Z.to_nat _) as [|[|?]]; [reflexivity|lia|lia]. }
    cbn [Nat.add generateArray_loop]. rewrite Hc, Ev.
    replace (isUnique JSON_stringify [v] v) with false.
    2:{ symmetry. apply not_true_iff_false. rewrite isUnique_spec. simpl. tauto. }
    rewrite IH. f_equal. lia.
Qed.

(** ** The draw counter only advances *)

Lemma advances_ret {A} (a : A) : advances (ret a).
Proof. intros k a' k' H. injection H as _ <-. lia. Qed.

Lemma advances_throw {A} (e : error) : advances (@throw A e).
Proof. intros k a' k' H. discriminate. Qed.

Lemma advances_bind {A B} (c : M A) (f : A -> M B) :
  advances c -> (forall a, advances (f a)) -> advances (bind c f).
Proof.
  intros Hc Hf k b k' H. unfold bind in H.
  destruct (c k) as [a k1| |] eqn:E; try discriminate.
  apply Hc in E. apply Hf in H. lia.
Qed.

Lemma advances_Math_random rs : advances (Math_random rs).
Proof. intros k a k' H. injection H as _ <-. lia. Qed.

Lemma advances_getRandomInteger rs lo hi : advances (getRandomInteger rs lo hi).
Proof.
  apply advances_bind; [apply advances_Math_random|intros; apply advances_ret].
Qed.

Lemma advances_getRandomString_loop rs n :
  forall result, advances (getRandomString_loop rs n result).
Proof.
  induction n as [|n IH]; intros result; simpl.
  - apply advances_ret.
  - apply advances_bind; [apply advances_Math_random|intros; apply IH].
Qed.

Lemma advances_generateArray_loop JSON_stringify item u len :
  advances item ->
  forall fuel result,
    advances (generateArray_loop JSON_stringify item u len fuel result).
Proof.
  intros Hitem fuel. induction fuel as [|fuel IH]; intros result k out k' H; simpl in H.
  - destruct (Qltb _ _); [discriminate|]. injection H as _ <-. lia.
  - destruct (Qltb _ _); [|injection H as _ <-; lia].
    destruct (item k) as [it k1| |] eqn:E; try discriminate.
    apply Hitem in E.
    destruct u; [destruct (isUnique _ _ _)|]; apply IH in H; lia.
Qed.

Lemma advances_generateObject_loop rs (gd : schema -> M value) required :
  forall properties,
    Forall (fun p => advances (gd (snd p))) properties ->
    forall result, advances (generateObject_loop rs gd required properties result).
Proof.
  induction properties as [|[key sub] rest IH]; intros Hall result; simpl.
  - apply advances_ret.
  - inversion Hall as [|? ? Hsub Hrest]; subst. simpl in Hsub.
    apply advances_bind.
    + destruct (includes required key); [apply advances_ret|].
      apply advances_bind; [apply advances_Math_random|intros; apply advances_ret].
    + intros [|]; [|apply IH, Hrest].
      apply advances_bind; [exact Hsub|]. intros v. apply IH, Hrest.
Qed.

Lemma advances_generateData rs JSON_stringify fuel :
  forall s, advances (generateData rs JSON_stringify fuel s).
Proof.
  intros s. induction s as [s Hitems Hprops] using schema_nodes_ind.
  destruct s as [e t mn mx mnl mxl mni mxi u items props req].
  cbn [s_items s_properties] in Hitems, Hprops.
  cbn [generateData s_enum s_type].
  destruct e as [enumValues|].
  { apply advances_bind; [apply advances_getRandomInteger|intros; apply advances_ret]. }
  repeat match goal with
  | |- advances (if ?c then _ else _) => destruct c
  end.
  - apply advances_bind; [apply advances_getRandomInteger|intros; apply advances_ret].
  - apply advances_bind; [|intros; apply advances_ret].
    apply advances_bind; [apply advances_Math_random|intros; apply advances_ret].
  - apply advances_bind; [apply advances_getRandomInteger|intros].
    apply advances_bind; [apply advances_getRandomString_loop|intros; apply advances_ret].
  - apply advances_bind; [|intros; apply advances_ret].
    apply advances_bind; [apply advances_Math_random|intros; apply advances_ret].
  - unfold generateArray. cbn [s_minItems s_maxItems s_uniqueItems s_items].
    destruct (_ && _); [apply advances_ret|].
    apply advances_bind; [apply advances_getRandomInteger|intros len].
    apply advances_bind; [|intros; apply advances_ret].
    apply advances_generateArray_loop.
    destruct items as [it|]; [exact Hitems|apply advances_throw].
  - unfold generateObject. cbn [s_properties s_required].
    apply advances_bind; [|intros; apply advances_ret].
    destruct props as [ps|]; apply advances_generateObject_loop;
      [exact Hprops|constructor].
  - apply advances_ret.
Qed.

(** ** Objects *)

Lemma obj_set_keys key v o x :
  In x (map fst (obj_set key v o)) <-> x = key \/ In x (map fst o).
Proof.
  induction o as [|[k' v'] rest IH]; simpl.
  - intuition congruence.
  - destruct (String.eqb_spec key k') as [->|Hne]; simpl.
    + intuition congruence.
    + rewrite IH. intuition congruence.
Qed.

Lemma obj_get_set_eq key v o : obj_get key (obj_set key v o) = Some v.
Proof.
  induction o as [|[k' v'] rest IH]; simpl.
  - now rewrite String.eqb_refl.
  - destruct (String.eqb_spec key k') as [->|Hne]; simpl.
    + now rewrite String.eqb_refl.
    + destruct (String.eqb_spec key k'); [contradiction|exact IH].
Qed.

Lemma obj_get_set_ne key v o x :
  x <> key -> obj_get x (obj_set key v o) = obj_get x o.
Proof.
  intros Hx. induction o as [|[k' v'] rest IH]; simpl.
  - destruct (String.eqb_spec x key); [contradiction|reflexivity].
  - destruct (String.eqb_spec key k') as [->|Hne]; simpl.
    + destruct (String.eqb_spec x k'); [contradiction|reflexivity].
    + destruct (String.eqb_spec x k'); [reflexivity|exact IH].
Qed.

Lemma obj_get_keys o x :
  In x (map fst o) <-> exists v, obj_get x o = Some v.
Proof.
  induction o as [|[k' v'] rest IH]; simpl.
  - split; [intros []|intros [v H]; discriminate].
  - destruct (String.eqb_spec x k') as [->|Hne].
    + split; eauto.
    + rewrite <- IH. intuition congruence.
Qed.

Section ObjectLoop.

Variable rs : nat -> Q.
Variable gd : schema -> M value.
Variable required : list string.

(** Every value of the result was already there or was generated from
    the node declared under its key. *)
Lemma generateObject_loop_values :
  forall properties result k out k',
    generateObject_loop rs gd required properties result k = Ret out k' ->
    forall x v,
      obj_get x out = Some v ->
      obj_get x result = Some v \/
      exists sub k1 k2, In (x, sub) properties /\ gd sub k1 = Ret v k2.
Proof.
  induction properties as [|[key sub] rest IH]; intros result k out k' Hrun x v Hx.
  - injection Hrun as <- <-. now left.
  - simpl in Hrun. unfold bind at 1 in Hrun.
    assert (Hskip : forall k0,
              generateObject_loop rs gd required rest result k0 = Ret out k' ->
              obj_get x result = Some v \/
              exists sub0 k1 k2, In (x, sub0) ((key, sub) :: rest) /\
                                 gd sub0 k1 = Ret v k2).
    { intros k0 H. destruct (IH _ _ _ _ H x v Hx) as [?|(s0 & k1 & k2 & Hin & Hg)];
        [now left|right]. exists s0, k1, k2. split; [now right|exact Hg]. }
    assert (Htake : forall k0,
              (v0 <- gd sub ;;
               generateObject_loop rs gd required rest (obj_set key v0 result)) k0
                = Ret out k' ->
              obj_get x result = Some v \/
              exists sub0 k1 k2, In (x, sub0) ((key, sub) :: rest) /\
                                 gd sub0 k1 = Ret v k2).
    { intros k0 H. unfold bind in H.
      destruct (gd sub k0) as [v0 k1| |] eqn:Hg; try discriminate.
      destruct (IH _ _ _ _ H x v Hx) as [Hold|(s0 & k2 & k3 & Hin & Hg')].
      - destruct (String.eqb_spec x key) as [->|Hne].
        + rewrite obj_get_set_eq in Hold. injection Hold as ->.
          right. exists sub, k0, k1. split; [now left|exact Hg].
        + rewrite (obj_get_set_ne _ _ _ _ Hne) in Hold. now left.
      - right. exists s0, k2, k3. split; [now right|exact Hg']. }
    destruct (includes required key).
    + apply (Htake k). exact Hrun.
    + cbn [bind Math_random ret] in Hrun. unfold bind, Math_random, ret in Hrun.
      destruct (Qltb (rs k) literal_0_7); [apply (Htake (S k))|apply (Hskip (S k))];
        exact Hrun.
Qed.

(** Which keys the result holds: those it held before, the declared keys
    listed in [required], and the other declared keys whose own draw fell
    below [0.7].  [draw] names, for each of the latter, the position in
    the stream of the draw that decided it; different keys are decided by
    different draws. *)
Lemma generateObject_loop_keys :
  forall properties,
    NoDup (map fst properties) ->
    Forall (fun p => advances (gd (snd p))) properties ->
    forall result k out k',
      generateObject_loop rs gd required properties result k = Ret out k' ->
      (k <= k')%nat /\
      exists draw : string -> nat,
        (forall x, In x (map fst properties) -> includes required x = false ->
                   (k <= draw x < k')%nat) /\
        (forall x y, In x (map fst properties) -> In y (map fst properties) ->
                     includes required x = false -> includes required y = false ->
                     x <> y -> draw x <> draw y) /\
        (forall x, In x (map fst out) <->
                   In x (map fst result) \/
                   (In x (map fst properties) /\
                    (includes required x = true \/ rs (draw x) < literal_0_7))).
Proof.
  induction properties as [|[key sub] rest IH]; intros Hnd Hadv result k out k' Hrun.
  - injection Hrun as <- <-. split; [lia|]. exists (fun _ => O).
    split; [intros x []|]. split; [intros x y []|].
    intros x. simpl. tauto.
  - simpl in Hnd. inversion Hnd as [|? ? Hfresh Hnd']; subst.
    inversion Hadv as [|? ? Hsub Hadv']; subst. simpl in Hsub.
    simpl in Hrun. unfold bind at 1 in Hrun.
    destruct (includes required key) eqn:Hreq.
    + (* required: generated and set *)
      unfold ret, bind in Hrun.
      destruct (gd sub k) as [v0 k1| |] eqn:Hg; try discriminate.
      apply Hsub in Hg.
      destruct (IH Hnd' Hadv' _ _ _ _ Hrun) as (Hle & draw & Hrange & Hinj & Hkeys).
      split; [lia|]. exists draw. split; [|split].
      * intros x [<-|Hx] Hopt; [simpl in Hopt; congruence|].
        specialize (Hrange x Hx Hopt). lia.
      * intros x y [<-|Hx] [<-|Hy] Hox Hoy Hxy; simpl in *; try congruence.
        now apply Hinj.
      * intros x. rewrite Hkeys, obj_set_keys. simpl.
        split.
        -- intros [[->|Hres]|[Hx Hd]]; [right|now left|right]; tauto.
        -- intros [Hres|[[<-|Hx] Hd]]; [tauto|tauto|right; tauto].
    + (* optional: one draw decides *)
      unfold Math_random, ret, bind in Hrun.
      set (draw_of := fun (d : string -> nat) (x : string) =>
                        if String.eqb x key then k else d x).
      assert (Hdraw_key : forall d, draw_of d key = k).
      { intros d. unfold draw_of. now rewrite String.eqb_refl. }
      assert (Hdraw_rest : forall d x, In x (map fst rest) -> draw_of d x = d x).
      { intros d x Hx. unfold draw_of.
        destruct (String.eqb_spec x key) as [->|]; [contradiction|reflexivity]. }
      destruct (Qltb (rs k) literal_0_7) eqn:Hdec.
      * destruct (gd sub (S k)) as [v0 k1| |] eqn:Hg; try discriminate.
        apply Hsub in Hg.
        destruct (IH Hnd' Hadv' _ _ _ _ Hrun) as (Hle & draw & Hrange & Hinj & Hkeys).
        apply Qltb_lt in Hdec.
        split; [lia|]. exists (draw_of draw). split; [|split].
        -- intros x [<-|Hx] Hopt; [rewrite Hdraw_key; lia|].
           rewrite (Hdraw_rest _ _ Hx). specialize (Hrange x Hx Hopt). lia.
        -- intros x y [<-|Hx] [<-|Hy] Hox Hoy Hxy; try congruence.
           ++ rewrite Hdraw_key, (Hdraw_rest _ _ Hy).
              specialize (Hrange y Hy Hoy). lia.
           ++ rewrite Hdraw_key, (Hdraw_rest _ _ Hx).
              specialize (Hrange x Hx Hox). lia.
           ++ rewrite (Hdraw_rest _ _ Hx), (Hdraw_rest _ _ Hy). now apply Hinj.
        -- intros x. rewrite Hkeys, obj_set_keys. simpl. split.
           ++ intros [[->|Hres]|[Hx Hd]]; [right|now left|right].
              ** rewrite Hdraw_key. tauto.
              ** rewrite (Hdraw_rest _ _ Hx). tauto.
           ++ intros [Hres|[[<-|Hx] Hd]]; [tauto|tauto|right].
              rewrite (Hdraw_rest _ _ Hx) in Hd. tauto.
      * destruct (IH Hnd' Hadv' _ _ _ _ Hrun) as (Hle & draw & Hrange & Hinj & Hkeys).
        apply Qltb_ge in Hdec.
        split; [lia|]. exists (draw_of draw). split; [|split].
        -- intros x [<-|Hx] Hopt; [rewrite Hdraw_key; lia|].
           rewrite (Hdraw_rest _ _ Hx). specialize (Hrange x Hx Hopt). lia.
        -- intros x y [<-|Hx] [<-|Hy] Hox Hoy Hxy; try congruence.
           ++ rewrite Hdraw_key, (Hdraw_rest _ _ Hy).
              specialize (Hrange y Hy Hoy). lia.
           ++ rewrite Hdraw_key, (Hdraw_rest _ _ Hx).
              specialize (Hrange x Hx Hox). lia.
           ++ rewrite (Hdraw_rest _ _ Hx), (Hdraw_rest _ _ Hy). now apply Hinj.
        -- intros x. rewrite Hkeys. simpl. split.
           ++ intros [Hres|[Hx Hd]]; [now left|right].
              rewrite (Hdraw_rest _ _ Hx). tauto.
           ++ intros [Hres|[[<-|Hx] Hd]]; [tauto| |right].
              ** rewrite Hdraw_key in Hd. destruct Hd as [Hd|Hd]; [congruence|].
                 exfalso. apply (Qlt_not_le _ _ Hd Hdec).
              ** rewrite (Hdraw_rest _ _ Hx) in Hd. tauto.
Qed.

(** Keys only accumulate, and a declared key listed in [required] is
    always among them. *)
Lemma generateObject_loop_required :
  forall properties result k out k',
    generateObject_loop rs gd required properties result k = Ret out k' ->
    forall x,
      In x (map fst result) \/
      (In x (map fst properties) /\ includes required x = true) ->
      In x (map fst out).
Proof.
  induction properties as [|[key sub] rest IH]; intros result k out k' Hrun x Hx.
  - injection Hrun as <- <-. destruct Hx as [Hx|[[] _]]. exact Hx.
  - assert (Hx3 : In x (map fst result) \/
                  (x = key /\ includes required key = true) \/
                  (In x (map fst rest) /\ includes required x = true)).
    { destruct Hx as [Hx|[[Hx|Hx] Hr]].
      - now left.
      - right. left. cbn [fst] in Hx. subst x. now split.
      - right. right. now split. }
    clear Hx.
    assert (Hx' : forall res' : list (string * value),
              (forall y, In y (map fst result) -> In y (map fst res')) ->
              includes required key = false ->
              In x (map fst res') \/
              (In x (map fst rest) /\ includes required x = true)).
    { intros res' Hsub Hopt. destruct Hx3 as [Hx|[[_ Hr]|Hx]].
      - left. apply Hsub, Hx.
      - congruence.
      - now right. }
    simpl in Hrun. unfold bind at 1 in Hrun.
    destruct (includes required key) eqn:Hreq.
    + unfold ret, bind in Hrun.
      destruct (gd sub k) as [v0 k1| |]; try discriminate.
      apply (IH _ _ _ _ Hrun). rewrite obj_set_keys.
      destruct Hx3 as [Hx|[[-> _]|Hx]]; tauto.
    + unfold Math_random, ret, bind in Hrun.
      destruct (Qltb (rs k) literal_0_7).
      * destruct (gd sub (S k)) as [v0 k1| |]; try discriminate.
        apply (IH _ _ _ _ Hrun). apply Hx'; [|reflexivity]. intros y Hy.
        rewrite obj_set_keys. now right.
      * apply (IH _ _ _ _ Hrun). apply Hx'; auto.
Qed.

(** No key comes from anywhere but the result so far and the declared
    properties. *)
Lemma generateObject_loop_declared :
  forall properties result k out k',
    generateObject_loop rs gd required properties result k = Ret out k' ->
    forall x, In x (map fst out) ->
              In x (map fst result) \/ In x (map fst properties).
Proof.
  induction properties as [|[key sub] rest IH]; intros result k out k' Hrun x Hx.
  - injection Hrun as <- <-. now left.
  - simpl in Hrun. unfold bind at 1 in Hrun.
    assert (Htake : forall k0 v0 k1,
              gd sub k0 = Ret v0 k1 ->
              generateObject_loop rs gd required rest (obj_set key v0 result) k1
                = Ret out k' ->
              In x (map fst result) \/ In x (map fst ((key, sub) :: rest))).
    { intros k0 v0 k1 _ H. destruct (IH _ _ _ _ H x Hx) as [Hin|Hin].
      - apply obj_set_keys in Hin as [->|Hin]; simpl; tauto.
      - simpl. tauto. }
    assert (Hskip : forall k0,
              generateObject_loop rs gd required rest result k0 = Ret out k' ->
              In x (map fst result) \/ In x (map fst ((key, sub) :: rest))).
    { intros k0 H. destruct (IH _ _ _ _ H x Hx); simpl; tauto. }
    destruct (includes required key).
    + unfold ret, bind in Hrun.
      destruct (gd sub k) as [v0 k1| |] eqn:Hg; try discriminate.
      apply (Htake _ _ _ Hg Hrun).
    + unfold Math_random, ret, bind in Hrun.
      destruct (Qltb (rs k) literal_0_7).
      * destruct (gd sub (S k)) as [v0 k1| |] eqn:Hg; try discriminate.
        apply (Htake _ _ _ Hg Hrun).
      * apply (Hskip _ Hrun).
Qed.

(** The loop returns when the generation of every declared node does. *)
Lemma generateObject_loop_returns :
  forall properties,
    (forall key sub, In (key, sub) properties ->
                     forall k0, exists v k1, gd sub k0 = Ret v k1) ->
    forall result k,
      exists out k', generateObject_loop rs gd required properties result k = Ret out k'.
Proof.
  induction properties as [|[key sub] rest IH]; intros Htot result k; simpl.
  - unfold ret. eauto.
  - assert (Hrest : forall key0 sub0, In (key0, sub0) rest ->
                      forall k0, exists v k1, gd sub0 k0 = Ret v k1).
    { intros key0 sub0 Hin. apply (Htot key0 sub0). now right. }
    assert (Hsub := Htot key sub (or_introl eq_refl)).
    unfold bind at 1.
    destruct (includes required key); unfold ret, Math_random, bind.
    + destruct (Hsub k) as (v & k1 & ->). apply (IH Hrest).
    + destruct (Qltb (rs k) literal_0_7).
      * destruct (Hsub (S k)) as (v & k1 & ->). apply (IH Hrest).
      * apply (IH Hrest).
Qed.

End ObjectLoop.

(** The literal [0.7] is [7/10] to within [2^-54]. *)
Lemma literal_0_7_value :
  literal_0_7 == 3152519739159347 # 4503599627370496 /\
  (7 # 10) - pow2 (-54) < literal_0_7 /\ literal_0_7 < 7 # 10.
Proof. repeat split; vm_compute; reflexivity. Qed.


(** * Binary64 rounding and [getRandomNumber] *)

(** ** Powers of two *)

Lemma pow2_pos (e : Z) : 0 < pow2 e.
Proof. apply Qpower_0_lt. reflexivity. Qed.

Lemma pow2_add (a b : Z) : pow2 (a + b) == pow2 a * pow2 b.
Proof. apply Qpower_plus. discriminate. Qed.

Lemma pow2_le (a b : Z) : (a <= b)%Z -> pow2 a <= pow2 b.
Proof. intros H. apply Qpower_le_compat_l; [exact H|discriminate]. Qed.

Lemma pow2_lt (a b : Z) : (a < b)%Z -> pow2 a < pow2 b.
Proof. intros H. apply Qpower_lt_compat_l; [exact H|reflexivity]. Qed.

Lemma pow2_lt_inv (a b : Z) : pow2 a < pow2 b -> (a < b)%Z.
Proof. intros H. apply (Qpower_lt_compat_l_inv 2); [exact H|reflexivity]. Qed.

Lemma pow2_Z (n : Z) : (0 <= n)%Z -> pow2 n == inject_Z (2 ^ n).
Proof. intros H. symmetry. apply (Zpower_Qpower 2 n H). Qed.

Lemma pow2_succ (e : Z) : pow2 (e + 1) == 2 * pow2 e.
Proof. rewrite pow2_add. change (pow2 1) with 2. ring. Qed.

(** Division by a power of two is multiplication by the opposite one. *)
Lemma div_pow2 (x : Q) (e : Z) : x / pow2 e == x * pow2 (- e).
Proof.
  unfold Qdiv. apply Qmult_comp; [reflexivity|].
  unfold pow2. rewrite Qpower_opp. reflexivity.
Qed.

Lemma scale_pow2 (x : Q) (e : Z) : x / pow2 e * pow2 e == x.
Proof. field. apply Qnot_eq_sym, Qlt_not_eq, pow2_pos. Qed.

Lemma div_pow2_le (x y : Q) (e : Z) : x <= y -> x / pow2 e <= y / pow2 e.
Proof.
  intros H. unfold Qdiv. apply Qmult_le_compat_r; [exact H|].
  apply Qlt_le_weak, Qinv_lt_0_compat, pow2_pos.
Qed.

Lemma div_pow2_lt (x y : Q) (e : Z) : x < y -> x / pow2 e < y / pow2 e.
Proof.
  intros H. unfold Qdiv. apply Qmult_lt_compat_r; [|exact H].
  apply Qinv_lt_0_compat, pow2_pos.
Qed.

Lemma pow2_div (a b : Z) : pow2 a / pow2 b == pow2 (a - b).
Proof. rewrite div_pow2. unfold Z.sub. now rewrite pow2_add. Qed.

(** ** The binade of a positive rational *)

Lemma ilog2_spec (x : Q) :
  0 < x -> pow2 (ilog2 x) <= x /\ x < pow2 (ilog2 x + 1).
Proof.
  intros Hx. destruct x as [n d]. unfold ilog2. cbn [Qnum Qden].
  assert (Hn : (0 < n)%Z).
  { unfold Qlt in Hx. simpl in Hx. lia. }
  set (ln := Z.log2 n). set (ld := Z.log2 (Zpos d)).
  destruct (Z.log2_spec n Hn) as [Hn1 Hn2]. fold ln in Hn1, Hn2.
  destruct (Z.log2_spec (Zpos d) eq_refl) as [Hd1 Hd2]. fold ld in Hd1, Hd2.
  assert (Hln : (0 <= ln)%Z) by apply Z.log2_nonneg.
  assert (Hld : (0 <= ld)%Z) by apply Z.log2_nonneg.
  assert (Hx' : n # d == inject_Z n / inject_Z (Zpos d)) by apply Qmake_Qdiv.
  assert (Hdpos : 0 < inject_Z (Zpos d)) by reflexivity.
  (* 2^(ln-ld-1) < n/d < 2^(ln-ld+1) *)
  assert (Hup : n # d < pow2 (ln - ld + 1)).
  { rewrite Hx'. apply Qlt_shift_div_r; [exact Hdpos|].
    apply Qlt_le_trans with (pow2 (ln + 1)).
    - rewrite (pow2_Z (ln + 1)) by lia. rewrite <- Zlt_Qlt.
      replace (ln + 1)%Z with (Z.succ ln) by lia. exact Hn2.
    - replace (ln + 1)%Z with ((ln - ld + 1) + ld)%Z by lia.
      rewrite pow2_add. apply Qmult_le_l; [apply pow2_pos|].
      rewrite (pow2_Z ld Hld). rewrite <- Zle_Qle. exact Hd1. }
  assert (Hlow : pow2 (ln - ld - 1) < n # d).
  { rewrite Hx'. apply Qlt_shift_div_l; [exact Hdpos|].
    apply Qlt_le_trans with (pow2 ln).
    - replace ln with ((ln - ld - 1) + (ld + 1))%Z at 2 by lia.
      rewrite pow2_add. apply Qmult_lt_l; [apply pow2_pos|].
      rewrite (pow2_Z (ld + 1)) by lia. rewrite <- Zlt_Qlt.
      replace (ld + 1)%Z with (Z.succ ld) by lia. exact Hd2.
    - rewrite (pow2_Z ln Hln). rewrite <- Zle_Qle. exact Hn1. }
  destruct (Qle_bool (pow2 (ln - ld)) (n # d)) eqn:E.
  - apply Qle_bool_iff in E. split; assumption.
  - split; [apply Qlt_le_weak; exact Hlow|].
    replace (ln - ld - 1 + 1)%Z with (ln - ld)%Z by lia.
    apply Qnot_le_lt. intros H. apply Qle_bool_iff in H. congruence.
Qed.

Lemma ilog2_unique (x : Q) (e : Z) :
  pow2 e <= x -> x < pow2 (e + 1) -> ilog2 x = e.
Proof.
  intros H1 H2.
  assert (Hx : 0 < x) by (apply Qlt_le_trans with (pow2 e); [apply pow2_pos|exact H1]).
  destruct (ilog2_spec x Hx) as [S1 S2].
  assert (A : (ilog2 x < e + 1)%Z).
  { apply pow2_lt_inv. apply Qle_lt_trans with x; assumption. }
  assert (B : (e < ilog2 x + 1)%Z).
  { apply pow2_lt_inv. apply Qle_lt_trans with x; assumption. }
  lia.
Qed.

Lemma ilog2_comp (x y : Q) : 0 < x -> x == y -> ilog2 x = ilog2 y.
Proof.
  intros Hx E. destruct (ilog2_spec x Hx) as [S1 S2].
  symmetry. apply ilog2_unique; rewrite <- E; assumption.
Qed.

Lemma ilog2_mono (x y : Q) : 0 < x -> x <= y -> (ilog2 x <= ilog2 y)%Z.
Proof.
  intros Hx Hxy.
  assert (Hy : 0 < y) by (apply Qlt_le_trans with x; assumption).
  destruct (ilog2_spec x Hx) as [S1 _]. destruct (ilog2_spec y Hy) as [_ T2].
  assert (A : (ilog2 x < ilog2 y + 1)%Z).
  { apply pow2_lt_inv. apply Qle_lt_trans with x; [exact S1|].
    apply Qle_lt_trans with y; assumption. }
  lia.
Qed.

Lemma ilog2_lt (x : Q) (e : Z) : 0 < x -> x < pow2 e -> (ilog2 x < e)%Z.
Proof.
  intros Hx H. destruct (ilog2_spec x Hx) as [S1 _].
  apply pow2_lt_inv. apply Qle_lt_trans with x; assumption.
Qed.

Lemma ilog2_ge (x : Q) (e : Z) : pow2 e <= x -> (e <= ilog2 x)%Z.
Proof.
  intros H.
  assert (Hx : 0 < x) by (apply Qlt_le_trans with (pow2 e); [apply pow2_pos|exact H]).
  destruct (ilog2_spec x Hx) as [_ S2].
  assert (A : (e < ilog2 x + 1)%Z).
  { apply pow2_lt_inv. apply Qle_lt_trans with x; assumption. }
  lia.
Qed.

(** ** Rounding to the nearest integer, ties to even *)

Lemma round_half_even_comp (x y : Q) :
  x == y -> round_half_even x = round_half_even y.
Proof.
  intros E. unfold round_half_even. rewrite (Qfloor_comp _ _ E).
  assert (E' : x - inject_Z (Qfloor y) == y - inject_Z (Qfloor y)) by (rewrite E; reflexivity).
  rewrite (Qcompare_comp _ _ E' _ _ (Qeq_refl (1 # 2))). reflexivity.
Qed.

(** The result is the floor or the next integer, by the position of [x]
    against the midpoint. *)
Lemma round_half_even_cases (x : Q) :
  let f := Qfloor x in
  (x < inject_Z f + (1 # 2) /\ round_half_even x = f) \/
  (inject_Z f + (1 # 2) < x /\ round_half_even x = (f + 1)%Z) \/
  (x == inject_Z f + (1 # 2) /\
   round_half_even x = (if Z.even f then f else f + 1)%Z).
Proof.
  intros f. unfold round_half_even. fold f.
  destruct (Qcompare_spec (x - inject_Z f) (1 # 2)) as [E|E|E].
  - right. right. split; [lra|reflexivity].
  - left. split; [lra|reflexivity].
  - right. left. split; [lra|reflexivity].
Qed.

Lemma round_half_even_bounds (x : Q) :
  (Qfloor x <= round_half_even x <= Qfloor x + 1)%Z.
Proof.
  destruct (round_half_even_cases x) as [[_ ->]|[[_ ->]|[_ ->]]];
    try destruct (Z.even _); lia.
Qed.

Lemma round_half_even_Z (z : Z) : round_half_even (inject_Z z) = z.
Proof.
  unfold round_half_even. rewrite Qfloor_Z.
  destruct (Qcompare_spec (inject_Z z - inject_Z z) (1 # 2)) as [E|E|E];
    [exfalso; lra|reflexivity|exfalso; lra].
Qed.

Lemma Z_of_Q_lt (a b : Z) : inject_Z a < inject_Z b -> (a < b)%Z.
Proof. intros H. now rewrite Zlt_Qlt. Qed.

Lemma Z_of_Q_le (a b : Z) : inject_Z a <= inject_Z b -> (a <= b)%Z.
Proof. intros H. now rewrite Zle_Qle. Qed.

Lemma Q_of_Z_le (a b : Z) : (a <= b)%Z -> inject_Z a <= inject_Z b.
Proof. intros H. now rewrite <- Zle_Qle. Qed.

Lemma Q_of_Z_lt (a b : Z) : (a < b)%Z -> inject_Z a < inject_Z b.
Proof. intros H. now rewrite <- Zlt_Qlt. Qed.

Lemma Qfloor_lt_Z (x : Q) (z : Z) : x < inject_Z z -> (Qfloor x < z)%Z.
Proof.
  intros H. apply Z_of_Q_lt. apply Qle_lt_trans with x; [apply Qfloor_le|exact H].
Qed.

Lemma Qfloor_ge_Z (x : Q) (z : Z) : inject_Z z <= x -> (z <= Qfloor x)%Z.
Proof.
  intros H. rewrite <- (Qfloor_Z z). apply Qfloor_resp_le. exact H.
Qed.

(** Strictly below a midpoint the result stays below; at or above an
    integer it stays above. *)
Lemma round_half_even_below (x : Q) (z : Z) :
  x < inject_Z z - (1 # 2) -> (round_half_even x <= z - 1)%Z.
Proof.
  intros H.
  assert (Hf := Qfloor_le x). assert (Hf' := Qlt_floor x).
  rewrite inject_Z_plus in Hf'.
  assert (Hz : (Qfloor x < z)%Z) by (apply Qfloor_lt_Z; lra).
  destruct (round_half_even_cases x) as [[_ ->]|[[Hc ->]|[Hc ->]]].
  - lia.
  - assert (A : inject_Z (Qfloor x + 1) < inject_Z z).
    { rewrite inject_Z_plus. change (inject_Z 1) with 1. lra. }
    apply Z_of_Q_lt in A. lia.
  - assert (A : inject_Z (Qfloor x + 1) < inject_Z z).
    { rewrite inject_Z_plus. change (inject_Z 1) with 1. lra. }
    apply Z_of_Q_lt in A. destruct (Z.even _); lia.
Qed.

Lemma round_half_even_le_Z (x : Q) (z : Z) :
  x <= inject_Z z -> (round_half_even x <= z)%Z.
Proof.
  intros H.
  destruct (Qlt_le_dec x (inject_Z z)) as [Hlt|Hge].
  - pose proof (Qfloor_lt_Z x z Hlt). pose proof (round_half_even_bounds x). lia.
  - assert (E : x == inject_Z z) by (apply Qle_antisym; assumption).
    rewrite (round_half_even_comp _ _ E), round_half_even_Z. lia.
Qed.

Lemma round_half_even_ge_Z (x : Q) (z : Z) :
  inject_Z z <= x -> (z <= round_half_even x)%Z.
Proof.
  intros H. pose proof (Qfloor_ge_Z x z H). pose proof (round_half_even_bounds x). lia.
Qed.

Lemma round_half_even_mono (x y : Q) :
  x <= y -> (round_half_even x <= round_half_even y)%Z.
Proof.
  intros Hxy.
  pose proof (Qfloor_resp_le x y Hxy) as Hf.
  pose proof (round_half_even_bounds x) as Bx.
  pose proof (round_half_even_bounds y) as By.
  destruct (Z.eq_dec (Qfloor x) (Qfloor y)) as [E|NE]; [|lia].
  destruct (round_half_even_cases x) as [[Hx Rx]|[[Hx Rx]|[Hx Rx]]];
    destruct (round_half_even_cases y) as [[Hy Ry]|[[Hy Ry]|[Hy Ry]]];
    rewrite Rx, Ry; rewrite E in *; try destruct (Z.even (Qfloor y)); try lia;
    exfalso; lra.
Qed.

Lemma Qfloor_opp_nonint (x : Q) :
  ~ x == inject_Z (Qfloor x) -> Qfloor (- x) = (- Qfloor x - 1)%Z.
Proof.
  intros Hni.
  assert (Hf := Qfloor_le x). assert (Hf' := Qlt_floor x).
  rewrite inject_Z_plus in Hf'.
  assert (Hlt : inject_Z (Qfloor x) < x).
  { apply Qle_lteq in Hf as [Hf|Hf]; [exact Hf|]. exfalso. apply Hni. symmetry. exact Hf. }
  assert (A : (Qfloor (- x) < - Qfloor x)%Z).
  { apply Qfloor_lt_Z. rewrite inject_Z_opp. lra. }
  assert (B : (- Qfloor x - 1 <= Qfloor (- x))%Z).
  { apply Qfloor_ge_Z. unfold Z.sub. rewrite inject_Z_plus, !inject_Z_opp. lra. }
  lia.
Qed.

Lemma round_half_even_opp (x : Q) :
  round_half_even (- x) = (- round_half_even x)%Z.
Proof.
  destruct (Qeq_dec x (inject_Z (Qfloor x))) as [E|NE].
  - assert (E' : - x == inject_Z (- Qfloor x)) by (rewrite inject_Z_opp, <- E; reflexivity).
    rewrite (round_half_even_comp _ _ E'), (round_half_even_comp _ _ E),
      !round_half_even_Z. reflexivity.
  - pose proof (Qfloor_opp_nonint x NE) as Hf.
    assert (Hfx := Qfloor_le x). assert (Hfx' := Qlt_floor x).
    rewrite inject_Z_plus in Hfx'.
    assert (Hi : inject_Z (- Qfloor x - 1) == - inject_Z (Qfloor x) - 1).
    { unfold Z.sub. rewrite inject_Z_plus, !inject_Z_opp. reflexivity. }
    destruct (round_half_even_cases x) as [[Hx Rx]|[[Hx Rx]|[Hx Rx]]];
      destruct (round_half_even_cases (- x)) as [[Hy Ry]|[[Hy Ry]|[Hy Ry]]];
      rewrite Rx, Ry; rewrite Hf in *; rewrite Hi in Hy; try (exfalso; lra); try lia.
    rewrite Z.even_sub, Z.even_opp. simpl (Z.even 1).
    destruct (Z.even (Qfloor x)); simpl; lia.
Qed.

(** ** Rounding to binary64 *)

Lemma Qabs_pos_lt (x : Q) : ~ x == 0 -> 0 < Qabs x.
Proof.
  intros H. apply Qabs_case; intros Hx.
  - apply Qle_lteq in Hx as [Hx|Hx]; [exact Hx|]. exfalso. apply H. symmetry. exact Hx.
  - apply Qle_lteq in Hx as [Hx|Hx]; [lra|]. exfalso. apply H. exact Hx.
Qed.

Lemma ulp_exp_comp (x y : Q) : ~ x == 0 -> x == y -> ulp_exp x = ulp_exp y.
Proof.
  intros Hx E. unfold ulp_exp. f_equal. f_equal.
  apply ilog2_comp; [apply Qabs_pos_lt, Hx|]. now rewrite E.
Qed.

Lemma ulp_exp_pos (x : Q) :
  0 < x -> ulp_exp x = (Z.max (ilog2 x) (-1022) - 52)%Z.
Proof.
  intros Hx. unfold ulp_exp. f_equal. f_equal.
  apply ilog2_comp; [apply Qabs_pos_lt; lra|]. apply Qabs_pos. lra.
Qed.

Lemma ulp_exp_opp (x : Q) : ~ x == 0 -> ulp_exp (- x) = ulp_exp x.
Proof.
  intros Hx. unfold ulp_exp. f_equal. f_equal.
  apply ilog2_comp; [apply Qabs_pos_lt; lra|]. apply Qabs_opp.
Qed.

Lemma ulp_exp_ge (x : Q) : (-1074 <= ulp_exp x)%Z.
Proof. unfold ulp_exp. lia. Qed.

Lemma Qeq_bool_false (x y : Q) : ~ x == y -> Qeq_bool x y = false.
Proof.
  intros H. destruct (Qeq_bool x y) eqn:E; [|reflexivity].
  apply Qeq_bool_iff in E. contradiction.
Qed.

Lemma Qeq_bool_true (x y : Q) : x == y -> Qeq_bool x y = true.
Proof. apply Qeq_bool_iff. Qed.

Lemma round_finite_zero (x : Q) : x == 0 -> round_finite x = 0.
Proof. intros H. unfold round_finite. now rewrite (Qeq_bool_true _ _ H). Qed.

Lemma round_finite_nonzero (x : Q) :
  ~ x == 0 ->
  round_finite x =
  inject_Z (round_half_even (x / pow2 (ulp_exp x))) * pow2 (ulp_exp x).
Proof. intros H. unfold round_finite. now rewrite (Qeq_bool_false _ _ H). Qed.

Lemma round_finite_comp (x y : Q) : x == y -> round_finite x == round_finite y.
Proof.
  intros E. destruct (Qeq_dec x 0) as [Hx|Hx].
  - rewrite (round_finite_zero x Hx), (round_finite_zero y); [reflexivity|].
    now rewrite <- E.
  - assert (Hy : ~ y == 0) by (now rewrite <- E).
    rewrite (round_finite_nonzero x Hx), (round_finite_nonzero y Hy).
    rewrite <- (ulp_exp_comp x y Hx E).
    assert (E' : x / pow2 (ulp_exp x) == y / pow2 (ulp_exp x))
      by (apply Qdiv_comp; [exact E|reflexivity]).
    rewrite (round_half_even_comp _ _ E'). reflexivity.
Qed.

#[local] Instance round_finite_proper : Proper (Qeq ==> Qeq) round_finite.
Proof. intros x y E. apply round_finite_comp, E. Qed.

Lemma round_finite_opp (x : Q) : round_finite (- x) == - round_finite x.
Proof.
  destruct (Qeq_dec x 0) as [Hx|Hx].
  - rewrite (round_finite_zero x Hx), (round_finite_zero (- x)); [reflexivity|].
    rewrite Hx. reflexivity.
  - assert (Hx' : ~ - x == 0) by (intros H; apply Hx; lra).
    rewrite (round_finite_nonzero x Hx), (round_finite_nonzero _ Hx').
    rewrite (ulp_exp_opp x Hx).
    assert (E : - x / pow2 (ulp_exp x) == - (x / pow2 (ulp_exp x))).
    { unfold Qdiv. ring. }
    rewrite (round_half_even_comp _ _ E), round_half_even_opp, inject_Z_opp. ring.
Qed.

(** The scaled value of a positive [x] has at most 53 bits, and exactly
    53 in the normal range. *)
Lemma scaled_lt (x : Q) : 0 < x -> x / pow2 (ulp_exp x) < inject_Z (2 ^ 53).
Proof.
  intros Hx. destruct (ilog2_spec x Hx) as [_ S2].
  rewrite <- (pow2_Z 53) by lia.
  apply Qlt_shift_div_r; [apply pow2_pos|]. rewrite <- pow2_add.
  apply Qlt_le_trans with (pow2 (ilog2 x + 1)); [exact S2|].
  apply pow2_le. rewrite (ulp_exp_pos x Hx). lia.
Qed.

Lemma scaled_ge (x : Q) :
  0 < x -> (-1022 <= ilog2 x)%Z -> inject_Z (2 ^ 52) <= x / pow2 (ulp_exp x).
Proof.
  intros Hx Hn. destruct (ilog2_spec x Hx) as [S1 _].
  rewrite <- (pow2_Z 52) by lia.
  apply Qle_shift_div_l; [apply pow2_pos|]. rewrite <- pow2_add.
  apply Qle_trans with (pow2 (ilog2 x)); [|exact S1].
  apply pow2_le. rewrite (ulp_exp_pos x Hx). lia.
Qed.

Lemma round_finite_nonneg (x : Q) : 0 <= x -> 0 <= round_finite x.
Proof.
  intros Hx. destruct (Qeq_dec x 0) as [E|NE].
  - rewrite (round_finite_zero x E). lra.
  - rewrite (round_finite_nonzero x NE).
    apply Qmult_le_0_compat; [|apply Qlt_le_weak, pow2_pos].
    apply (Q_of_Z_le 0). apply round_half_even_ge_Z.
    apply Qle_shift_div_l; [apply pow2_pos|].
    change (inject_Z 0) with 0. rewrite Qmult_0_l. exact Hx.
Qed.

(** Upper and lower bounds of the rounded value by powers of two. *)
Lemma round_finite_le_binade (x : Q) :
  0 < x -> round_finite x <= pow2 (ulp_exp x + 53).
Proof.
  intros Hx. rewrite (round_finite_nonzero x) by lra.
  rewrite pow2_add, (Qmult_comm (pow2 (ulp_exp x))).
  apply Qmult_le_compat_r; [|apply Qlt_le_weak, pow2_pos].
  rewrite (pow2_Z 53) by lia. apply Q_of_Z_le.
  apply round_half_even_le_Z. apply Qlt_le_weak, scaled_lt, Hx.
Qed.

Lemma round_finite_ge_binade (x : Q) :
  0 < x -> (-1022 <= ilog2 x)%Z -> pow2 (ilog2 x) <= round_finite x.
Proof.
  intros Hx Hn. rewrite (round_finite_nonzero x) by lra.
  assert (E : ilog2 x = (52 + ulp_exp x)%Z) by (rewrite (ulp_exp_pos x Hx); lia).
  rewrite E at 1. rewrite pow2_add.
  apply Qmult_le_compat_r; [|apply Qlt_le_weak, pow2_pos].
  rewrite (pow2_Z 52) by lia. apply Q_of_Z_le.
  apply round_half_even_ge_Z. apply scaled_ge; assumption.
Qed.

Lemma round_finite_mono_pos (x y : Q) :
  0 < x -> x <= y -> round_finite x <= round_finite y.
Proof.
  intros Hx Hxy.
  assert (Hy : 0 < y) by lra.
  pose proof (ilog2_mono x y Hx Hxy) as Hl.
  pose proof (ulp_exp_pos x Hx) as Ex. pose proof (ulp_exp_pos y Hy) as Ey.
  destruct (Z.eq_dec (ulp_exp x) (ulp_exp y)) as [E|NE].
  - rewrite (round_finite_nonzero x), (round_finite_nonzero y) by lra.
    rewrite E. apply Qmult_le_compat_r; [|apply Qlt_le_weak, pow2_pos].
    apply Q_of_Z_le, round_half_even_mono, div_pow2_le, Hxy.
  - apply Qle_trans with (pow2 (ulp_exp x + 53)); [apply round_finite_le_binade, Hx|].
    apply Qle_trans with (pow2 (ilog2 y)); [apply pow2_le; lia|].
    apply round_finite_ge_binade; [exact Hy|lia].
Qed.

Lemma round_finite_mono (x y : Q) : x <= y -> round_finite x <= round_finite y.
Proof.
  intros Hxy.
  destruct (Qlt_le_dec 0 x) as [Hx|Hx].
  - apply round_finite_mono_pos; assumption.
  - destruct (Qlt_le_dec y 0) as [Hy|Hy].
    + (* both negative: mirror *)
      assert (H : round_finite (- y) <= round_finite (- x)).
      { apply round_finite_mono_pos; lra. }
      rewrite !round_finite_opp in H. lra.
    + apply Qle_trans with 0; [|apply round_finite_nonneg, Hy].
      assert (H : 0 <= round_finite (- x)) by (apply round_finite_nonneg; lra).
      rewrite round_finite_opp in H. lra.
Qed.

(** ** Binary64 values *)

Lemma pow2_shift_Z (m a b : Z) :
  (b <= a)%Z -> inject_Z m * pow2 a / pow2 b == inject_Z (m * 2 ^ (a - b)).
Proof.
  intros H. rewrite inject_Z_mult, <- (pow2_Z (a - b)) by lia.
  rewrite <- pow2_div. field. apply Qnot_eq_sym, Qlt_not_eq, pow2_pos.
Qed.

(** A value [m * 2^e] with at most 53 bits in [m] and [e >= -1074] is
    left as it is by the rounding. *)
Lemma round_finite_exact_pos (y : Q) (m e : Z) :
  0 < y -> y == inject_Z m * pow2 e -> (m <= 2 ^ 53)%Z -> (-1074 <= e)%Z ->
  round_finite y == y.
Proof.
  intros Hy E Hm He.
  rewrite (round_finite_nonzero y) by lra.
  pose proof (ulp_exp_pos y Hy) as Eu.
  destruct (Z_le_gt_dec (ulp_exp y) e) as [Hle|Hgt].
  - assert (Es : y / pow2 (ulp_exp y) == inject_Z (m * 2 ^ (e - ulp_exp y))).
    { rewrite <- (pow2_shift_Z m e (ulp_exp y) Hle).
      apply Qdiv_comp; [exact E|reflexivity]. }
    rewrite (round_half_even_comp _ _ Es), round_half_even_Z, <- Es.
    apply scale_pow2.
  - (* only [m = 2^53] reaches the next binade *)
    assert (Hup : y <= pow2 (e + 53)).
    { rewrite E, pow2_add, (Qmult_comm (pow2 e)).
      apply Qmult_le_compat_r; [|apply Qlt_le_weak, pow2_pos].
      rewrite (pow2_Z 53) by lia. apply Q_of_Z_le, Hm. }
    assert (Hlo : pow2 (e + 53) <= y).
    { apply Qnot_lt_le. intros Hlt. pose proof (ilog2_lt y _ Hy Hlt). lia. }
    assert (Ey : y == pow2 (e + 53)) by (apply Qle_antisym; assumption).
    assert (Hl : ilog2 y = (e + 53)%Z).
    { apply ilog2_unique; [exact Hlo|]. rewrite Ey. apply pow2_lt. lia. }
    assert (Eu' : ulp_exp y = (e + 1)%Z) by lia.
    rewrite Eu'.
    assert (Es : y / pow2 (e + 1) == inject_Z (2 ^ 52)).
    { rewrite <- (pow2_Z 52) by lia. rewrite Ey, pow2_div.
      replace (e + 53 - (e + 1))%Z with 52%Z by lia. reflexivity. }
    rewrite (round_half_even_comp _ _ Es), round_half_even_Z, <- Es.
    apply scale_pow2.
Qed.

(** The rounding is idempotent on non-negative values. *)
Lemma round_finite_idem_nonneg (x : Q) :
  0 <= x -> round_finite (round_finite x) == round_finite x.
Proof.
  intros Hx.
  destruct (Qeq_dec (round_finite x) 0) as [Z0|NZ].
  - rewrite (round_finite_zero _ Z0). symmetry. exact Z0.
  - assert (Hpos : 0 < round_finite x).
    { pose proof (round_finite_nonneg x Hx) as H.
      apply Qle_lteq in H as [H|H]; [exact H|]. exfalso. apply NZ. symmetry. exact H. }
    assert (Hx0 : 0 < x).
    { apply Qle_lteq in Hx as [Hx|Hx]; [exact Hx|]. exfalso. apply NZ.
      rewrite (round_finite_zero x); [reflexivity|symmetry; exact Hx]. }
    apply (round_finite_exact_pos _ (round_half_even (x / pow2 (ulp_exp x)))
             (ulp_exp x)).
    + exact Hpos.
    + rewrite (round_finite_nonzero x) by lra. reflexivity.
    + apply round_half_even_le_Z, Qlt_le_weak, scaled_lt, Hx0.
    + apply ulp_exp_ge.
Qed.

(** A positive binary64 value is its own scaled integer times its unit. *)
Lemma double_scaled (x : Q) :
  0 < x -> round_finite x == x ->
  x / pow2 (ulp_exp x) == inject_Z (round_half_even (x / pow2 (ulp_exp x))).
Proof.
  intros Hx Hd. rewrite (round_finite_nonzero x) in Hd by lra.
  apply (Qmult_inj_r _ _ (pow2 (ulp_exp x)));
    [apply Qnot_eq_sym, Qlt_not_eq, pow2_pos|].
  rewrite scale_pow2. symmetry. exact Hd.
Qed.

(** Every binary64 value is a multiple of [2^-1074]. *)
Lemma double_multiple (x : Q) :
  round_finite x == x -> exists z : Z, x == inject_Z z * pow2 (-1074).
Proof.
  intros Hd. destruct (Qeq_dec x 0) as [Z0|NZ].
  - exists 0%Z. rewrite Z0. change (inject_Z 0) with 0. ring.
  - rewrite (round_finite_nonzero x NZ) in Hd.
    pose proof (ulp_exp_ge x) as He.
    exists (round_half_even (x / pow2 (ulp_exp x)) * 2 ^ (ulp_exp x + 1074))%Z.
    rewrite inject_Z_mult, <- (pow2_Z (ulp_exp x + 1074)) by lia.
    rewrite <- Qmult_assoc, <- pow2_add.
    replace (ulp_exp x + 1074 + -1074)%Z with (ulp_exp x) by lia.
    symmetry. exact Hd.
Qed.

(** Below the normal range every multiple of [2^-1074] is a value. *)
Lemma subnormal_exact (d : Q) (z : Z) :
  0 < d -> d == inject_Z z * pow2 (-1074) -> d <= pow2 (-1022) ->
  round_finite d == d.
Proof.
  intros Hd E Hle.
  apply (round_finite_exact_pos d z (-1074) Hd E); [|lia].
  apply Z_of_Q_le. rewrite <- (pow2_Z 53) by lia.
  apply (Qmult_le_r _ _ (pow2 (-1074))); [apply pow2_pos|].
  rewrite <- E, <- pow2_add. apply Qle_trans with (pow2 (-1022)); [exact Hle|].
  apply pow2_le. lia.
Qed.

(** A binary64 draw below [1] is at most [1 - 2^-53]. *)
Lemma double_draw_le (r : Q) :
  0 <= r -> r < 1 -> round_finite r == r -> r <= 1 - pow2 (-53).
Proof.
  intros H0 H1 Hd.
  assert (Hhalf : pow2 (-1) == 1 # 2) by reflexivity.
  assert (Hsmall : pow2 (-53) <= 1 # 2).
  { rewrite <- Hhalf. apply pow2_le. lia. }
  destruct (Qlt_le_dec r (1 # 2)) as [Hlt|Hge]; [lra|].
  assert (Hr : 0 < r) by lra.
  assert (Hl : ilog2 r = (-1)%Z).
  { apply ilog2_unique; [rewrite Hhalf; exact Hge|exact H1]. }
  assert (Eu : ulp_exp r = (-53)%Z) by (rewrite (ulp_exp_pos r Hr), Hl; reflexivity).
  pose proof (double_scaled r Hr Hd) as Es. rewrite Eu in Es.
  set (m := round_half_even (r / pow2 (-53))) in *.
  assert (Hm : (m < 2 ^ 53)%Z).
  { apply Z_of_Q_lt. rewrite <- Es, <- (pow2_Z 53) by lia.
    apply Qlt_shift_div_r; [apply pow2_pos|]. rewrite <- pow2_add. exact H1. }
  assert (Er : r == inject_Z m * pow2 (-53)).
  { rewrite <- Es. symmetry. apply scale_pow2. }
  assert (Hm' : inject_Z m <= inject_Z (2 ^ 53 - 1)) by (apply Q_of_Z_le; lia).
  rewrite Er. unfold Z.sub in Hm'. rewrite inject_Z_plus in Hm'.
  rewrite <- (pow2_Z 53) in Hm' by lia. rewrite inject_Z_opp in Hm'.
  change (inject_Z 1) with 1 in Hm'.
  assert (One : pow2 53 * pow2 (-53) == 1) by (rewrite <- pow2_add; reflexivity).
  pose proof (pow2_pos (-53)) as Hp.
  apply Qle_trans with ((pow2 53 - 1) * pow2 (-53)).
  - apply Qmult_le_compat_r; lra.
  - setoid_replace ((pow2 53 - 1) * pow2 (-53))
      with (pow2 53 * pow2 (-53) - pow2 (-53)) by ring.
    rewrite One. lra.
Qed.

(** ** A product with a draw rounds strictly below the other factor *)

Lemma round_finite_scaled_le (x : Q) (z : Z) :
  0 < x -> x / pow2 (ulp_exp x) <= inject_Z z ->
  round_finite x <= inject_Z z * pow2 (ulp_exp x).
Proof.
  intros Hx H. rewrite (round_finite_nonzero x) by lra.
  apply Qmult_le_compat_r; [|apply Qlt_le_weak, pow2_pos].
  apply Q_of_Z_le, round_half_even_le_Z, H.
Qed.

Lemma round_below_double (u x : Q) :
  round_finite u == u -> pow2 (-1022) < u ->
  0 < x -> x <= u * (1 - pow2 (-53)) ->
  round_finite x < u.
Proof.
  intros Hd Hnorm Hx Hxu.
  assert (Hu : 0 < u) by (apply Qlt_trans with (pow2 (-1022)); [apply pow2_pos|exact Hnorm]).
  set (eu := ulp_exp u). set (m := round_half_even (u / pow2 eu)).
  pose proof (double_scaled u Hu Hd) as Es. fold eu in Es. fold m in Es.
  assert (Eu : u == inject_Z m * pow2 eu).
  { rewrite <- Es. symmetry. apply scale_pow2. }
  assert (Hlu : (-1022 <= ilog2 u)%Z) by (apply ilog2_ge, Qlt_le_weak, Hnorm).
  assert (Heu : eu = (ilog2 u - 52)%Z) by (unfold eu; rewrite (ulp_exp_pos u Hu); lia).
  assert (Hm1 : (2 ^ 52 <= m)%Z).
  { apply Z_of_Q_le. rewrite <- Es. apply scaled_ge; assumption. }
  assert (Hm2 : (m < 2 ^ 53)%Z).
  { apply Z_of_Q_lt. rewrite <- Es. apply scaled_lt, Hu. }
  pose proof (pow2_pos eu) as Hpe.
  assert (Hp53 : pow2 (-53) * pow2 53 == 1) by (rewrite <- pow2_add; reflexivity).
  assert (Hp52 : pow2 52 == inject_Z (2 ^ 52)) by (apply pow2_Z; lia).
  assert (Hp53' : pow2 53 == 2 * pow2 52) by (apply (pow2_succ 52)).
  (* x <= (m - m * 2^-53) * 2^eu, and m * 2^-53 >= 1/2 *)
  assert (Hhalf : inject_Z m * pow2 (-53) >= 1 # 2).
  { apply Q_of_Z_le in Hm1. rewrite <- Hp52 in Hm1.
    pose proof (pow2_pos (-53)). nra. }
  assert (Hxu' : x <= (inject_Z m - inject_Z m * pow2 (-53)) * pow2 eu).
  { rewrite Eu in Hxu. lra. }
  assert (Hxlt : x < u).
  { rewrite Eu. pose proof (pow2_pos (-53)).
    assert (0 < inject_Z m) by (apply (Q_of_Z_lt 0); lia). nra. }
  pose proof (ulp_exp_pos x Hx) as Eex.
  assert (Hle : (ulp_exp x <= eu)%Z).
  { pose proof (ilog2_mono x u Hx (Qlt_le_weak _ _ Hxlt)). lia. }
  destruct (Z.eq_dec m (2 ^ 52)) as [Em|Nm].
  - (* u is a power of two *)
    assert (Eu2 : u == pow2 (eu + 52)).
    { rewrite Eu, Em, <- Hp52, pow2_add. ring. }
    assert (Hlx : (ilog2 x < eu + 52)%Z).
    { apply ilog2_lt; [exact Hx|]. rewrite <- Eu2. exact Hxlt. }
    assert (Hn1 : (-1022 < eu + 52)%Z).
    { apply pow2_lt_inv. rewrite <- Eu2. exact Hnorm. }
    assert (Hlt : (ulp_exp x < eu)%Z) by lia.
    destruct (Z.eq_dec (ulp_exp x) (eu - 1)) as [E1|N1].
    + (* the binade just below: x / 2^(eu-1) <= 2^53 - 1 *)
      apply Qle_lt_trans with (inject_Z (2 ^ 53 - 1) * pow2 (ulp_exp x)).
      * apply round_finite_scaled_le; [exact Hx|].
        apply Qle_shift_div_r; [apply pow2_pos|]. rewrite E1.
        assert (Hs : pow2 eu == 2 * pow2 (eu - 1)).
        { rewrite <- (pow2_succ (eu - 1)). replace (eu - 1 + 1)%Z with eu by lia.
          reflexivity. }
        unfold Z.sub at 1. rewrite inject_Z_plus, inject_Z_opp. change (inject_Z 1) with 1.
        rewrite <- (pow2_Z 53) by lia.
        rewrite Em, <- Hp52 in Hxu', Hhalf.
        pose proof (pow2_pos (eu - 1)). nra.
      * rewrite E1, Eu2.
        replace (eu + 52)%Z with (53 + (eu - 1))%Z by lia. rewrite pow2_add.
        apply Qmult_lt_compat_r; [apply pow2_pos|].
        rewrite (pow2_Z 53) by lia. apply Q_of_Z_lt. lia.
    + apply Qle_lt_trans with (pow2 (ulp_exp x + 53));
        [apply round_finite_le_binade, Hx|].
      rewrite Eu2. apply pow2_lt. lia.
  - (* m > 2^52: either strictly below the midpoint, or a lower binade *)
    assert (Hm3 : (2 ^ 52 + 1 <= m)%Z) by lia.
    destruct (Z.eq_dec (ulp_exp x) eu) as [E1|N1].
    + apply Qle_lt_trans with (inject_Z (m - 1) * pow2 eu).
      * rewrite (round_finite_nonzero x) by lra. rewrite E1.
        apply Qmult_le_compat_r; [|apply Qlt_le_weak, pow2_pos].
        apply Q_of_Z_le, round_half_even_below.
        apply Qlt_shift_div_r; [exact Hpe|].
        assert (Hstrict : 1 # 2 < inject_Z m * pow2 (-53)).
        { apply Q_of_Z_le in Hm3. rewrite inject_Z_plus, <- Hp52 in Hm3.
          change (inject_Z 1) with 1 in Hm3. pose proof (pow2_pos (-53)). nra. }
        nra.
      * rewrite Eu. apply Qmult_lt_compat_r; [exact Hpe|]. apply Q_of_Z_lt. lia.
    + apply Qle_lt_trans with (pow2 (ulp_exp x + 53));
        [apply round_finite_le_binade, Hx|].
      apply Qle_lt_trans with (pow2 (eu + 52)); [apply pow2_le; lia|].
      rewrite Eu, pow2_add, (Qmult_comm (pow2 eu)).
      apply Qmult_lt_compat_r; [exact Hpe|].
      rewrite Hp52. apply Q_of_Z_lt. lia.
Qed.

(** ** [Math.random() * (max - min) + min] in binary64 *)

(** The three roundings of [getRandomNumber], on the rationals. *)
Lemma getRandomNumber_bounds (a b r : Q) :
  round_finite a == a -> round_finite b == b -> round_finite r == r ->
  0 <= r -> r < 1 -> a <= b ->
  let u := round_finite (b - a) in
  let t := round_finite (r * u) in
  let v := round_finite (t + a) in
  0 <= u /\ 0 <= t /\ t <= u /\ a <= v /\ v <= b.
Proof.
  intros Ha Hb Hr Hr0 Hr1 Hab u t v.
  assert (Hu0 : 0 <= u) by (apply round_finite_nonneg; lra).
  assert (Hu : round_finite u == u) by (apply round_finite_idem_nonneg; lra).
  assert (Hru : 0 <= r * u) by (apply Qmult_le_0_compat; assumption).
  assert (Ht0 : 0 <= t) by (apply round_finite_nonneg, Hru).
  assert (Htu : t <= u).
  { rewrite <- Hu. apply round_finite_mono. nra. }
  assert (Ht : round_finite t == t) by (apply round_finite_idem_nonneg, Hru).
  split; [exact Hu0|]. split; [exact Ht0|]. split; [exact Htu|]. split.
  - rewrite <- Ha at 1. apply round_finite_mono. lra.
  - rewrite <- Hb. apply round_finite_mono.
    (* t <= b - a *)
    enough (Htd : t <= b - a) by lra.
    destruct (Qlt_le_dec (b - a) u) as [Hup|Hdown]; [|lra].
    (* the difference was rounded up: t stays strictly below u *)
    assert (Hd0 : 0 < b - a).
    { apply Qnot_le_lt. intros Hle.
      assert (E : b - a == 0) by lra.
      unfold u in Hup. rewrite (round_finite_zero _ E) in Hup. lra. }
    assert (Hnorm : pow2 (-1022) < u).
    { apply Qnot_le_lt. intros Hsub.
      destruct (double_multiple a Ha) as [za Eza].
      destruct (double_multiple b Hb) as [zb Ezb].
      assert (Ed : b - a == inject_Z (zb - za) * pow2 (-1074)).
      { unfold Z.sub. rewrite inject_Z_plus, inject_Z_opp, Eza at 1. rewrite Ezb at 1. ring. }
      assert (Hexact : round_finite (b - a) == b - a).
      { apply (subnormal_exact _ _ Hd0 Ed). lra. }
      fold u in Hexact. lra. }
    assert (Hlt : t < u).
    { destruct (Qeq_dec (r * u) 0) as [Z0|NZ].
      - unfold t. rewrite (round_finite_zero _ Z0).
        apply Qlt_trans with (pow2 (-1022)); [apply pow2_pos|exact Hnorm].
      - apply (round_below_double u (r * u) Hu Hnorm).
        + apply Qle_lteq in Hru as [H|H]; [exact H|]. exfalso. apply NZ. symmetry. exact H.
        + pose proof (double_draw_le r Hr0 Hr1 Hr). nra. }
    apply Qnot_lt_le. intros Hgt.
    assert (Hge : u <= t).
    { rewrite <- Ht. apply round_finite_mono. lra. }
    lra.
Qed.

Lemma round64_finite (x : Q) :
  - pow2 1024 < round_finite x -> round_finite x < pow2 1024 ->
  round64 x = num_of_Q (round_finite x).
Proof.
  intros Hlo Hhi. unfold round64.
  replace (Qle_bool (pow2 1024) (round_finite x)) with false.
  2:{ symmetry. apply not_true_iff_false. rewrite Qle_bool_iff. lra. }
  replace (Qle_bool (round_finite x) (- pow2 1024)) with false; [reflexivity|].
  symmetry. apply not_true_iff_false. rewrite Qle_bool_iff. lra.
Qed.

Lemma this_Q2Qc (x : Q) : this (Q2Qc x) == x.
Proof. simpl. apply Qred_correct. Qed.

Lemma js_sub_finite (x y : Q) :
  - pow2 1024 < round_finite (x - y) -> round_finite (x - y) < pow2 1024 ->
  js_sub (num_of_Q x) (num_of_Q y) = num_of_Q (round_finite (x - y)).
Proof.
  intros Hlo Hhi. unfold js_sub, num_of_Q at 1 2.
  assert (E : Q2Qc x - Q2Qc y == x - y) by (rewrite !this_Q2Qc; reflexivity).
  pose proof (round_finite_comp _ _ E) as Er.
  rewrite round64_finite; [apply num_of_Q_ext, Er|rewrite Er; exact Hlo|rewrite Er; exact Hhi].
Qed.

Lemma js_mul_finite (x y : Q) :
  - pow2 1024 < round_finite (x * y) -> round_finite (x * y) < pow2 1024 ->
  js_mul (num_of_Q x) (num_of_Q y) = num_of_Q (round_finite (x * y)).
Proof.
  intros Hlo Hhi. unfold js_mul, num_of_Q at 1 2.
  assert (E : Q2Qc x * Q2Qc y == x * y) by (rewrite !this_Q2Qc; reflexivity).
  pose proof (round_finite_comp _ _ E) as Er.
  rewrite round64_finite; [apply num_of_Q_ext, Er|rewrite Er; exact Hlo|rewrite Er; exact Hhi].
Qed.

Lemma js_add_finite (x y : Q) :
  - pow2 1024 < round_finite (x + y) -> round_finite (x + y) < pow2 1024 ->
  js_add (num_of_Q x) (num_of_Q y) = num_of_Q (round_finite (x + y)).
Proof.
  intros Hlo Hhi. unfold js_add, num_of_Q at 1 2.
  assert (E : Q2Qc x + Q2Qc y == x + y) by (rewrite !this_Q2Qc; reflexivity).
  pose proof (round_finite_comp _ _ E) as Er.
  rewrite round64_finite; [apply num_of_Q_ext, Er|rewrite Er; exact Hlo|rewrite Er; exact Hhi].
Qed.

(** [getRandomNumber] on binary64 bounds whose difference does not
    overflow: one draw, and a finite value between the bounds. *)
Lemma getRandomNumber_spec rs (a b : Q) (k : nat) :
  is_double a -> is_double b -> is_double (rs k) -> valid_draw (rs k) ->
  a <= b -> round_finite (b - a) < pow2 1024 ->
  exists v : Q,
    getRandomNumber rs a b k = Ret (num_of_Q v) (S k) /\ a <= v /\ v <= b.
Proof.
  intros [Ha Ha'] [Hb Hb'] [Hr _] [Hr0 Hr1] Hab Hfin.
  destruct (getRandomNumber_bounds a b (rs k) Ha Hb Hr Hr0 Hr1 Hab)
    as (Hu0 & Ht0 & Htu & Hva & Hvb).
  set (u := round_finite (b - a)) in *.
  set (t := round_finite (rs k * u)) in *.
  set (v := round_finite (t + a)) in *.
  apply Qabs_Qlt_condition in Ha', Hb'.
  pose proof (pow2_pos 1024) as Hp.
  exists v. split; [|split; assumption].
  unfold getRandomNumber, bind, Math_random, ret. f_equal.
  rewrite (js_sub_finite b a); fold u; [|lra|lra].
  rewrite (js_mul_finite (rs k) u); fold t; [|lra|lra].
  rewrite (js_add_finite t a); fold v; [reflexivity|lra|lra].
Qed.

Lemma generateData_number rs JSON_stringify fuel s k :
  s_enum s = None -> s_type s = Some "number"%string ->
  generateData rs JSON_stringify fuel s k =
  (n <- getRandomNumber rs (or_default (s_minimum s) (- (10000000000 # 1)))
                           (or_default (s_maximum s) (10000000000 # 1)) ;;
   ret (VNum n)) k.
Proof.
  intros He Ht. destruct s; simpl in He, Ht; subst s_enum0 s_type0. reflexivity.
Qed.

(** C6, as the code has it.  A number node with binary64 bounds [a <= b]
    (the declared [minimum] and [maximum], [-1e10] and [1e10] where
    absent) whose difference is finite in binary64 yields, for a binary64
    draw in [[0, 1)], a finite value [v] with [a <= v <= b]; the run
    completes after one draw.  Both ends can be attained. *)
Theorem number_within_bounds
    (rs : nat -> Q) (JSON_stringify : value -> option string)
    (fuel : nat) (s : schema) (k : nat) :
  let a := or_default (s_minimum s) (- (10000000000 # 1)) in
  let b := or_default (s_maximum s) (10000000000 # 1) in
  s_enum s = None ->
  s_type s = Some "number"%string ->
  is_double a -> is_double b -> a <= b ->
  round_finite (b - a) < pow2 1024 ->
  is_double (rs k) -> valid_draw (rs k) ->
  exists v : Q,
    generateData rs JSON_stringify fuel s k = Ret (VNum (num_of_Q v)) (S k) /\
    a <= v /\ v <= b.
Proof.
  intros a b He Ht Ha Hb Hab Hfin Hr Hv.
  destruct (getRandomNumber_spec rs a b k Ha Hb Hr Hv Hab Hfin) as (v & Hrun & Hbd).
  exists v. split; [|exact Hbd].
  rewrite (generateData_number _ _ _ _ _ He Ht). fold a b.
  unfold bind. rewrite Hrun. reflexivity.
Qed.

(** C6, as stated, fails: with [minimum = 2^53 < maximum = 2^53 + 2] and
    the draw [0.75], the exact value [2^53 + 1.5] is not a binary64
    value and rounds to [maximum]; the interval is not half-open. *)
Lemma number_upper_bound_attained :
  is_double (inject_Z (2 ^ 53)) /\ is_double (inject_Z (2 ^ 53 + 2)) /\
  is_double (3 # 4) /\ valid_draw (3 # 4) /\
  inject_Z (2 ^ 53) < inject_Z (2 ^ 53 + 2) /\
  exists v : Q,
    generateData three_quarter_draws sample_stringify 0%nat tightNumberSchema 0%nat
      = Ret (VNum (num_of_Q v)) 1%nat /\
    ~ v < inject_Z (2 ^ 53 + 2).
Proof.
  split; [split; vm_compute; reflexivity|].
  split; [split; vm_compute; reflexivity|].
  split; [split; vm_compute; reflexivity|].
  split; [split; vm_compute; [discriminate|reflexivity]|].
  split; [vm_compute; reflexivity|].
  exists (inject_Z (2 ^ 53 + 2)). split.
  - vm_compute. reflexivity.
  - apply Qlt_irrefl.
Qed.

(** When [maximum - minimum] overflows the result is not between the
    bounds at all: it is [Infinity]. *)
Lemma number_difference_overflow :
  generateData three_quarter_draws sample_stringify 0%nat wideNumberSchema 0%nat
    = Ret (VNum PosInfinity) 1%nat.
Proof. vm_compute. reflexivity. Qed.

(** ** Agreement with the Standard Library's binary64 operations

    On every pair of the sample operands (144 pairs for each operator)
    the operators of this development return what [SFadd], [SFsub] and
    [SFmul] of [SpecFloat] return at precision 53 and [emax = 1024]. *)

Example js_add_agrees_with_SFadd :
  agree_on_samples (SFadd 53 1024) js_add = true.
Proof. vm_compute. reflexivity. Qed.

Example js_sub_agrees_with_SFsub :
  agree_on_samples (SFsub 53 1024) js_sub = true.
Proof. vm_compute. reflexivity. Qed.

Example js_mul_agrees_with_SFmul :
  agree_on_samples (SFmul 53 1024) js_mul = true.
Proof. vm_compute. reflexivity. Qed.

(** The run of [number_upper_bound_attained], in the operations of
    [SpecFloat]: [0.75 * ((2^53 + 2) - 2^53) + 2^53] is [2^53 + 2]. *)
Example upper_bound_attained_in_SpecFloat :
  SFadd 53 1024
    (SFmul 53 1024 (SF64 3 (-2))
       (SFsub 53 1024 (SF64 (2 ^ 53 + 2) 0) (SF64 (2 ^ 53) 0)))
    (SF64 (2 ^ 53) 0)
  = SF64 (2 ^ 53 + 2) 0.
Proof. vm_compute. reflexivity. Qed.

(** ** The integer model against binary64

    [getRandomInteger] is embedded in exact arithmetic.  On bounds in the
    safe-integer range the binary64 evaluation of the same expression
    stays an integer between the bounds as well. *)

Lemma round_finite_exact_Z (z : Z) :
  (Z.abs z <= 2 ^ 53)%Z -> round_finite (inject_Z z) == inject_Z z.
Proof.
  intros Hz.
  assert (Hpos : forall m, (0 < m <= 2 ^ 53)%Z ->
                           round_finite (inject_Z m) == inject_Z m).
  { intros m Hm. apply (round_finite_exact_pos _ m 0).
    - apply (Q_of_Z_lt 0). lia.
    - change (pow2 0) with 1. ring.
    - lia.
    - lia. }
  destruct (Z.lt_trichotomy z 0) as [Hn|[->|Hp]].
  - assert (E : inject_Z z == - inject_Z (- z)) by (rewrite inject_Z_opp; ring).
    rewrite (round_finite_comp _ _ E), round_finite_opp, Hpos by lia.
    symmetry. exact E.
  - reflexivity.
  - apply Hpos. lia.
Qed.

(** Between [2^53] and [2^54] the values are the even integers. *)
Lemma round_finite_binade53 (x : Q) :
  inject_Z (2 ^ 53) <= x -> x < inject_Z (2 ^ 54) ->
  round_finite x == 2 * inject_Z (round_half_even (x / 2)).
Proof.
  intros Hlo Hhi.
  assert (Hx : 0 < x).
  { apply Qlt_le_trans with (inject_Z (2 ^ 53)); [reflexivity|exact Hlo]. }
  assert (Hl : ilog2 x = 53%Z).
  { apply ilog2_unique.
    - rewrite (pow2_Z 53) by lia. exact Hlo.
    - rewrite (pow2_Z (53 + 1)) by lia. exact Hhi. }
  assert (Eu : ulp_exp x = 1%Z) by (rewrite (ulp_exp_pos x Hx), Hl; reflexivity).
  rewrite (round_finite_nonzero x) by lra. rewrite Eu.
  change (pow2 1) with 2. ring.
Qed.

(** A tie goes to the even neighbour. *)
Lemma round_half_even_tie (z : Z) :
  round_half_even (inject_Z z + (1 # 2)) = (if Z.even z then z else z + 1)%Z.
Proof.
  assert (Hf : Qfloor (inject_Z z + (1 # 2)) = z).
  { assert (A : (z <= Qfloor (inject_Z z + (1 # 2)))%Z) by (apply Qfloor_ge_Z; lra).
    assert (B : (Qfloor (inject_Z z + (1 # 2)) < z + 1)%Z).
    { apply Qfloor_lt_Z. rewrite inject_Z_plus. change (inject_Z 1) with 1. lra. }
    lia. }
  destruct (round_half_even_cases (inject_Z z + (1 # 2))) as [[H _]|[[H _]|[_ H]]];
    rewrite Hf in *; [exfalso; lra|exfalso; lra|exact H].
Qed.

Lemma half_of_Z (z : Z) :
  inject_Z z / 2 == inject_Z (z / 2) + (if Z.even z then 0 else 1 # 2).
Proof.
  destruct (Z.even z) eqn:E.
  - apply Z.even_spec in E as [k ->].
    rewrite (Z.mul_comm 2 k), Z.div_mul by lia. rewrite inject_Z_mult.
    change (inject_Z 2) with 2. field.
  - assert (O : Z.odd z = true) by (rewrite <- Z.negb_even, E; reflexivity).
    apply Z.odd_spec in O as [k ->].
    replace ((2 * k + 1) / 2)%Z with k by (apply Z.div_unique with 1%Z; lia).
    rewrite inject_Z_plus, inject_Z_mult. change (inject_Z 2) with 2.
    change (inject_Z 1) with 1. field.
Qed.

(** The rounding of an integer of the binade: itself when even, the
    neighbour with the even half when odd. *)
Lemma round_finite_binade53_Z (d : Z) :
  (2 ^ 53 <= d < 2 ^ 54)%Z ->
  exists u : Z,
    round_finite (inject_Z d) == inject_Z u /\
    (if Z.even d then u = d
     else (u = d - 1 \/ u = d + 1)%Z /\ Z.even (u / 2) = true) /\
    Z.even u = true.
Proof.
  intros Hd.
  assert (Hr := round_finite_binade53 (inject_Z d)
                  (Q_of_Z_le _ _ (proj1 Hd)) (Q_of_Z_lt _ _ (proj2 Hd))).
  pose proof (half_of_Z d) as Hh.
  destruct (Z.even d) eqn:E.
  - exists d. rewrite Qplus_0_r in Hh.
    rewrite (round_half_even_comp _ _ Hh), round_half_even_Z in Hr.
    split; [|split; [reflexivity|exact E]].
    rewrite Hr. apply Z.even_spec in E as [k ->].
    rewrite (Z.mul_comm 2 k), Z.div_mul by lia. rewrite inject_Z_mult.
    change (inject_Z 2) with 2. ring.
  - rewrite (round_half_even_comp _ _ Hh), round_half_even_tie in Hr.
    assert (O : Z.odd d = true) by (rewrite <- Z.negb_even, E; reflexivity).
    apply Z.odd_spec in O as [k Hk].
    assert (Hdiv : (d / 2 = k)%Z) by (symmetry; apply Z.div_unique with 1%Z; lia).
    rewrite Hdiv in Hr.
    exists (2 * (if Z.even k then k else k + 1))%Z.
    split; [|split].
    + rewrite Hr, inject_Z_mult. reflexivity.
    + rewrite (Z.mul_comm 2), Z.div_mul by lia.
      destruct (Z.even k) eqn:Ek; split; try lia; try exact Ek.
      rewrite Z.even_add, Ek. reflexivity.
    + rewrite Z.even_mul. reflexivity.
Qed.

Lemma draw_product_below (n r : Q) :
  round_finite n == n -> 1 <= n ->
  round_finite r == r -> 0 <= r -> r < 1 ->
  0 <= round_finite (r * n) /\ round_finite (r * n) < n /\
  r * n <= n - n * pow2 (-53).
Proof.
  intros Hn Hn1 Hr Hr0 Hr1.
  pose proof (double_draw_le r Hr0 Hr1 Hr) as Hle.
  assert (Hx : 0 <= r * n) by (apply Qmult_le_0_compat; lra).
  assert (Hxn : r * n <= n - n * pow2 (-53)) by nra.
  split; [apply round_finite_nonneg, Hx|]. split; [|exact Hxn].
  destruct (Qeq_dec (r * n) 0) as [Z0|NZ].
  - rewrite (round_finite_zero _ Z0). lra.
  - apply (round_below_double n (r * n) Hn).
    + apply Qlt_le_trans with 1; [|exact Hn1].
      change 1 with (pow2 0). apply pow2_lt. lia.
    + apply Qle_lteq in Hx as [H|H]; [exact H|]. exfalso. apply NZ. symmetry. exact H.
    + lra.
Qed.

(** The three roundings before [Math.floor], on safe-integer bounds: the
    product stays below the size [b - a + 1] of the range. *)
Lemma getRandomInteger64_product (a b : Z) (r : Q) :
  (Z.abs a <= 2 ^ 53 - 1)%Z -> (Z.abs b <= 2 ^ 53 - 1)%Z -> (a <= b)%Z ->
  round_finite r == r -> 0 <= r -> r < 1 ->
  let u := round_finite (inject_Z b - inject_Z a) in
  let n := round_finite (u + 1) in
  let t := round_finite (r * n) in
  0 <= u /\ u <= inject_Z (2 ^ 54) /\ 1 <= n /\ n <= inject_Z (2 ^ 54) /\
  0 <= t /\ t < inject_Z (b - a + 1).
Proof.
  intros Ha Hb Hab Hr Hr0 Hr1 u n t.
  set (d := (b - a)%Z).
  assert (Hd : (0 <= d <= 2 ^ 54 - 2)%Z) by (unfold d; lia).
  assert (Ed : inject_Z b - inject_Z a == inject_Z d).
  { unfold d, Z.sub. rewrite inject_Z_plus, inject_Z_opp. reflexivity. }
  assert (Eu0 : u == round_finite (inject_Z d)) by (apply round_finite_comp, Ed).
  destruct (Z_le_gt_dec (d + 1) (2 ^ 53)) as [Small|Large].
  - (* everything is exact *)
    assert (Eu : u == inject_Z d) by (rewrite Eu0; apply round_finite_exact_Z; lia).
    assert (Eu1 : u + 1 == inject_Z (d + 1)).
    { rewrite Eu, inject_Z_plus. reflexivity. }
    assert (En : n == inject_Z (d + 1)).
    { unfold n. rewrite (round_finite_comp _ _ Eu1). apply round_finite_exact_Z. lia. }
    assert (Hnd : round_finite n == n).
    { rewrite En. apply round_finite_exact_Z. lia. }
    assert (Hn1 : 1 <= n) by (rewrite En; apply (Q_of_Z_le 1); lia).
    destruct (draw_product_below n r Hnd Hn1 Hr Hr0 Hr1) as (Ht0 & Htn & _).
    fold t in Ht0, Htn.
    split; [rewrite Eu; apply (Q_of_Z_le 0); lia|].
    split; [rewrite Eu; apply Q_of_Z_le; lia|].
    split; [exact Hn1|]. split; [rewrite En; apply Q_of_Z_le; lia|].
    split; [exact Ht0|]. fold d. rewrite <- En. exact Htn.
  - (* the binade of the even integers *)
    destruct (round_finite_binade53_Z d ltac:(lia)) as (u' & Eu' & Hu' & Hev).
    assert (Eu : u == inject_Z u') by (rewrite Eu0; exact Eu').
    assert (Hu'r : (2 ^ 53 <= u' <= 2 ^ 54 - 2)%Z).
    { destruct (Z.even d) eqn:E; [lia|].
      destruct Hu' as [[->| ->] _].
      - assert (d <> 2 ^ 53)%Z by (intros ->; discriminate E). lia.
      - assert (d <> 2 ^ 54 - 2)%Z by (intros ->; discriminate E). lia. }
    assert (Eu1 : u + 1 == inject_Z (u' + 1)).
    { rewrite Eu, inject_Z_plus. reflexivity. }
    destruct (round_finite_binade53_Z (u' + 1) ltac:(lia)) as (n' & En' & Hn' & Hevn).
    assert (En : n == inject_Z n').
    { unfold n. rewrite (round_finite_comp _ _ Eu1). exact En'. }
    assert (Odd : Z.even (u' + 1) = false) by (rewrite Z.even_add, Hev; reflexivity).
    rewrite Odd in Hn'. destruct Hn' as [Hn' Hhalf].
    replace (u' + 1 - 1)%Z with u' in Hn' by lia.
    replace (u' + 1 + 1)%Z with (u' + 2)%Z in Hn' by lia.
    assert (Hn'r : (2 ^ 53 <= n' <= 2 ^ 54)%Z) by lia.
    assert (Hnd : round_finite n == n).
    { unfold n. apply round_finite_idem_nonneg. rewrite Eu1. apply (Q_of_Z_le 0). lia. }
    assert (Hn1 : 1 <= n) by (rewrite En; apply (Q_of_Z_le 1); lia).
    destruct (draw_product_below n r Hnd Hn1 Hr Hr0 Hr1) as (Ht0 & Htn & Hx).
    fold t in Ht0, Htn.
    split; [rewrite Eu; apply (Q_of_Z_le 0); lia|].
    split; [rewrite Eu; apply Q_of_Z_le; lia|].
    split; [exact Hn1|]. split; [rewrite En; apply Q_of_Z_le; lia|].
    split; [exact Ht0|]. fold d.
    destruct (Z_le_gt_dec n' (d + 1)) as [Hok|Hbig].
    { apply Qlt_le_trans with n; [exact Htn|]. rewrite En. apply Q_of_Z_le, Hok. }
    (* n = d + 2: then d is even, and the product is below d + 1 *)
    assert (Hev_d : Z.even d = true).
    { destruct (Z.even d) eqn:E; [reflexivity|exfalso].
      destruct Hu' as [Hu' Hhu].
      destruct Hn' as [->| ->]; [lia|].
      replace ((u' + 2) / 2)%Z with (u' / 2 + 1)%Z in Hhalf.
      - rewrite Z.even_add, Hhu in Hhalf. discriminate.
      - apply Z.even_spec in Hev as [j ->].
        rewrite (Z.mul_comm 2 j), Z.div_mul by lia.
        replace (j * 2 + 2)%Z with ((j + 1) * 2)%Z by lia.
        rewrite Z.div_mul by lia. reflexivity. }
    rewrite Hev_d in Hu'. subst u'.
    assert (n' = d + 2)%Z by lia. subst n'.
    assert (Hxlt : r * n < inject_Z (d + 1)).
    { assert (Hbig' : 1 < n * pow2 (-53)).
      { rewrite En. apply Qlt_le_trans with (inject_Z (2 ^ 53 + 2) * pow2 (-53)).
        - rewrite inject_Z_plus, <- (pow2_Z 53) by lia.
          assert (One : pow2 53 * pow2 (-53) == 1) by (rewrite <- pow2_add; reflexivity).
          pose proof (pow2_pos (-53)). change (inject_Z 2) with 2. nra.
        - apply Qmult_le_compat_r; [apply Q_of_Z_le; lia|apply Qlt_le_weak, pow2_pos]. }
      rewrite En in Hx, Hbig'. rewrite En.
      rewrite !inject_Z_plus in *. change (inject_Z 2) with 2 in *.
      change (inject_Z 1) with 1. lra. }
    apply Qle_lt_trans with (inject_Z d);
      [|apply Q_of_Z_lt; lia].
    destruct (Qlt_le_dec (r * n) (inject_Z (2 ^ 53))) as [Hlow|Hhigh].
    + apply Qle_trans with (inject_Z (2 ^ 53)); [|apply Q_of_Z_le; lia].
      rewrite <- (round_finite_exact_Z (2 ^ 53)) by lia.
      apply round_finite_mono, Qlt_le_weak, Hlow.
    + unfold t. rewrite (round_finite_binade53 (r * n) Hhigh).
      2:{ apply Qlt_le_trans with (inject_Z (d + 1)); [exact Hxlt|apply Q_of_Z_le; lia]. }
      apply Z.even_spec in Hev_d as [j Hj].
      assert (Hhalf' : r * n / 2 < inject_Z (j + 1) - (1 # 2)).
      { rewrite Hj in Hxlt. rewrite !inject_Z_plus, inject_Z_mult in *.
        change (inject_Z 2) with 2 in *. change (inject_Z 1) with 1 in *.
        apply Qlt_shift_div_r; [reflexivity|]. lra. }
      apply round_half_even_below in Hhalf'.
      rewrite Hj, inject_Z_mult. change (inject_Z 2) with 2.
      apply Qmult_le_l; [reflexivity|]. apply Q_of_Z_le. lia.
Qed.

Lemma Math_floor_num_of_Q (x : Q) : Math_floor_num (num_of_Q x) = num_of_Z (Qfloor x).
Proof.
  unfold Math_floor_num, num_of_Q at 1, num_of_Z, Math_floor.
  apply num_of_Q_ext. rewrite (Qfloor_comp _ _ (this_Q2Qc x)). reflexivity.
Qed.

(** [getRandomInteger] in binary64 on safe-integer bounds [a <= b]: an
    integer between the bounds. *)
Lemma getRandomInteger64_in_range (a b : Z) (r : Q) :
  (Z.abs a <= 2 ^ 53 - 1)%Z -> (Z.abs b <= 2 ^ 53 - 1)%Z -> (a <= b)%Z ->
  is_double r -> valid_draw r ->
  exists z : Z,
    getRandomInteger64 r (inject_Z a) (inject_Z b) = num_of_Z z /\ (a <= z <= b)%Z.
Proof.
  intros Ha Hb Hab [Hr _] [Hr0 Hr1].
  destruct (getRandomInteger64_product a b r Ha Hb Hab Hr Hr0 Hr1)
    as (Hu0 & Hu1 & Hn0 & Hn1 & Ht0 & Ht1).
  set (u := round_finite (inject_Z b - inject_Z a)) in *.
  set (n := round_finite (u + 1)) in *.
  set (t := round_finite (r * n)) in *.
  assert (Hbig : inject_Z (2 ^ 54) < pow2 1024).
  { rewrite <- (pow2_Z 54) by lia. apply pow2_lt. lia. }
  pose proof (pow2_pos 1024) as Hp.
  assert (Hf0 : (0 <= Qfloor t)%Z) by (apply (Qfloor_ge_Z t 0), Ht0).
  assert (Hf1 : (Qfloor t < b - a + 1)%Z) by (apply Qfloor_lt_Z, Ht1).
  exists (Qfloor t + a)%Z. split; [|lia].
  assert (Htn : t <= inject_Z (2 ^ 54)).
  { apply Qle_trans with (inject_Z (b - a + 1)); [apply Qlt_le_weak, Ht1|].
    apply Q_of_Z_le. lia. }
  assert (Esum : inject_Z (Qfloor t) + inject_Z a == inject_Z (Qfloor t + a)).
  { rewrite inject_Z_plus. reflexivity. }
  assert (Ev : round_finite (inject_Z (Qfloor t) + inject_Z a)
               == inject_Z (Qfloor t + a)).
  { rewrite Esum. apply round_finite_exact_Z. lia. }
  assert (Hv : Qabs (inject_Z (Qfloor t + a)) < pow2 1024).
  { apply Qabs_Qlt_condition.
    assert (inject_Z (- 2 ^ 54) <= inject_Z (Qfloor t + a)) by (apply Q_of_Z_le; lia).
    assert (inject_Z (Qfloor t + a) <= inject_Z (2 ^ 54)) by (apply Q_of_Z_le; lia).
    rewrite inject_Z_opp in *. lra. }
  apply Qabs_Qlt_condition in Hv.
  unfold getRandomInteger64.
  rewrite (js_sub_finite (inject_Z b) (inject_Z a)); fold u; [|lra|lra].
  unfold num_of_Z at 1. change (inject_Z 1) with 1.
  rewrite (js_add_finite u 1); fold n; [|lra|lra].
  rewrite (js_mul_finite r n); fold t; [|lra|lra].
  rewrite Math_floor_num_of_Q. unfold num_of_Z at 1.
  rewrite (js_add_finite (inject_Z (Qfloor t)) (inject_Z a)); [|rewrite Ev; lra..].
  unfold num_of_Z. apply num_of_Q_ext, Ev.
Qed.

(** X1.  On bounds in the safe-integer range, and for a binary64 draw,
    the binary64 evaluation of [Math.floor(r * (max - min + 1)) + min]
    is an integer between the bounds, as in the exact model. *)
Lemma getRandomInteger64_within_bounds (a b : Z) (r : Q) :
  (Z.abs a <= 2 ^ 53 - 1)%Z -> (Z.abs b <= 2 ^ 53 - 1)%Z -> (a <= b)%Z ->
  is_double r -> valid_draw r ->
  exists z : Z,
    getRandomInteger64 r (inject_Z a) (inject_Z b) = num_of_Z z /\ (a <= z <= b)%Z.
Proof.
  intros Ha Hb Hab Hd Hv.
  exact (getRandomInteger64_in_range a b r Ha Hb Hab Hd Hv).
Qed.

(** With the default bounds of an integer node. *)
Example getRandomInteger64_defaults :
  getRandomInteger64 (3 # 4) MIN_SAFE_INTEGER MAX_SAFE_INTEGER
    = num_of_Z (2 ^ 52 + 1).
Proof. vm_compute. reflexivity. Qed.

(** * Part II: the store is only ever extended *)

Lemma heap_update_length l f h : List.length (heap_update l f h) = List.length h.
Proof.
  revert l. induction h as [|o rest IH]; intros [|l]; simpl; auto.
Qed.

Lemma heap_update_other l f h l' :
  l' <> l -> nth_error (heap_update l f h) l' = nth_error h l'.
Proof.
  revert l l'. induction h as [|o rest IH]; intros [|l] [|l'] Hne; simpl; auto.
  contradiction.
Qed.

Lemma readonly_keeps {A} n (c : HM A) : readonly c -> keeps n c.
Proof.
  intros Hc h k Hn.
  split; [rewrite Hc; exact Hn|intros l _; rewrite Hc; reflexivity].
Qed.

Lemma keeps_hret {A} n (a : A) : keeps n (hret a).
Proof. intros h k Hn. simpl. split; [exact Hn|reflexivity]. Qed.

Lemma keeps_hdiverge {A} n : keeps n (@hdiverge A).
Proof. intros h k Hn. simpl. split; [exact Hn|reflexivity]. Qed.

Lemma keeps_hbind {A B} n (c : HM A) (f : A -> HM B) :
  keeps n c -> (forall a, keeps n (f a)) -> keeps n (hbind c f).
Proof.
  intros Hc Hf h k Hn. unfold hbind.
  destruct (Hc h k Hn) as [Hlen Hsame].
  destruct (c h k) as [a h' k'|e h' k'|h' k']; simpl in *; auto.
  destruct (Hf a h' k' Hlen) as [Hlen' Hsame'].
  split; [exact Hlen'|]. intros l Hl. rewrite Hsame', Hsame; auto.
Qed.

(** A new location lies above every location that was there. *)
Lemma keeps_alloc {B} n (o : hobj) (f : loc -> HM B) :
  (forall l, (n <= l)%nat -> keeps n (f l)) -> keeps n (hbind (alloc o) f).
Proof.
  intros Hf h k Hn. unfold hbind, alloc.
  assert (Hn' : (n <= List.length (h ++ [o]))%nat) by (rewrite length_app; lia).
  destruct (Hf (List.length h) Hn (h ++ [o]) k Hn') as [Hlen Hsame].
  split; [exact Hlen|]. intros l Hl. rewrite Hsame by exact Hl.
  apply nth_error_app1. lia.
Qed.

Lemma keeps_array_push n l it : (n <= l)%nat -> keeps n (array_push l it).
Proof.
  intros Hl h k Hn. simpl. rewrite heap_update_length. split; [exact Hn|].
  intros l' Hl'. apply heap_update_other. lia.
Qed.

Lemma keeps_object_set n l key v : (n <= l)%nat -> keeps n (object_set l key v).
Proof.
  intros Hl h k Hn. simpl. rewrite heap_update_length. split; [exact Hn|].
  intros l' Hl'. apply heap_update_other. lia.
Qed.

Lemma readonly_hret {A} (a : A) : readonly (hret a).
Proof. intros h k. reflexivity. Qed.

Lemma readonly_with_heap {A} (f : heap -> A) : readonly (with_heap f).
Proof. intros h k. reflexivity. Qed.

Lemma readonly_hbind {A B} (c : HM A) (f : A -> HM B) :
  readonly c -> (forall a, readonly (f a)) -> readonly (hbind c f).
Proof.
  intros Hc Hf h k. unfold hbind. specialize (Hc h k).
  destruct (c h k) as [a h' k'|e h' k'|h' k']; simpl in *; subst; auto.
  apply Hf.
Qed.

Section StoreFrame.

Variable rs : nat -> Q.
Variable js_arith : binop -> heap -> jsval -> jsval -> jsval.
Variable js_floor : heap -> jsval -> jsval.
Variable js_lt : heap -> jsval -> jsval -> bool.
Variable js_charAt : string -> jsval -> string.
Variable key_of_index : nat -> string.
Variable to_key : heap -> jsval -> string.
Variable prim_get : jsval -> string -> jsval.
Variable prim_includes : jsval -> string -> option bool.
Variable JSON_stringify : heap -> jsval -> option (option string).

Lemma readonly_get_prop v key : readonly (get_prop key_of_index prim_get v key).
Proof.
  intros h k. unfold get_prop.
  destruct v; try reflexivity. destruct (nth_error h l); reflexivity.
Qed.

Lemma readonly_get_index a i :
  readonly (get_index key_of_index to_key prim_get a i).
Proof. intros h k. unfold get_index. apply readonly_get_prop. Qed.

Lemma readonly_for_in_keys v : readonly (for_in_keys key_of_index v).
Proof.
  intros h k. unfold for_in_keys.
  destruct v; try reflexivity. destruct (nth_error h l); reflexivity.
Qed.

Lemma readonly_includesH required key : readonly (includesH prim_includes required key).
Proof.
  intros h k. unfold includesH.
  destruct required; try (destruct (prim_includes _ _); reflexivity).
  destruct (nth_error h l) as [[elems|props]|]; reflexivity.
Qed.

Lemma readonly_Math_randomH : readonly (Math_randomH rs).
Proof. intros h k. reflexivity. Qed.

Lemma readonly_arith op x y : readonly (arith js_arith op x y).
Proof. apply readonly_with_heap. Qed.

Lemma readonly_getRandomIntegerH lo hi :
  readonly (getRandomIntegerH rs js_arith js_floor lo hi).
Proof.
  unfold getRandomIntegerH.
  repeat (apply readonly_hbind; [first [apply readonly_Math_randomH
                                       |apply readonly_arith
                                       |apply readonly_with_heap]|intros ?]).
  apply readonly_arith.
Qed.

Lemma readonly_getRandomNumberH lo hi :
  readonly (getRandomNumberH rs js_arith lo hi).
Proof.
  unfold getRandomNumberH.
  repeat (apply readonly_hbind; [first [apply readonly_Math_randomH
                                       |apply readonly_arith]|intros ?]).
  apply readonly_arith.
Qed.

Lemma readonly_getRandomStringH_loop fuel length :
  forall i result,
    readonly (getRandomStringH_loop rs js_arith js_floor js_lt js_charAt
                fuel length i result).
Proof.
  induction fuel as [|fuel IH]; intros i result h k; simpl.
  - destruct (js_lt _ _ _); reflexivity.
  - destruct (js_lt _ _ _); [|reflexivity].
    apply (readonly_hbind _ _ readonly_Math_randomH). intros r.
    apply readonly_hbind; [apply readonly_arith|intros p].
    apply readonly_hbind; [apply readonly_with_heap|intros f]. apply IH.
Qed.

Lemma readonly_getRandomBooleanH : readonly (getRandomBooleanH rs js_lt).
Proof.
  unfold getRandomBooleanH.
  apply (readonly_hbind _ _ readonly_Math_randomH). intros r.
  apply readonly_hbind; [apply readonly_with_heap|intros; apply readonly_hret].
Qed.

Lemma readonly_someH elems item : readonly (someH JSON_stringify elems item).
Proof.
  induction elems as [|e rest IH]; intros h k; simpl; [reflexivity|].
  destruct (JSON_stringify h e) as [x|]; [|reflexivity].
  destruct (JSON_stringify h item) as [y|]; [|reflexivity].
  destruct (json_eqb x y); [reflexivity|apply IH].
Qed.

(** The [while] loop writes to [result] alone. *)
Lemma keeps_generateArrayH_loop n (item : HM jsval) uniqueItems length result :
  keeps n item -> (n <= result)%nat ->
  forall fuel,
    keeps n (generateArrayH_loop js_lt JSON_stringify item uniqueItems length
               result fuel).
Proof.
  intros Hitem Hres fuel. induction fuel as [|fuel IH]; simpl.
  - apply keeps_hbind; [apply readonly_keeps, readonly_with_heap|intros elems].
    apply keeps_hbind; [apply readonly_keeps, readonly_with_heap|intros [|]].
    + apply keeps_hdiverge.
    + apply keeps_hret.
  - apply keeps_hbind; [apply readonly_keeps, readonly_with_heap|intros elems].
    apply keeps_hbind; [apply readonly_keeps, readonly_with_heap|intros [|]];
      [|apply keeps_hret].
    apply keeps_hbind; [exact Hitem|intros it].
    assert (Hpush : keeps n (hbind (array_push result it)
                      (fun _ => generateArrayH_loop js_lt JSON_stringify item
                                  uniqueItems length result fuel))).
    { apply keeps_hbind; [apply keeps_array_push, Hres|intros _; exact IH]. }
    destruct (truthy uniqueItems); [|exact Hpush].
    apply keeps_hbind; [apply readonly_keeps, readonly_with_heap|intros existing].
    apply keeps_hbind; [apply readonly_keeps, readonly_someH|intros [|]];
      [exact IH|exact Hpush].
Qed.

(** The [for ... in] loop writes to [result] alone. *)
Lemma keeps_generateObjectH_loop n (gen : jsval -> HM jsval)
    properties required result :
  (forall v, keeps n (gen v)) -> (n <= result)%nat ->
  forall keys,
    keeps n (generateObjectH_loop rs js_lt key_of_index prim_get prim_includes
               gen properties required result keys).
Proof.
  intros Hgen Hres keys. induction keys as [|key rest IH]; simpl.
  - apply keeps_hret.
  - apply keeps_hbind; [apply readonly_keeps, readonly_includesH|intros isRequired].
    apply keeps_hbind.
    { destruct isRequired; [apply keeps_hret|].
      apply keeps_hbind; [apply readonly_keeps, readonly_Math_randomH|intros r].
      apply readonly_keeps, readonly_with_heap. }
    intros [|]; [|exact IH].
    apply keeps_hbind; [apply readonly_keeps, readonly_get_prop|intros sub].
    apply keeps_hbind; [apply Hgen|intros v].
    apply keeps_hbind; [apply keeps_object_set, Hres|intros _; exact IH].
Qed.

(** Generation leaves every location below [n] as it is, for every [n] up
    to the size of the store it starts from, and however it ends. *)
Lemma keeps_generateDataH fuel :
  forall n schema,
    keeps n (generateDataH rs js_arith js_floor js_lt js_charAt key_of_index
               to_key prim_get prim_includes JSON_stringify fuel schema).
Proof.
  induction fuel as [|fuel IH]; intros n schema; [apply keeps_hdiverge|].
  cbn [generateDataH].
  apply keeps_hbind; [apply readonly_keeps, readonly_get_prop|intros enumValues].
  destruct (truthy enumValues).
  { apply readonly_keeps.
    apply readonly_hbind; [apply readonly_get_prop|intros len].
    apply readonly_hbind; [apply readonly_arith|intros hi].
    apply readonly_hbind; [apply readonly_getRandomIntegerH|intros i].
    apply readonly_get_index. }
  apply keeps_hbind; [apply readonly_keeps, readonly_get_prop|intros type].
  repeat match goal with
  | |- keeps _ (if ?c then _ else _) => destruct c
  end.
  - apply readonly_keeps.
    apply readonly_hbind; [apply readonly_get_prop|intros mn].
    apply readonly_hbind; [apply readonly_get_prop|intros mx].
    apply readonly_getRandomIntegerH.
  - apply readonly_keeps.
    apply readonly_hbind; [apply readonly_get_prop|intros mn].
    apply readonly_hbind; [apply readonly_get_prop|intros mx].
    apply readonly_getRandomNumberH.
  - apply readonly_keeps.
    apply readonly_hbind; [apply readonly_get_prop|intros mn].
    apply readonly_hbind; [apply readonly_get_prop|intros mx].
    apply readonly_hbind; [apply readonly_arith|intros dflt].
    apply readonly_hbind; [apply readonly_getRandomIntegerH|intros len].
    apply readonly_hbind; [apply readonly_getRandomStringH_loop|intros str].
    apply readonly_hret.
  - apply readonly_keeps, readonly_getRandomBooleanH.
  - unfold generateArrayH.
    apply keeps_hbind; [apply readonly_keeps, readonly_get_prop|intros mi].
    apply keeps_hbind; [apply readonly_keeps, readonly_get_prop|intros ma].
    apply keeps_hbind; [apply readonly_keeps, readonly_arith|intros dflt].
    destruct (_ && _).
    { apply keeps_alloc. intros l _. apply keeps_hret. }
    apply keeps_hbind; [apply readonly_keeps, readonly_get_prop|intros u].
    apply keeps_hbind; [apply readonly_keeps, readonly_getRandomIntegerH|intros len].
    apply keeps_hbind; [apply readonly_keeps, readonly_get_prop|intros itemsSchema].
    apply keeps_alloc. intros result Hres.
    apply keeps_hbind; [|intros _; apply keeps_hret].
    apply keeps_generateArrayH_loop; [apply IH|exact Hres].
  - unfold generateObjectH.
    apply keeps_alloc. intros result Hres.
    apply keeps_hbind; [apply readonly_keeps, readonly_get_prop|intros p].
    apply keeps_hbind.
    { destruct (truthy p); [apply keeps_hret|].
      apply keeps_alloc. intros l _. apply keeps_hret. }
    intros properties.
    apply keeps_hbind; [apply readonly_keeps, readonly_get_prop|intros r].
    apply keeps_hbind.
    { destruct (truthy r); [apply keeps_hret|].
      apply keeps_alloc. intros l _. apply keeps_hret. }
    intros required.
    apply keeps_hbind; [apply readonly_keeps, readonly_for_in_keys|intros keys].
    apply keeps_hbind; [|intros _; apply keeps_hret].
    apply keeps_generateObjectH_loop; [intros v; apply IH|exact Hres].
  - apply keeps_hret.
Qed.

End StoreFrame.

(** C9.  A call of [generateRandomData] leaves the schema as it was:
    whatever the node passed, the store it lives in, the draws, the host
    and the fuel, and however the call ends (a value, an exception, or
    still running), every location that existed before the call holds
    afterwards what it held before, so no attribute of the node or of a
    node below it has changed.  A further call from the store the first
    one left therefore reads the same schema, and leaves it as it was
    again. *)
Theorem generation_leaves_schema_unchanged
    (rs : nat -> Q)
    (js_arith : binop -> heap -> jsval -> jsval -> jsval)
    (js_floor : heap -> jsval -> jsval)
    (js_lt : heap -> jsval -> jsval -> bool)
    (js_charAt : string -> jsval -> string)
    (key_of_index : nat -> string)
    (to_key : heap -> jsval -> string)
    (prim_get : jsval -> string -> jsval)
    (prim_includes : jsval -> string -> option bool)
    (JSON_stringify : heap -> jsval -> option (option string))
    (fuel : nat) (schema : jsval) (h : heap) (k : nat) :
  let generate := generateRandomDataH rs js_arith js_floor js_lt js_charAt
                    key_of_index to_key prim_get prim_includes JSON_stringify in
  let h1 := final_heap (generate fuel schema h k) in
  (forall l o, nth_error h l = Some o -> nth_error h1 l = Some o) /\
  (forall fuel' k' l o,
     nth_error h l = Some o ->
     nth_error (final_heap (generate fuel' schema h1 k')) l = Some o).
Proof.
  intros generate h1.
  assert (Hkeep : forall f v h0 k0 l o,
            nth_error h0 l = Some o ->
            nth_error (final_heap (generate f v h0 k0)) l = Some o).
  { intros f v h0 k0 l o Hl.
    destruct (keeps_generateDataH rs js_arith js_floor js_lt js_charAt key_of_index
                to_key prim_get prim_includes JSON_stringify f (List.length h0) v h0 k0
                (le_n _)) as [_ Hsame].
    unfold generate, generateRandomDataH. rewrite Hsame; [exact Hl|].
    apply nth_error_Some. congruence. }
  split.
  - intros l o Hl. apply Hkeep, Hl.
  - intros fuel' k' l o Hl. apply Hkeep. apply Hkeep, Hl.
Qed.
(** * Further properties of the generators *)

(** ** Strings *)

Lemma string_app_assoc (a b c : string) : ((a ++ b) ++ c = a ++ (b ++ c))%string.
Proof. induction a as [|x a IH]; simpl; [reflexivity|now rewrite IH]. Qed.

Lemma string_app_length (a b : string) :
  String.length (a ++ b) = (String.length a + String.length b)%nat.
Proof. induction a as [|x a IH]; simpl; [reflexivity|now rewrite IH]. Qed.

Lemma string_app_chars (a b : string) :
  list_ascii_of_string (a ++ b) = (list_ascii_of_string a ++ list_ascii_of_string b)%list.
Proof. induction a as [|x a IH]; simpl; [reflexivity|now rewrite IH]. Qed.

Lemma string_get_In (s : string) (i : nat) (c : ascii) :
  String.get i s = Some c -> In c (list_ascii_of_string s).
Proof.
  revert i. induction s as [|x s IH]; intros i H; [discriminate|].
  destruct i as [|i]; simpl in *.
  - injection H as ->. now left.
  - right. apply (IH i H).
Qed.

Lemma string_get_Some (s : string) (i : nat) :
  (i < String.length s)%nat -> exists c, String.get i s = Some c.
Proof.
  revert i. induction s as [|x s IH]; intros i H; simpl in H; [lia|].
  destruct i as [|i]; simpl; [eauto|]. apply IH. lia.
Qed.




Lemma generateData_string rs JSON_stringify fuel s k :
  s_enum s = None -> s_type s = Some "string"%string ->
  generateData rs JSON_stringify fuel s k =
  (let minLength := or_default (s_minLength s) 0 in
   let maxLength := or_default (s_maxLength s) (minLength + 20) in
   length <- getRandomInteger rs minLength maxLength ;;
   str <- getRandomString rs length ;;
   ret (VStr str)) k.
Proof.
  intros He Ht. destruct s as [e t mn mx mnl mxl mni mxi u it ps rq]; simpl in He, Ht; subst e t.
  reflexivity.
Qed.

(** ** The value follows the type *)

(** X4.  Without [enum], the value a node returns is of the kind its
    [type] names: a number for [integer] and [number], a string for
    [string], an array for [array], an object for [object]; and for
    [boolean] it is [true] exactly when the one draw taken is below
    [0.5]. *)
Theorem result_kind_follows_type
    (rs : nat -> Q) (JSON_stringify : value -> option string)
    (fuel : nat) (s : schema) (k : nat) (v : value) (k' : nat) :
  s_enum s = None ->
  generateData rs JSON_stringify fuel s k = Ret v k' ->
  (s_type s = Some "integer"%string \/ s_type s = Some "number"%string ->
   exists n, v = VNum n /\ k' = S k) /\
  (s_type s = Some "string"%string -> exists str, v = VStr str) /\
  (s_type s = Some "boolean"%string ->
   exists b, v = VBool b /\ (b = true <-> rs k < 1 # 2) /\ k' = S k) /\
  (s_type s = Some "array"%string -> exists items, v = VArr items) /\
  (s_type s = Some "object"%string -> exists props, v = VObj props).
Proof.
  intros He Hrun.
  destruct s as [e t mn mx mnl mxl mni mxi u it ps rq]; simpl in He; subst e.
  cbn [s_type]. cbn [generateData s_enum s_type] in Hrun.
  split; [|split; [|split; [|split]]].
  - intros [->| ->];
      cbn [or_default String.eqb Ascii.eqb Bool.eqb andb] in Hrun;
      unfold bind, getRandomInteger, getRandomNumber, bind, Math_random, ret in Hrun;
      injection Hrun as <- <-; eauto.
  - intros ->.
    cbn [or_default String.eqb Ascii.eqb Bool.eqb andb] in Hrun.
    unfold bind at 1 in Hrun. unfold getRandomInteger, bind, Math_random, ret in Hrun.
    unfold bind in Hrun.
    destruct (getRandomString _ _ _) as [str k1| |]; try discriminate.
    unfold ret in Hrun. injection Hrun as <- <-. eauto.
  - intros ->.
    cbn [or_default String.eqb Ascii.eqb Bool.eqb andb] in Hrun.
    unfold bind, getRandomBoolean, bind, Math_random, ret in Hrun.
    injection Hrun as <- <-. eexists. split; [reflexivity|].
    split; [apply Qltb_lt|reflexivity].
  - intros ->.
    cbn [or_default String.eqb Ascii.eqb Bool.eqb andb] in Hrun.
    unfold generateArray in Hrun.
    destruct (_ && _); [injection Hrun as <- <-; eauto|].
    unfold bind at 1 in Hrun.
    unfold getRandomInteger, bind, Math_random, ret in Hrun. unfold bind in Hrun.
    destruct (generateArray_loop _ _ _ _ _ _ _) as [out k1| |]; try discriminate.
    unfold ret in Hrun. injection Hrun as <- <-. eauto.
  - intros ->.
    cbn [or_default String.eqb Ascii.eqb Bool.eqb andb] in Hrun.
    unfold generateObject, bind in Hrun. cbn [s_properties] in Hrun.
    destruct ps as [ps|];
      (destruct (generateObject_loop _ _ _ _ _ k) as [out k1| |]; try discriminate);
      unfold ret in Hrun; injection Hrun as <- <-; eauto.
Qed.

(** ** Arrays: where the elements come from *)

Section ArrayItems.

Variable JSON_stringify : value -> option string.
Variable item : M value.

(** Whatever the loop holds was returned by the item generator. *)
Lemma generateArray_loop_items (P : value -> Prop) (uniqueItems : bool) (length : Q) :
  (forall k0 v k1, item k0 = Ret v k1 -> P v) ->
  forall (fuel : nat) (result : list value) (k : nat) (out : list value) (k' : nat),
    Forall P result ->
    generateArray_loop JSON_stringify item uniqueItems length fuel result k
      = Ret out k' ->
    Forall P out.
Proof.
  intros Hitem fuel.
  induction fuel as [|fuel IH]; intros result k out k' Hres Hrun; simpl in Hrun;
    (destruct (Qltb _ _); [|injection Hrun as <- <-; exact Hres]);
    [discriminate|].
  destruct (item k) as [it k1| |] eqn:Hit; try discriminate.
  assert (Hpush : Forall P (result ++ [it])).
  { apply Forall_app. split; [exact Hres|]. constructor; [|constructor].
    apply (Hitem _ _ _ Hit). }
  destruct uniqueItems; [destruct (isUnique _ _ _)|]; eauto.
Qed.

(** The loop throws only what the item generator throws. *)
Lemma generateArray_loop_throws (uniqueItems : bool) (length : Q) (e : error) :
  forall (fuel : nat) (result : list value) (k : nat),
    generateArray_loop JSON_stringify item uniqueItems length fuel result k
      = Throw e ->
    exists k0, item k0 = Throw e.
Proof.
  intros fuel.
  induction fuel as [|fuel IH]; intros result k Hrun; simpl in Hrun;
    (destruct (Qltb _ _); [|discriminate]); [discriminate|].
  destruct (item k) as [it k1| |] eqn:Hit; try discriminate.
  - destruct uniqueItems; [destruct (isUnique _ _ _)|]; eauto.
  - injection Hrun as ->. exists k. exact Hit.
Qed.

(** Without [uniqueItems] the loop leaves within as many iterations as
    any integer above the drawn length. *)
Lemma generateArray_loop_returns_within (length : Q) (z : Z) :
  length <= inject_Z z ->
  (forall k, exists v k', item k = Ret v k') ->
  forall (fuel : nat) (result : list value) (k : nat),
    (z - Z.of_nat (List.length result) <= Z.of_nat fuel)%Z ->
    exists out k',
      generateArray_loop JSON_stringify item false length fuel result k = Ret out k'.
Proof.
  intros Hlen Htot fuel.
  assert (Hc : forall n, Qltb (Q_of_nat n) length = true -> (Z.of_nat n < z)%Z).
  { intros n H. apply Qltb_lt in H. apply Z_of_Q_lt.
    apply (Qlt_le_trans _ _ _ H Hlen). }
  induction fuel as [|fuel IH]; intros result k Hfuel; simpl;
    destruct (Qltb (Q_of_nat (List.length result)) length) eqn:E; eauto.
  - apply Hc in E. lia.
  - apply Hc in E. destruct (Htot k) as (v & k1 & ->).
    apply IH. rewrite length_app. simpl. lia.
Qed.

End ArrayItems.

(** X6.  Every element of a generated array is a value that
    [generateData] returned for the node under [items]; so whatever
    holds of all values of that node holds of all elements. *)
Theorem array_elements_come_from_items
    (rs : nat -> Q) (JSON_stringify : value -> option string)
    (fuel : nat) (s : schema) (k : nat) (v : value) (k' : nat) :
  s_enum s = None ->
  s_type s = Some "array"%string ->
  generateData rs JSON_stringify fuel s k = Ret v k' ->
  exists items,
    v = VArr items /\
    Forall (fun x => exists it k0 k1,
                       s_items s = Some it /\
                       generateData rs JSON_stringify fuel it k0 = Ret x k1) items.
Proof.
  intros He Ht Hrun.
  rewrite (generateData_array _ _ _ _ _ He Ht) in Hrun. unfold generateArray in Hrun.
  destruct (_ && _).
  { injection Hrun as <- <-. exists []. split; [reflexivity|constructor]. }
  unfold bind at 1 in Hrun.
  unfold getRandomInteger, bind, Math_random, ret in Hrun. unfold bind in Hrun.
  destruct (generateArray_loop _ _ _ _ _ _ _) as [out k1| |] eqn:Hloop;
    try discriminate.
  unfold ret in Hrun. injection Hrun as <- <-.
  exists out. split; [reflexivity|].
  set (item := generateData_of (generateData rs JSON_stringify fuel) (s_items s)) in *.
  apply (generateArray_loop_items JSON_stringify item
           (fun x => exists k0 k2, item k0 = Ret x k2)) in Hloop;
    [|intros k0 x k2 H; eauto|constructor].
  revert Hloop. apply Forall_impl. intros x (k0 & k2 & Hx).
  unfold item in Hx. destruct (s_items s) as [it|]; [|discriminate].
  exists it. cbn [generateData_of] in Hx. eauto.
Qed.

(** X7.  An array node without [items] is generated as long as no item
    is needed, and throws a [TypeError] at the first item: with
    [0 < minItems] always ([generateData] then reads [enum] of
    [undefined]), with [minItems = 0 < maxItems] unless the length drawn
    is [0]. *)
Theorem array_without_items
    (rs : nat -> Q) (JSON_stringify : value -> option string)
    (fuel : nat) (s : schema) (a b : nat) (k : nat) :
  valid_draw (rs k) ->
  s_enum s = None ->
  s_type s = Some "array"%string ->
  s_items s = None ->
  or_default (s_minItems s) 0 == Q_of_nat a ->
  or_default (s_maxItems s) (or_default (s_minItems s) 0 + 10) == Q_of_nat b ->
  (a <= b)%nat -> (0 < b)%nat ->
  let run := generateData rs JSON_stringify (S fuel) s k in
  (run = Ret (VArr []) (S k) \/ exists msg, run = Throw (TypeError msg)) /\
  ((0 < a)%nat -> exists msg, run = Throw (TypeError msg)).
Proof.
  intros Hr He Ht Hit Ha Hb Hab Hb0 run.
  destruct (getRandomInteger_spec rs _ _ (Z.of_nat a) (Z.of_nat b) k
              Hr Ha Hb ltac:(lia)) as (n & Hn & Hv & Hbd).
  set (z := (Qfloor (rs k * inject_Z (Z.of_nat b - Z.of_nat a + 1)) + Z.of_nat a)%Z) in *.
  assert (Erun : run = if Qltb (Q_of_nat 0) n
                       then generateData_of (generateData rs JSON_stringify (S fuel))
                              None (S k)
                       else Ret (VArr []) (S k)).
  { unfold run. rewrite (generateData_array _ _ _ _ _ He Ht). unfold generateArray.
    replace (Qeq_bool (or_default (s_maxItems s) (or_default (s_minItems s) 0 + 10)) 0)
      with false.
    2:{ symmetry. apply not_true_iff_false. rewrite Qeq_bool_iff, Hb.
        unfold Q_of_nat. change 0 with (inject_Z 0).
        rewrite inject_Z_injective. lia. }
    rewrite andb_false_r.
    unfold bind at 1. rewrite Hn. unfold bind. rewrite Hit.
    cbn [generateArray_loop List.length].
    destruct (Qltb (Q_of_nat 0) n); reflexivity. }
  pose proof (Q_of_nat_lt 0 z n Hv) as Hc.
  assert (Hsome : (0 < z)%Z -> exists msg, run = Throw (TypeError msg)).
  { intros Hz. rewrite Erun.
    replace (Qltb (Q_of_nat 0) n) with true by (symmetry; apply Hc; simpl; lia).
    cbn [generateData_of]. unfold throw. eauto. }
  split.
  - destruct (Z_lt_le_dec 0 z) as [Hz|Hz]; [right; auto|left].
    rewrite Erun.
    replace (Qltb (Q_of_nat 0) n) with false; [reflexivity|].
    symmetry. apply not_true_iff_false. rewrite Hc. simpl. lia.
  - intros Ha0. apply Hsome. lia.
Qed.

(** ** Whole schemas *)

Lemma all_nodes_here (P : schema -> Prop) (s : schema) : all_nodes P s -> P s.
Proof. destruct s. simpl. tauto. Qed.

Lemma all_nodes_items (P : schema -> Prop) (s : schema) :
  all_nodes P s -> items_node (all_nodes P) (s_items s).
Proof.
  destruct s as [e t mn mx mnl mxl mni mxi u it ps rq]. cbn [all_nodes s_items].
  intros (_ & H & _). destruct it; [exact H|exact I].
Qed.

Lemma all_nodes_properties (P : schema -> Prop) (s : schema) :
  all_nodes P s -> property_nodes (all_nodes P) (s_properties s).
Proof.
  destruct s as [e t mn mx mnl mxl mni mxi u it ps rq].
  cbn [all_nodes s_properties]. intros (_ & _ & H).
  destruct ps as [ps|]; [|exact I]. cbn [property_nodes].
  induction ps as [|p rest IH]; constructor; [apply H|apply IH, H].
Qed.

Lemma type_is (t : option string) (name : string) :
  name <> EmptyString ->
  String.eqb (or_default t EmptyString) name = true -> t = Some name.
Proof.
  intros Hne H. apply String.eqb_eq in H. destruct t; simpl in H; congruence.
Qed.

(** The [for ... in] loop throws only what the generation of a declared
    node throws. *)
Lemma generateObject_loop_throws rs (gd : schema -> M value) required (e : error) :
  forall properties result k,
    generateObject_loop rs gd required properties result k = Throw e ->
    exists key sub k0, In (key, sub) properties /\ gd sub k0 = Throw e.
Proof.
  induction properties as [|[key sub] rest IH]; intros result k Hrun; [discriminate|].
  assert (Hrest : forall res k1,
            generateObject_loop rs gd required rest res k1 = Throw e ->
            exists key0 sub0 k0, In (key0, sub0) ((key, sub) :: rest) /\
                                 gd sub0 k0 = Throw e).
  { intros res k1 H. destruct (IH _ _ H) as (key0 & sub0 & k0 & Hin & Hk).
    exists key0, sub0, k0. split; [now right|exact Hk]. }
  assert (Hhere : forall k0, gd sub k0 = Throw e ->
            exists key0 sub0 k1, In (key0, sub0) ((key, sub) :: rest) /\
                                 gd sub0 k1 = Throw e).
  { intros k0 H. exists key, sub, k0. split; [now left|exact H]. }
  simpl in Hrun. unfold bind at 1 in Hrun.
  destruct (includes required key).
  - unfold ret, bind in Hrun.
    destruct (gd sub k) as [v0 k1| |] eqn:Hg; try discriminate; eauto.
    injection Hrun as ->. eauto.
  - unfold Math_random, ret, bind in Hrun.
    destruct (Qltb (rs k) literal_0_7); [|eauto].
    destruct (gd sub (S k)) as [v0 k1| |] eqn:Hg; try discriminate; eauto.
    injection Hrun as ->. eauto.
Qed.


(** An integer above every length that [getRandomInteger] can draw. *)
Lemma getRandomInteger_le (r min max : Q) :
  valid_draw r ->
  Math_floor (r * (max - min + 1)) + min
    <= inject_Z (Qceiling (Qabs (max - min + 1) + min)).
Proof.
  intros [Hr0 Hr1].
  eapply Qle_trans; [|apply Qle_ceiling].
  apply Qplus_le_l. unfold Math_floor.
  eapply Qle_trans; [apply Qfloor_le|].
  set (d := max - min + 1).
  destruct (Qlt_le_dec d 0) as [Hd|Hd].
  - rewrite (Qabs_neg d) by lra. nra.
  - rewrite (Qabs_pos d) by lra. nra.
Qed.

(** ** Objects: the order of the keys *)

Lemma obj_set_new key v o :
  ~ In key (map fst o) -> obj_set key v o = (o ++ [(key, v)])%list.
Proof.
  induction o as [|[k' v'] rest IH]; intros Hnew; simpl; [reflexivity|].
  destruct (String.eqb_spec key k') as [->|Hne].
  - exfalso. apply Hnew. now left.
  - rewrite IH; [reflexivity|]. intros H. apply Hnew. now right.
Qed.

Lemma filter_ext_in_keys (f g : string -> bool) (l : list string) :
  (forall x, In x l -> f x = g x) -> filter f l = filter g l.
Proof.
  induction l as [|x l IH]; intros H; simpl; [reflexivity|].
  rewrite (H x (or_introl eq_refl)), IH; [reflexivity|].
  intros y Hy. apply H. now right.
Qed.

(** The loop appends the keys it takes, in the order in which it visits
    them. *)
Lemma generateObject_loop_order rs (gd : schema -> M value) required :
  forall properties result k out k',
    NoDup (map fst result ++ map fst properties) ->
    generateObject_loop rs gd required properties result k = Ret out k' ->
    exists keep : string -> bool,
      map fst out = (map fst result ++ filter keep (map fst properties))%list /\
      forall key, includes required key = true -> keep key = true.
Proof.
  induction properties as [|[key sub] rest IH]; intros result k out k' Hnd Hrun.
  - injection Hrun as <- <-. exists (fun _ => true).
    simpl. rewrite app_nil_r. split; reflexivity.
  - cbn [map fst] in Hnd.
    assert (Hfresh : ~ In key (map fst result) /\ ~ In key (map fst rest)).
    { apply NoDup_remove_2 in Hnd. rewrite in_app_iff in Hnd. tauto. }
    assert (Hnd_skip : NoDup (map fst result ++ map fst rest))
      by (apply NoDup_remove_1 in Hnd; exact Hnd).
    assert (Hnd_take : forall v, NoDup (map fst (obj_set key v result) ++ map fst rest)).
    { intros v. rewrite obj_set_new by tauto. rewrite map_app, <- app_assoc. exact Hnd. }
    assert (Htake : forall v k1,
              generateObject_loop rs gd required rest (obj_set key v result) k1
                = Ret out k' ->
              exists keep : string -> bool,
                map fst out
                  = (map fst result ++ filter keep (map fst ((key, sub) :: rest)))%list /\
                forall x, includes required x = true -> keep x = true).
    { intros v k1 H. destruct (IH _ _ _ _ (Hnd_take v) H) as (keep & Hk & Hr).
      exists (fun x => String.eqb x key || keep x). split.
      - rewrite Hk, obj_set_new by tauto. cbn [map fst filter].
        rewrite String.eqb_refl. cbn [orb]. rewrite map_app, <- app_assoc.
        cbn [map fst app]. f_equal. f_equal. apply filter_ext_in_keys.
        intros x Hx. destruct (String.eqb_spec x key) as [->|_]; [tauto|reflexivity].
      - intros x Hx. rewrite (Hr x Hx). apply orb_true_r. }
    simpl in Hrun. unfold bind at 1 in Hrun.
    destruct (includes required key) eqn:Hreq.
    + unfold ret, bind in Hrun.
      destruct (gd sub k) as [v0 k1| |]; try discriminate. eauto.
    + unfold Math_random, ret, bind in Hrun.
      destruct (Qltb (rs k) literal_0_7).
      * destruct (gd sub (S k)) as [v0 k1| |]; try discriminate. eauto.
      * destruct (IH _ _ _ _ Hnd_skip Hrun) as (keep & Hk & Hr).
        exists (fun x => negb (String.eqb x key) && keep x). split.
        -- rewrite Hk. cbn [map fst filter]. rewrite String.eqb_refl. cbn [negb andb].
           f_equal. apply filter_ext_in_keys.
           intros x Hx. destruct (String.eqb_spec x key) as [->|_]; [tauto|reflexivity].
        -- intros x Hx. rewrite (Hr x Hx).
           destruct (String.eqb_spec x key) as [->|_]; [congruence|reflexivity].
Qed.

Lemma generateData_object rs JSON_stringify fuel s k :
  s_enum s = None -> s_type s = Some "object"%string ->
  generateData rs JSON_stringify fuel s k =
  generateObject rs (generateData rs JSON_stringify fuel) s k.
Proof.
  intros He Ht. destruct s as [e t mn mx mnl mxl mni mxi u it ps rq];
    simpl in He, Ht; subst e t.
  reflexivity.
Qed.

(** X11.  Every property of a generated object, required or not, holds
    a value that [generateData] returned for a node declared under that
    key. *)
Theorem object_values_come_from_declared_nodes
    (rs : nat -> Q) (JSON_stringify : value -> option string)
    (fuel : nat) (s : schema) (k : nat) (v : value) (k' : nat) :
  s_enum s = None ->
  s_type s = Some "object"%string ->
  generateData rs JSON_stringify fuel s k = Ret v k' ->
  exists out,
    v = VObj out /\
    forall key x,
      obj_get key out = Some x ->
      exists sub k1 k2,
        In (key, sub) (or_default (s_properties s) []) /\
        generateData rs JSON_stringify fuel sub k1 = Ret x k2.
Proof.
  intros He Ht Hrun.
  rewrite (generateData_object _ _ _ _ _ He Ht) in Hrun.
  unfold generateObject, bind in Hrun.
  assert (Hloop : forall k0,
            match s_properties s with
            | Some ps => generateObject_loop rs (generateData rs JSON_stringify fuel)
                           (or_default (s_required s) []) ps []
            | None => generateObject_loop rs (generateData rs JSON_stringify fuel)
                        (or_default (s_required s) []) [] []
            end k0
            = generateObject_loop rs (generateData rs JSON_stringify fuel)
                (or_default (s_required s) []) (or_default (s_properties s) []) [] k0).
  { intros k0. now destruct (s_properties s). }
  rewrite Hloop in Hrun.
  destruct (generateObject_loop _ _ _ _ _ _) as [out k1| |] eqn:Hl; try discriminate.
  unfold ret in Hrun. injection Hrun as <- <-.
  exists out. split; [reflexivity|]. intros key x Hx.
  destruct (generateObject_loop_values _ _ _ _ _ _ _ _ Hl key x Hx) as [Hnil|H];
    [discriminate|exact H].
Qed.

(** ** Number nodes whose bounds are in the wrong order *)

Lemma getRandomNumber_bounds_swapped (a b r : Q) :
  round_finite a == a -> round_finite b == b -> round_finite r == r ->
  0 <= r -> r < 1 -> b <= a ->
  let u := round_finite (b - a) in
  let t := round_finite (r * u) in
  let v := round_finite (t + a) in
  u <= 0 /\ u <= t /\ t <= 0 /\ b <= v /\ v <= a.
Proof.
  intros Ha Hb Hr Hr0 Hr1 Hab u t v.
  assert (Ha' : round_finite (- a) == - a) by (rewrite round_finite_opp, Ha; reflexivity).
  assert (Hb' : round_finite (- b) == - b) by (rewrite round_finite_opp, Hb; reflexivity).
  destruct (getRandomNumber_bounds (- a) (- b) r Ha' Hb' Hr Hr0 Hr1 ltac:(lra))
    as (Hu0 & Ht0 & Htu & Hva & Hvb).
  assert (Eu : round_finite (- b - - a) == - u).
  { unfold u. rewrite <- round_finite_opp. apply round_finite_comp. ring. }
  assert (Et : round_finite (r * round_finite (- b - - a)) == - t).
  { unfold t. rewrite <- round_finite_opp. apply round_finite_comp. rewrite Eu. ring. }
  assert (Ev : round_finite (round_finite (r * round_finite (- b - - a)) + - a) == - v).
  { unfold v. rewrite <- round_finite_opp. apply round_finite_comp. rewrite Et. ring. }
  rewrite Ev in Hva, Hvb. rewrite Et in Ht0, Htu. rewrite Eu in Hu0, Htu.
  repeat split; lra.
Qed.

(** X12.  The bounds of a number node are not checked either.  With
    binary64 bounds [minimum = a >= b = maximum] whose difference is
    finite, and a binary64 draw in [[0, 1)], the node yields a finite
    value between the two, [b <= v <= a], after one draw. *)
Theorem number_bounds_in_wrong_order
    (rs : nat -> Q) (JSON_stringify : value -> option string)
    (fuel : nat) (s : schema) (k : nat) :
  let a := or_default (s_minimum s) (- (10000000000 # 1)) in
  let b := or_default (s_maximum s) (10000000000 # 1) in
  s_enum s = None ->
  s_type s = Some "number"%string ->
  is_double a -> is_double b -> b <= a ->
  - pow2 1024 < round_finite (b - a) ->
  is_double (rs k) -> valid_draw (rs k) ->
  exists v : Q,
    generateData rs JSON_stringify fuel s k = Ret (VNum (num_of_Q v)) (S k) /\
    b <= v /\ v <= a.
Proof.
  intros a b He Ht [Ha Ha'] [Hb Hb'] Hab Hfin [Hr _] [Hr0 Hr1].
  destruct (getRandomNumber_bounds_swapped a b (rs k) Ha Hb Hr Hr0 Hr1 Hab)
    as (Hu0 & Hut & Ht0 & Hvb & Hva).
  set (u := round_finite (b - a)) in *.
  set (t := round_finite (rs k * u)) in *.
  set (v := round_finite (t + a)) in *.
  apply Qabs_Qlt_condition in Ha', Hb'.
  pose proof (pow2_pos 1024) as Hp.
  exists v. split; [|split; assumption].
  rewrite (generateData_number _ _ _ _ _ He Ht). fold a b.
  unfold bind, getRandomNumber, bind, Math_random, ret. f_equal. f_equal.
  rewrite (js_sub_finite b a); fold u; [|lra|lra].
  rewrite (js_mul_finite (rs k) u); fold t; [|lra|lra].
  rewrite (js_add_finite t a); fold v; [reflexivity|lra|lra].
Qed.

(** ** [getRandomInteger] in binary64, against its exact reading *)

(** Rounding moves [Math.floor] by one at most, and only upwards. *)
Lemma floor_round_near (x : Q) :
  0 <= x -> x < inject_Z (2 ^ 53) ->
  (Qfloor x <= Qfloor (round_finite x) <= Qfloor x + 1)%Z.
Proof.
  intros Hx0 Hx1.
  assert (Hf0 : (0 <= Qfloor x)%Z) by (apply (Qfloor_ge_Z x 0), Hx0).
  assert (Hf1 : (Qfloor x < 2 ^ 53)%Z).
  { apply Z_of_Q_lt. apply Qle_lt_trans with x; [apply Qfloor_le|exact Hx1]. }
  split.
  - apply Qfloor_ge_Z.
    rewrite <- (round_finite_exact_Z (Qfloor x)) by lia.
    apply round_finite_mono, Qfloor_le.
  - apply Z_of_Q_le.
    apply Qle_trans with (round_finite x); [apply Qfloor_le|].
    rewrite <- (round_finite_exact_Z (Qfloor x + 1)) by lia.
    apply round_finite_mono, Qlt_le_weak, Qlt_floor.
Qed.

(** The value of the binary64 evaluation, on safe-integer bounds. *)
Lemma getRandomInteger64_value (a b : Z) (r : Q) :
  (Z.abs a <= 2 ^ 53 - 1)%Z -> (Z.abs b <= 2 ^ 53 - 1)%Z -> (a <= b)%Z ->
  is_double r -> valid_draw r ->
  let t := round_finite (r * round_finite (round_finite (inject_Z b - inject_Z a) + 1)) in
  getRandomInteger64 r (inject_Z a) (inject_Z b) = num_of_Z (Qfloor t + a) /\
  (a <= Qfloor t + a <= b)%Z.
Proof.
  intros Ha Hb Hab [Hr _] [Hr0 Hr1].
  destruct (getRandomInteger64_product a b r Ha Hb Hab Hr Hr0 Hr1)
    as (Hu0 & Hu1 & Hn0 & Hn1 & Ht0 & Ht1).
  set (u := round_finite (inject_Z b - inject_Z a)) in *.
  set (n := round_finite (u + 1)) in *.
  set (t := round_finite (r * n)) in *.
  assert (Hbig : inject_Z (2 ^ 54) < pow2 1024).
  { rewrite <- (pow2_Z 54) by lia. apply pow2_lt. lia. }
  pose proof (pow2_pos 1024) as Hp.
  assert (Hf0 : (0 <= Qfloor t)%Z) by (apply (Qfloor_ge_Z t 0), Ht0).
  assert (Hf1 : (Qfloor t < b - a + 1)%Z) by (apply Qfloor_lt_Z, Ht1).
  cbv zeta. split; [|lia].
  assert (Htn : t <= inject_Z (2 ^ 54)).
  { apply Qle_trans with (inject_Z (b - a + 1)); [apply Qlt_le_weak, Ht1|].
    apply Q_of_Z_le. lia. }
  assert (Esum : inject_Z (Qfloor t) + inject_Z a == inject_Z (Qfloor t + a)).
  { rewrite inject_Z_plus. reflexivity. }
  assert (Ev : round_finite (inject_Z (Qfloor t) + inject_Z a)
               == inject_Z (Qfloor t + a)).
  { rewrite Esum. apply round_finite_exact_Z. lia. }
  assert (Hv : Qabs (inject_Z (Qfloor t + a)) < pow2 1024).
  { apply Qabs_Qlt_condition.
    assert (inject_Z (- 2 ^ 54) <= inject_Z (Qfloor t + a)) by (apply Q_of_Z_le; lia).
    assert (inject_Z (Qfloor t + a) <= inject_Z (2 ^ 54)) by (apply Q_of_Z_le; lia).
    rewrite inject_Z_opp in *. lra. }
  apply Qabs_Qlt_condition in Hv.
  unfold getRandomInteger64.
  rewrite (js_sub_finite (inject_Z b) (inject_Z a)); fold u; [|lra|lra].
  unfold num_of_Z at 1. change (inject_Z 1) with 1.
  rewrite (js_add_finite u 1); fold n; [|lra|lra].
  rewrite (js_mul_finite r n); fold t; [|lra|lra].
  rewrite Math_floor_num_of_Q. unfold num_of_Z at 1.
  rewrite (js_add_finite (inject_Z (Qfloor t)) (inject_Z a)); [|rewrite Ev; lra..].
  unfold num_of_Z. apply num_of_Q_ext, Ev.
Qed.

(** X13.  The exact reading of [getRandomInteger] against the binary64
    evaluation of the same expression.  For bounds [a <= b] in the
    safe-integer range with at most [2^53] integers between them and a
    binary64 draw in [[0, 1)], the binary64 result is the exact result
    [z] or its successor [z + 1], and never leaves [[a, b]]: the rounding
    of the product can carry a draw just below a boundary over it. *)
Theorem getRandomInteger64_exact_or_next
    (rs : nat -> Q) (a b : Z) (k : nat) :
  (Z.abs a <= 2 ^ 53 - 1)%Z -> (Z.abs b <= 2 ^ 53 - 1)%Z -> (a <= b)%Z ->
  (b - a + 1 <= 2 ^ 53)%Z ->
  is_double (rs k) -> valid_draw (rs k) ->
  exists (n : Q) (z : Z),
    getRandomInteger rs (inject_Z a) (inject_Z b) k = Ret n (S k) /\
    n == inject_Z z /\ (a <= z <= b)%Z /\
    (getRandomInteger64 (rs k) (inject_Z a) (inject_Z b) = num_of_Z z \/
     getRandomInteger64 (rs k) (inject_Z a) (inject_Z b) = num_of_Z (z + 1) /\
     (z + 1 <= b)%Z).
Proof.
  intros Ha Hb Hab Hsmall Hd Hv.
  destruct (getRandomInteger_spec rs (inject_Z a) (inject_Z b) a b k Hv
              ltac:(reflexivity) ltac:(reflexivity) Hab) as (n & Hn & En & Hbd).
  set (x := rs k * inject_Z (b - a + 1)) in *.
  destruct (getRandomInteger64_value a b (rs k) Ha Hb Hab Hd Hv) as [Hval Hin].
  set (t := round_finite (rs k * round_finite
                            (round_finite (inject_Z b - inject_Z a) + 1))) in *.
  assert (Et : t == round_finite x).
  { unfold t, x. apply round_finite_comp. apply Qmult_comp; [reflexivity|].
    assert (Ed : inject_Z b - inject_Z a == inject_Z (b - a)).
    { unfold Z.sub. rewrite inject_Z_plus, inject_Z_opp. reflexivity. }
    rewrite (round_finite_comp _ _ Ed), (round_finite_exact_Z (b - a)) by lia.
    assert (E1 : inject_Z (b - a) + 1 == inject_Z (b - a + 1)).
    { rewrite (inject_Z_plus (b - a) 1). reflexivity. }
    rewrite (round_finite_comp _ _ E1). apply round_finite_exact_Z. lia. }
  destruct Hv as [Hr0 Hr1].
  assert (Hn1 : 1 <= inject_Z (b - a + 1)) by (apply (Q_of_Z_le 1); lia).
  assert (Hx0 : 0 <= x) by (unfold x; nra).
  assert (Hx1 : x < inject_Z (2 ^ 53)).
  { apply Qlt_le_trans with (inject_Z (b - a + 1)); [unfold x; nra|].
    apply Q_of_Z_le. lia. }
  pose proof (floor_round_near x Hx0 Hx1) as Hnear.
  rewrite <- (Qfloor_comp _ _ Et) in Hnear.
  exists n, (Qfloor x + a)%Z. split; [exact Hn|]. split; [exact En|].
  split; [exact Hbd|].
  destruct (Z.eq_dec (Qfloor t) (Qfloor x)) as [E|NE].
  - left. rewrite Hval, E. reflexivity.
  - right. assert (E : Qfloor t = (Qfloor x + 1)%Z) by lia.
    rewrite E in Hval, Hin. split; [|lia].
    rewrite Hval. f_equal. lia.
Qed.

(** The successor does occur: the binary64 value next below [1/3],
    multiplied by [3], rounds to [1]. *)
Example getRandomInteger64_next_attained :
  let r := 6004799503160661 # 18014398509481984 in
  is_double r /\ valid_draw r /\
  Qfloor (r * 3) = 0%Z /\
  getRandomInteger64 r 0 2 = num_of_Z 1.
Proof.
  split; [split; vm_compute; reflexivity|].
  split; [split; vm_compute; [discriminate|reflexivity]|].
  split; [vm_compute; reflexivity|].
  vm_compute. f_equal. apply Qc_is_canon. reflexivity.
Qed.

(** * Part II: what a call returns, in the store *)

Lemma heap_update_same l f h o :
  nth_error h l = Some o -> nth_error (heap_update l f h) l = Some (f o).
Proof.
  revert l. induction h as [|x h IH]; intros [|l] H; simpl in *; try discriminate.
  - injection H as ->. reflexivity.
  - apply IH, H.
Qed.

Lemma preserves_hbind {A B} (P : heap -> Prop) (c : HM A) (f : A -> HM B) :
  preserves P c -> (forall a, preserves P (f a)) -> preserves P (hbind c f).
Proof.
  intros Hc Hf h k Hp. unfold hbind. specialize (Hc h k Hp).
  destruct (c h k) as [a h1 k1|e h1 k1|h1 k1]; simpl in *; [|exact Hc..].
  apply Hf, Hc.
Qed.

Lemma preserves_readonly {A} (P : heap -> Prop) (c : HM A) :
  readonly c -> preserves P c.
Proof. intros Hc h k Hp. now rewrite Hc. Qed.

Lemma preserves_hret {A} (P : heap -> Prop) (a : A) : preserves P (hret a).
Proof. intros h k Hp. exact Hp. Qed.

Lemma preserves_hdiverge {A} (P : heap -> Prop) : preserves P (@hdiverge A).
Proof. intros h k Hp. exact Hp. Qed.

(** A run that keeps the locations up to [l] leaves what [l] holds. *)
Lemma preserves_keeps_array {A} (l : loc) (c : HM A) :
  keeps (S l) c -> preserves (holds_array l) c.
Proof.
  intros Hc h k (elems & Hl).
  assert (Hlen : (S l <= List.length h)%nat).
  { apply Nat.le_succ_l, nth_error_Some. congruence. }
  destruct (Hc h k Hlen) as [_ Hsame]. exists elems. rewrite Hsame; [exact Hl|lia].
Qed.

Lemma preserves_keeps_object {A} (l : loc) (c : HM A) :
  keeps (S l) c -> preserves (holds_object l) c.
Proof.
  intros Hc h k (props & Hl).
  assert (Hlen : (S l <= List.length h)%nat).
  { apply Nat.le_succ_l, nth_error_Some. congruence. }
  destruct (Hc h k Hlen) as [_ Hsame]. exists props. rewrite Hsame; [exact Hl|lia].
Qed.

Lemma preserves_array_push (l : loc) (it : jsval) :
  preserves (holds_array l) (array_push l it).
Proof.
  intros h k (elems & Hl). unfold array_push, holds_array. simpl.
  rewrite (heap_update_same _ _ _ _ Hl). eexists. reflexivity.
Qed.

Lemma preserves_object_set (l : loc) (key : string) (v : jsval) :
  preserves (holds_object l) (object_set l key v).
Proof.
  intros h k (props & Hl). unfold object_set, holds_object. simpl.
  rewrite (heap_update_same _ _ _ _ Hl). eexists. reflexivity.
Qed.

(** Reading an array by key gives one of its elements, its length, or
    [undefined]. *)
Lemma own_get_array (key_of_index : nat -> string) (elems : list jsval) (key : string) :
  let v := own_get key_of_index (HArr elems) key in
  In v elems \/ v = JUndefined \/ v = JNum (num_of_Z (Z.of_nat (List.length elems))).
Proof.
  cbv zeta. unfold own_get. destruct (String.eqb key "length"); [tauto|].
  destruct (find _ _) as [i|] eqn:Hf; [|tauto].
  apply find_some in Hf as [Hi _]. apply in_seq in Hi.
  left. apply nth_In. lia.
Qed.

Section StoreResults.

Variable rs : nat -> Q.
Variable js_arith : binop -> heap -> jsval -> jsval -> jsval.
Variable js_floor : heap -> jsval -> jsval.
Variable js_lt : heap -> jsval -> jsval -> bool.
Variable js_charAt : string -> jsval -> string.
Variable key_of_index : nat -> string.
Variable to_key : heap -> jsval -> string.
Variable prim_get : jsval -> string -> jsval.
Variable prim_includes : jsval -> string -> option bool.
Variable JSON_stringify : heap -> jsval -> option (option string).

Lemma get_prop_ref (l : loc) (o : hobj) (key : string) (h : heap) (k : nat) :
  nth_error h l = Some o ->
  get_prop key_of_index prim_get (JRef l) key h k = HRet (own_get key_of_index o key) h k.
Proof. intros H. unfold get_prop. now rewrite H. Qed.

(** The [while] loop leaves an array at [result]. *)
Lemma preserves_generateArrayH_loop (item : HM jsval) uniqueItems length result :
  preserves (holds_array result) item ->
  forall fuel,
    preserves (holds_array result)
      (generateArrayH_loop js_lt JSON_stringify item uniqueItems length result fuel).
Proof.
  intros Hitem fuel. induction fuel as [|fuel IH]; simpl.
  - apply preserves_hbind; [apply preserves_readonly, readonly_with_heap|intros elems].
    apply preserves_hbind; [apply preserves_readonly, readonly_with_heap|intros [|]].
    + apply preserves_hdiverge.
    + apply preserves_hret.
  - apply preserves_hbind; [apply preserves_readonly, readonly_with_heap|intros elems].
    apply preserves_hbind; [apply preserves_readonly, readonly_with_heap|intros [|]];
      [|apply preserves_hret].
    apply preserves_hbind; [exact Hitem|intros it].
    assert (Hpush : preserves (holds_array result)
                      (hbind (array_push result it)
                         (fun _ => generateArrayH_loop js_lt JSON_stringify item
                                     uniqueItems length result fuel))).
    { apply preserves_hbind; [apply preserves_array_push|intros _; exact IH]. }
    destruct (truthy uniqueItems); [|exact Hpush].
    apply preserves_hbind; [apply preserves_readonly, readonly_with_heap|intros existing].
    apply preserves_hbind; [apply preserves_readonly, readonly_someH|intros [|]];
      [exact IH|exact Hpush].
Qed.

(** The [for ... in] loop leaves an object at [result]. *)
Lemma preserves_generateObjectH_loop (gen : jsval -> HM jsval)
    properties required result :
  (forall v, preserves (holds_object result) (gen v)) ->
  forall keys,
    preserves (holds_object result)
      (generateObjectH_loop rs js_lt key_of_index prim_get prim_includes
         gen properties required result keys).
Proof.
  intros Hgen keys. induction keys as [|key rest IH]; simpl.
  - apply preserves_hret.
  - apply preserves_hbind; [apply preserves_readonly, readonly_includesH|intros isRequired].
    apply preserves_hbind.
    { destruct isRequired; [apply preserves_hret|].
      apply preserves_hbind; [apply preserves_readonly, readonly_Math_randomH|intros r].
      apply preserves_readonly, readonly_with_heap. }
    intros [|]; [|exact IH].
    apply preserves_hbind; [apply preserves_readonly, readonly_get_prop|intros sub].
    apply preserves_hbind; [apply Hgen|intros v].
    apply preserves_hbind; [apply preserves_object_set|intros _; exact IH].
Qed.

Lemma preserves_alloc_array (l : loc) (o : hobj) :
  preserves (holds_array l) (alloc o).
Proof.
  intros h k (elems & Hl). exists elems. unfold alloc. simpl.
  rewrite nth_error_app1; [exact Hl|]. apply nth_error_Some. congruence.
Qed.

Lemma preserves_alloc_object (l : loc) (o : hobj) :
  preserves (holds_object l) (alloc o).
Proof.
  intros h k (props & Hl). exists props. unfold alloc. simpl.
  rewrite nth_error_app1; [exact Hl|]. apply nth_error_Some. congruence.
Qed.

Lemma nth_error_new {A} (l : list A) (x : A) :
  nth_error (l ++ [x]) (List.length l) = Some x.
Proof. rewrite nth_error_app2, Nat.sub_diag by lia. reflexivity. Qed.

(** [generateArray] answers a new array. *)
Lemma generateArrayH_fresh (gen : jsval -> HM jsval) fuel schema h k :
  (forall v n, keeps n (gen v)) ->
  match generateArrayH rs js_arith js_floor js_lt key_of_index prim_get
          JSON_stringify gen fuel schema h k with
  | HRet v h' _ => v = JRef (List.length h) /\ holds_array (List.length h) h'
  | _ => True
  end.
Proof.
  intros Hgen. unfold generateArrayH.
  assert (HP : (fun x => h = x) h) by reflexivity.
  step_preserving (preserves_readonly (fun x => h = x) _ (readonly_get_prop key_of_index prim_get schema "minItems")).
  step_preserving (preserves_readonly (fun x => h = x) _ (readonly_get_prop key_of_index prim_get schema "maxItems")).
  step_preserving (preserves_readonly (fun x => h = x) _ (readonly_arith js_arith Add (defined_or a (JNum (num_of_Z 0))) (JNum (num_of_Z 10)))).
  destruct (_ && _).
  { match goal with H : h = _ |- _ => destruct H end.
    unfold hbind, alloc, hret. split; [reflexivity|].
    eexists. apply nth_error_new. }
  step_preserving (preserves_readonly (fun x => h = x) _ (readonly_get_prop key_of_index prim_get schema "uniqueItems")).
  match goal with
  | |- context [getRandomIntegerH rs js_arith js_floor ?lo ?hi] =>
      step_preserving (preserves_readonly (fun x => h = x) _
                         (readonly_getRandomIntegerH rs js_arith js_floor lo hi))
  end.
  step_preserving (preserves_readonly (fun x => h = x) _ (readonly_get_prop key_of_index prim_get schema "items")).
  match goal with H : h = _ |- _ => destruct H end.
  unfold hbind at 1. unfold alloc at 1.
  assert (HP : holds_array (List.length h) (h ++ [HArr []]))
    by (eexists; apply nth_error_new).
  match goal with
  | |- context [generateArrayH_loop js_lt JSON_stringify ?item ?u ?len ?res ?f] =>
      step_preserving (preserves_generateArrayH_loop item u len res
                         (preserves_keeps_array res item (Hgen _ _)) f)
  end.
  unfold hret. split; [reflexivity|assumption].
Qed.

(** [generateObject] answers a new object. *)
Lemma generateObjectH_fresh (gen : jsval -> HM jsval) schema h k :
  (forall v n, keeps n (gen v)) ->
  match generateObjectH rs js_lt key_of_index prim_get prim_includes
          gen schema h k with
  | HRet v h' _ => v = JRef (List.length h) /\ holds_object (List.length h) h'
  | _ => True
  end.
Proof.
  intros Hgen. unfold generateObjectH.
  unfold hbind at 1. unfold alloc at 1.
  set (result := List.length h).
  assert (HP : holds_object result (h ++ [HObj []]))
    by (eexists; apply nth_error_new).
  step_preserving (preserves_readonly (holds_object result) _
                     (readonly_get_prop key_of_index prim_get schema "properties")).
  match goal with
  | |- context [hbind (if truthy ?p then ?c1 else ?c2)] =>
      assert (Hp : preserves (holds_object result) (if truthy p then c1 else c2))
  end.
  { destruct (truthy _); [apply preserves_hret|].
    apply preserves_hbind; [apply preserves_alloc_object|intros; apply preserves_hret]. }
  step_preserving Hp. clear Hp.
  step_preserving (preserves_readonly (holds_object result) _
                     (readonly_get_prop key_of_index prim_get schema "required")).
  match goal with
  | |- context [hbind (if truthy ?p then ?c1 else ?c2)] =>
      assert (Hp : preserves (holds_object result) (if truthy p then c1 else c2))
  end.
  { destruct (truthy _); [apply preserves_hret|].
    apply preserves_hbind; [apply preserves_alloc_object|intros; apply preserves_hret]. }
  step_preserving Hp. clear Hp.
  match goal with
  | |- context [for_in_keys key_of_index ?p] =>
      step_preserving (preserves_readonly (holds_object result) _
                         (readonly_for_in_keys key_of_index p))
  end.
  match goal with
  | |- context [generateObjectH_loop rs js_lt key_of_index prim_get prim_includes
                  gen ?p ?r ?res ?keys] =>
      step_preserving (preserves_generateObjectH_loop gen p r res
                         (fun v => preserves_keeps_object res (gen v) (Hgen _ _)) keys)
  end.
  unfold hret. split; [reflexivity|assumption].
Qed.

End StoreResults.

(** X14.  An [enum] node hands out the elements of the schema itself.
    For a node in the store whose [enum] is an array, the call returns
    after one draw without writing or allocating anything, and what it
    returns is an element of that array as it is stored (or [undefined],
    or the array's length, if the host converts the index to a key the
    array does not have, or to the key [length]).  An element that is an
    object or an array is returned by reference: the caller receives the
    schema's own object, not a copy. *)
Theorem enum_element_is_shared
    (rs : nat -> Q)
    (js_arith : binop -> heap -> jsval -> jsval -> jsval)
    (js_floor : heap -> jsval -> jsval)
    (js_lt : heap -> jsval -> jsval -> bool)
    (js_charAt : string -> jsval -> string)
    (key_of_index : nat -> string)
    (to_key : heap -> jsval -> string)
    (prim_get : jsval -> string -> jsval)
    (prim_includes : jsval -> string -> option bool)
    (JSON_stringify : heap -> jsval -> option (option string))
    (fuel : nat) (s e : loc) (props : list (string * jsval))
    (elems : list jsval) (h : heap) (k : nat) :
  nth_error h s = Some (HObj props) ->
  prop_get "enum" props = Some (JRef e) ->
  nth_error h e = Some (HArr elems) ->
  exists v,
    generateRandomDataH rs js_arith js_floor js_lt js_charAt key_of_index to_key
      prim_get prim_includes JSON_stringify (S fuel) (JRef s) h k
      = HRet v h (S k) /\
    (In v elems \/ v = JUndefined \/
     v = JNum (num_of_Z (Z.of_nat (List.length elems)))).
Proof.
  intros Hs Henum He.
  unfold generateRandomDataH. cbn [generateDataH].
  unfold hbind at 1. rewrite (get_prop_ref key_of_index prim_get s _ _ h k Hs).
  cbn [own_get]. rewrite Henum. cbn [or_default truthy].
  unfold hbind at 1. rewrite (get_prop_ref key_of_index prim_get e _ _ h k He).
  unfold hbind at 1. unfold arith at 1, with_heap at 1.
  unfold hbind at 1.
  unfold getRandomIntegerH, hbind, Math_randomH, arith, with_heap, get_index.
  rewrite (get_prop_ref key_of_index prim_get e _ _ h (S k) He).
  eexists. split; [reflexivity|]. exact (own_get_array key_of_index elems _).
Qed.

(** X15.  An array node and an object node answer a new container.  For a
    node in the store without [enum] whose [type] is [array] or
    [object], every call that returns yields a reference to a location
    that did not exist before the call, and that location holds an array,
    or an object, when the call returns: the result never is, and never
    shares its top level with, an object of the schema. *)
Theorem container_is_new
    (rs : nat -> Q)
    (js_arith : binop -> heap -> jsval -> jsval -> jsval)
    (js_floor : heap -> jsval -> jsval)
    (js_lt : heap -> jsval -> jsval -> bool)
    (js_charAt : string -> jsval -> string)
    (key_of_index : nat -> string)
    (to_key : heap -> jsval -> string)
    (prim_get : jsval -> string -> jsval)
    (prim_includes : jsval -> string -> option bool)
    (JSON_stringify : heap -> jsval -> option (option string))
    (fuel : nat) (s : loc) (props : list (string * jsval)) (t : string)
    (h : heap) (k : nat) (v : jsval) (h' : heap) (k' : nat) :
  nth_error h s = Some (HObj props) ->
  truthy (or_default (prop_get "enum" props) JUndefined) = false ->
  prop_get "type" props = Some (JStr t) ->
  t = "array"%string \/ t = "object"%string ->
  generateRandomDataH rs js_arith js_floor js_lt js_charAt key_of_index to_key
    prim_get prim_includes JSON_stringify fuel (JRef s) h k = HRet v h' k' ->
  v = JRef (List.length h) /\
  (List.length h < List.length h')%nat /\
  (t = "array"%string -> holds_array (List.length h) h') /\
  (t = "object"%string -> holds_object (List.length h) h').
Proof.
  intros Hs Henum Htype Ht Hrun.
  destruct fuel as [|fuel]; [discriminate|].
  unfold generateRandomDataH in Hrun. cbn [generateDataH] in Hrun.
  unfold hbind at 1 in Hrun.
  rewrite (get_prop_ref key_of_index prim_get s _ _ h k Hs) in Hrun.
  cbn [own_get] in Hrun. rewrite Henum in Hrun.
  unfold hbind at 1 in Hrun.
  rewrite (get_prop_ref key_of_index prim_get s _ _ h k Hs) in Hrun.
  cbn [own_get] in Hrun. rewrite Htype in Hrun. cbn [or_default] in Hrun.
  assert (Hgen : forall v0 n,
            keeps n (generateDataH rs js_arith js_floor js_lt js_charAt key_of_index
                       to_key prim_get prim_includes JSON_stringify fuel v0)).
  { intros v0 n. apply keeps_generateDataH. }
  destruct Ht as [-> | ->].
  - change (strict_eq (JStr "array") (JStr "integer")) with false in Hrun.
    change (strict_eq (JStr "array") (JStr "number")) with false in Hrun.
    change (strict_eq (JStr "array") (JStr "string")) with false in Hrun.
    change (strict_eq (JStr "array") (JStr "boolean")) with false in Hrun.
    change (strict_eq (JStr "array") (JStr "array")) with true in Hrun.
    cbv iota in Hrun.
    pose proof (generateArrayH_fresh rs js_arith js_floor js_lt key_of_index prim_get
                  JSON_stringify _ fuel (JRef s) h k Hgen) as Hfresh.
    rewrite Hrun in Hfresh. destruct Hfresh as [-> Harr].
    split; [reflexivity|]. split; [|split; [intros _; exact Harr|discriminate]].
    destruct Harr as [elems Hl]. apply nth_error_Some. congruence.
  - change (strict_eq (JStr "object") (JStr "integer")) with false in Hrun.
    change (strict_eq (JStr "object") (JStr "number")) with false in Hrun.
    change (strict_eq (JStr "object") (JStr "string")) with false in Hrun.
    change (strict_eq (JStr "object") (JStr "boolean")) with false in Hrun.
    change (strict_eq (JStr "object") (JStr "array")) with false in Hrun.
    change (strict_eq (JStr "object") (JStr "object")) with true in Hrun.
    cbv iota in Hrun.
    pose proof (generateObjectH_fresh rs js_lt key_of_index prim_get prim_includes
                  _ (JRef s) h k Hgen) as Hfresh.
    rewrite Hrun in Hfresh. destruct Hfresh as [-> Hobj].
    split; [reflexivity|]. split; [|split; [discriminate|intros _; exact Hobj]].
    destruct Hobj as [ps Hl]. apply nth_error_Some. congruence.
Qed.

(** * Part III: generateDataFromFile *)

(** X16.  [generateDataFromFile] never throws.  Whatever fails inside
    its [try] block (resolving the path, reading the file, parsing the
    text, or the generation itself, whose [TypeError] is reported under
    the same heading) is answered with [null] after one line
    [Error reading schema from file: <message>] on [console.error]; when
    nothing fails the generated value is returned and nothing is
    written.  A generation that does not terminate is not interrupted. *)
Theorem file_errors_become_null
    (rs : nat -> Q)
    (js_arith : binop -> heap -> jsval -> jsval -> jsval)
    (js_floor : heap -> jsval -> jsval)
    (js_lt : heap -> jsval -> jsval -> bool)
    (js_charAt : string -> jsval -> string)
    (key_of_index : nat -> string)
    (to_key : heap -> jsval -> string)
    (prim_get : jsval -> string -> jsval)
    (prim_includes : jsval -> string -> option bool)
    (JSON_stringify : heap -> jsval -> option (option string))
    (path_resolve : string -> exn + string)
    (fs_readFileSync : string -> string -> exn + string)
    (JSON_parse : string -> heap -> exn + (jsval * heap))
    (fuel : nat) (schemaFilePath : string) (w : world) :
  let generate :=
    generateRandomDataH rs js_arith js_floor js_lt js_charAt key_of_index to_key
      prim_get prim_includes JSON_stringify in
  let run :=
    generateDataFromFile rs js_arith js_floor js_lt js_charAt key_of_index to_key
      prim_get prim_includes JSON_stringify path_resolve fs_readFileSync JSON_parse
      fuel schemaFilePath w in
  let report (e : exn) (h : heap) (k : nat) : fres jsval :=
    FRet JNull
      (mkWorld h k
         (w_stderr w ++ [("Error reading schema from file: " ++ message e)%string])) in
  (forall e w', run <> FThrow e w') /\
  (forall e, path_resolve schemaFilePath = inl e ->
             run = report e (w_heap w) (w_draws w)) /\
  (forall p e, path_resolve schemaFilePath = inr p ->
               fs_readFileSync p "utf-8"%string = inl e ->
               run = report e (w_heap w) (w_draws w)) /\
  (forall p text e, path_resolve schemaFilePath = inr p ->
                    fs_readFileSync p "utf-8"%string = inr text ->
                    JSON_parse text (w_heap w) = inl e ->
                    run = report e (w_heap w) (w_draws w)) /\
  (forall p text schema h1,
     path_resolve schemaFilePath = inr p ->
     fs_readFileSync p "utf-8"%string = inr text ->
     JSON_parse text (w_heap w) = inr (schema, h1) ->
     match generate fuel schema h1 (w_draws w) with
     | HRet v h2 k2 => run = FRet v (mkWorld h2 k2 (w_stderr w))
     | HThrow e h2 k2 => run = report (Generated e) h2 k2
     | HDiverge h2 k2 => run = FDiverge (mkWorld h2 k2 (w_stderr w))
     end).
Proof.
  intros generate run report.
  unfold run, generateDataFromFile, try_catch, fbind, host_call, parse,
    run_generator, console_error, fret.
  fold generate.
  split; [|split; [|split; [|split]]].
  - intros e w'.
    destruct (path_resolve schemaFilePath) as [e0|p];
      [cbv beta iota; discriminate|].
    destruct (fs_readFileSync p "utf-8"%string) as [e0|text];
      [cbv beta iota; discriminate|].
    destruct (JSON_parse text (w_heap w)) as [e0|[schema h1]];
      [cbv beta iota; discriminate|].
    cbn [w_heap w_draws w_stderr].
    destruct (generate fuel schema h1 (w_draws w)); cbv beta iota; discriminate.
  - intros e ->. reflexivity.
  - intros p e -> ->. reflexivity.
  - intros p text e -> -> ->. reflexivity.
  - intros p text schema h1 -> -> ->. cbn [w_heap w_draws w_stderr].
    destruct (generate fuel schema h1 (w_draws w)); reflexivity.
Qed.

(** * Part IV: properties of the generators as the engine evaluates them *)

(** ** Numbers *)

Lemma num_of_Q_inj (x y : Q) : num_of_Q x = num_of_Q y -> x == y.
Proof.
  unfold num_of_Q. intros H. injection H as H.
  rewrite <- (this_Q2Qc x), <- (this_Q2Qc y). simpl. now rewrite H.
Qed.

Lemma js_lt_num_Q (x y : Q) : js_lt_num (num_of_Q x) (num_of_Q y) = true <-> x < y.
Proof.
  unfold js_lt_num, num_of_Q. rewrite Qltb_lt, !this_Q2Qc. reflexivity.
Qed.

Lemma js_lt_num_nat (n : nat) (z : Z) :
  js_lt_num (num_of_nat n) (num_of_Z z) = true <-> (Z.of_nat n < z)%Z.
Proof.
  unfold num_of_nat, num_of_Z. rewrite js_lt_num_Q, <- Zlt_Qlt. reflexivity.
Qed.

Lemma strict_eq_num_Q (x y : Q) :
  strict_eq_num (num_of_Q x) (num_of_Q y) = true <-> x == y.
Proof.
  unfold strict_eq_num, num_of_Q. rewrite Qeq_bool_iff, !this_Q2Qc. reflexivity.
Qed.

Lemma getRandomInteger_64_run rs (min max : Q) (k : nat) :
  getRandomInteger_64 rs (num_of_Q min) (num_of_Q max) k
    = Ret (getRandomInteger64 (rs k) min max) (S k).
Proof. reflexivity. Qed.

Lemma getRandomInteger_64_run_Z rs (a b : Z) (k : nat) :
  getRandomInteger_64 rs (num_of_Z a) (num_of_Z b) k
    = Ret (getRandomInteger64 (rs k) (inject_Z a) (inject_Z b)) (S k).
Proof. reflexivity. Qed.

Lemma num_of_Z_ext (q : Q) (z : Z) : q == inject_Z z -> num_of_Q q = num_of_Z z.
Proof. intros H. unfold num_of_Z. apply num_of_Q_ext, H. Qed.

(** ** Integer nodes *)

Lemma generateData_64_integer rs JSON_stringify fuel s k :
  s_enum s = None -> s_type s = Some "integer"%string ->
  generateData_64 rs JSON_stringify fuel s k =
  (n <- getRandomInteger_64 rs
          (num_of_Q (or_default (s_minimum s) MIN_SAFE_INTEGER))
          (num_of_Q (or_default (s_maximum s) MAX_SAFE_INTEGER)) ;;
   ret (VNum n)) k.
Proof.
  intros He Ht. destruct s as [e t mn mx mnl mxl mni mxi u it ps rq];
    simpl in He, Ht; subst e t.
  reflexivity.
Qed.



(** ** Enumerations *)

Lemma array_get_num_Z (a : list value) (z : Z) :
  (0 <= z)%Z -> array_get_num a (num_of_Z z) = nth (Z.to_nat z) a VUndefined.
Proof.
  intros Hz. unfold array_get_num, num_of_Z, num_of_Q.
  apply array_get_index; [apply this_Q2Qc|exact Hz].
Qed.

Lemma enum_last_index (len : nat) :
  (0 < Z.of_nat len <= 2 ^ 53)%Z ->
  js_sub (num_of_nat len) (num_of_Z 1) = num_of_Z (Z.of_nat len - 1).
Proof.
  intros Hlen. unfold num_of_nat, num_of_Z.
  assert (E : inject_Z (Z.of_nat len) - inject_Z 1 == inject_Z (Z.of_nat len - 1)).
  { unfold Z.sub. rewrite inject_Z_plus, inject_Z_opp. reflexivity. }
  assert (Er : round_finite (inject_Z (Z.of_nat len) - inject_Z 1)
               == inject_Z (Z.of_nat len - 1)).
  { rewrite (round_finite_comp _ _ E). apply round_finite_exact_Z. lia. }
  assert (Hbig : inject_Z (2 ^ 53) < pow2 1024).
  { rewrite <- (pow2_Z 53) by lia. apply pow2_lt. lia. }
  assert (H0 : 0 <= inject_Z (Z.of_nat len - 1)) by (apply (Q_of_Z_le 0); lia).
  assert (H1 : inject_Z (Z.of_nat len - 1) <= inject_Z (2 ^ 53))
    by (apply Q_of_Z_le; lia).
  pose proof (pow2_pos 1024) as Hp.
  rewrite js_sub_finite; [apply num_of_Q_ext, Er|rewrite Er; lra..].
Qed.

(** C1.  A node whose [enum] is present and non-empty yields an element
    of [enum], whatever its [type], after exactly one draw; nothing else
    of the node, and no type-based generation, enters the result.  The
    index is [Math.floor] of the binary64 product of the draw and the
    length: it lies in [[0, len-1]], and it is the index [floor(r * len)]
    that the draw selects among [len] intervals of equal length, or, when
    the product rounds up to an integer, the next one.  (An array has
    fewer than [2^53] elements; the draw is a binary64 value in
    [[0, 1)].) *)
Theorem enum_takes_precedence
    (rs : nat -> Q) (JSON_stringify : value -> option string)
    (fuel : nat) (s : schema) (enumValues : list value) (k : nat) :
  double_draw (rs k) ->
  s_enum s = Some enumValues ->
  enumValues <> [] ->
  (Z.of_nat (List.length enumValues) <= 2 ^ 53)%Z ->
  let len := List.length enumValues in
  let product := round_finite (rs k * Q_of_nat len) in
  exists i : nat,
    generateData_64 rs JSON_stringify fuel s k
      = Ret (nth i enumValues VUndefined) (S k) /\
    (i < len)%nat /\
    In (nth i enumValues VUndefined) enumValues /\
    Z.of_nat i = Qfloor product /\
    (Z.of_nat i = Qfloor (rs k * Q_of_nat len) \/
     Z.of_nat i = (Qfloor (rs k * Q_of_nat len) + 1)%Z /\
     product == inject_Z (Z.of_nat i)).
Proof.
  intros [Hd Hv] He Hne Hmax len product.
  assert (Hlen : (0 < Z.of_nat len)%Z).
  { subst len. destruct enumValues; [congruence|simpl; lia]. }
  set (b := (Z.of_nat len - 1)%Z).
  destruct (getRandomInteger64_value 0 b (rs k) ltac:(simpl; lia) ltac:(lia)
              ltac:(lia) Hd Hv) as [Hval Hin].
  set (t := round_finite (rs k * round_finite
                            (round_finite (inject_Z b - inject_Z 0) + 1))) in *.
  assert (Et : t == product).
  { unfold t, product. apply round_finite_comp. apply Qmult_comp; [reflexivity|].
    assert (Ed : inject_Z b - inject_Z 0 == inject_Z b) by (simpl (inject_Z 0); ring).
    rewrite (round_finite_comp _ _ Ed), (round_finite_exact_Z b) by lia.
    assert (E1 : inject_Z b + 1 == inject_Z (Z.of_nat len)).
    { unfold b, Z.sub. rewrite inject_Z_plus, inject_Z_opp.
      change (inject_Z 1) with 1. ring. }
    rewrite (round_finite_comp _ _ E1). apply round_finite_exact_Z. lia. }
  rewrite Z.add_0_r in Hval, Hin.
  set (x := rs k * Q_of_nat len).
  destruct Hv as [Hr0 Hr1].
  assert (Hn1 : 1 <= Q_of_nat len) by (apply (Q_of_Z_le 1); lia).
  assert (Hx0 : 0 <= x) by (unfold x; nra).
  assert (Hx1 : x < inject_Z (2 ^ 53)).
  { apply Qlt_le_trans with (Q_of_nat len); [unfold x; nra|].
    apply Q_of_Z_le. lia. }
  pose proof (floor_round_near x Hx0 Hx1) as Hnear.
  change (round_finite x) with product in Hnear.
  rewrite <- (Qfloor_comp _ _ Et) in Hnear.
  exists (Z.to_nat (Qfloor t)).
  assert (Hi : Z.of_nat (Z.to_nat (Qfloor t)) = Qfloor t) by lia.
  split; [|split; [|split; [|split]]].
  - destruct s as [e ty mn mx mnl mxl mni mxi u it ps rq]; simpl in He; subst e.
    cbn [generateData_64 s_enum]. fold len.
    rewrite (enum_last_index len) by lia. fold b.
    unfold bind. rewrite getRandomInteger_64_run_Z, Hval.
    unfold ret. f_equal. apply array_get_num_Z. lia.
  - unfold b in Hin. lia.
  - apply nth_In. unfold b in Hin. fold len. lia.
  - rewrite Hi. apply Qfloor_comp, Et.
  - rewrite Hi. destruct (Z.eq_dec (Qfloor t) (Qfloor x)) as [E|NE]; [now left|right].
    assert (E : Qfloor t = (Qfloor x + 1)%Z) by lia.
    split; [exact E|].
    assert (Hup : inject_Z (Qfloor x + 1) <= product).
    { rewrite <- Et, <- E. apply Qfloor_le. }
    assert (Hdown : product <= inject_Z (Qfloor x + 1)).
    { change product with (round_finite x).
      rewrite <- (round_finite_exact_Z (Qfloor x + 1)).
      - apply round_finite_mono, Qlt_le_weak, Qlt_floor.
      - assert (Hf0 : (0 <= Qfloor x)%Z) by (apply (Qfloor_ge_Z x 0), Hx0).
        assert (Hf1 : (Qfloor x < 2 ^ 53)%Z).
        { apply Z_of_Q_lt. apply Qle_lt_trans with x; [apply Qfloor_le|exact Hx1]. }
        lia. }
    rewrite E. apply Qle_antisym; assumption.
Qed.

(** At the binary64 value next below [1/3] an [enum] of three elements
    yields its second element: the product rounds up to [1]. *)
Example enum_boundary_draw :
  generateData_64 (fun _ => 6004799503160661 # 18014398509481984)
    sample_stringify 0%nat enumStringSchema 0%nat
  = Ret (VStr "green") 1%nat.
Proof. vm_compute. reflexivity. Qed.

(** ** Arrays *)

Section ArrayLoop64.

Variable JSON_stringify : value -> option string.
Variable item : M value.

(** Invariant of the loop, for a drawn length that is an integer: the
    result never grows past it, and under [uniqueItems] the JSON texts of
    its elements stay pairwise different. *)
Lemma generateArray_loop_64_inv (uniqueItems : bool) (z : Z) :
  forall (fuel : nat) (result : list value) (k : nat) (out : list value) (k' : nat),
    (Z.of_nat (List.length result) <= Z.max 0 z)%Z ->
    (uniqueItems = true -> NoDup (map JSON_stringify result)) ->
    generateArray_loop_64 JSON_stringify item uniqueItems (num_of_Z z) fuel result k
      = Ret out k' ->
    Z.of_nat (List.length out) = Z.max 0 z /\
    (uniqueItems = true -> NoDup (map JSON_stringify out)).
Proof.
  intros fuel. induction fuel as [|fuel IH]; intros result k out k' Hle Hnd Hrun.
  - cbn [generateArray_loop_64] in Hrun.
    destruct (js_lt_num (num_of_nat (List.length result)) (num_of_Z z)) eqn:Hc;
      [discriminate|].
    injection Hrun as <- <-. split; [|exact Hnd].
    apply not_true_iff_false in Hc. rewrite js_lt_num_nat in Hc. lia.
  - cbn [generateArray_loop_64] in Hrun.
    destruct (js_lt_num (num_of_nat (List.length result)) (num_of_Z z)) eqn:Hc.
    + rewrite js_lt_num_nat in Hc.
      destruct (item k) as [it k1| |]; try discriminate.
      assert (Hpush : (Z.of_nat (List.length (result ++ [it])) <= Z.max 0 z)%Z).
      { rewrite length_app. simpl. lia. }
      destruct uniqueItems.
      * destruct (isUnique JSON_stringify result it) eqn:Hu.
        -- apply (IH (result ++ [it]) k1 out k' Hpush); [|exact Hrun].
           intros _. rewrite map_app. simpl.
           apply isUnique_spec in Hu.
           apply NoDup_app; [apply Hnd; reflexivity|repeat constructor; intros []|].
           intros x Hx [<-|[]]. apply Hu, Hx.
        -- apply (IH result k1 out k' Hle Hnd Hrun).
      * apply (IH (result ++ [it]) k1 out k' Hpush); [intros; discriminate|exact Hrun].
    + injection Hrun as <- <-. split; [|exact Hnd].
      apply not_true_iff_false in Hc. rewrite js_lt_num_nat in Hc. lia.
Qed.

(** Without [uniqueItems] every iteration appends. *)
Lemma generateArray_loop_64_returns (z : Z) :
  (forall k, exists v k', item k = Ret v k') ->
  forall (fuel : nat) (result : list value) (k : nat),
    (z - Z.of_nat (List.length result) <= Z.of_nat fuel)%Z ->
    exists out k',
      generateArray_loop_64 JSON_stringify item false (num_of_Z z) fuel result k
        = Ret out k'.
Proof.
  intros Htot fuel. induction fuel as [|fuel IH]; intros result k Hfuel; cbn [generateArray_loop_64];
    destruct (js_lt_num (num_of_nat (List.length result)) (num_of_Z z)) eqn:Hc;
    eauto.
  - rewrite js_lt_num_nat in Hc. lia.
  - rewrite js_lt_num_nat in Hc. destruct (Htot k) as (v & k1 & ->).
    apply IH. rewrite length_app. simpl. lia.
Qed.

(** Whatever the loop holds was returned by the item generator. *)
Lemma generateArray_loop_64_items (P : value -> Prop) (uniqueItems : bool)
    (length : number) :
  (forall k0 v k1, item k0 = Ret v k1 -> P v) ->
  forall (fuel : nat) (result : list value) (k : nat) (out : list value) (k' : nat),
    Forall P result ->
    generateArray_loop_64 JSON_stringify item uniqueItems length fuel result k
      = Ret out k' ->
    Forall P out.
Proof.
  intros Hitem fuel.
  induction fuel as [|fuel IH]; intros result k out k' Hres Hrun; cbn [generateArray_loop_64] in Hrun;
    (destruct (js_lt_num _ _); [|injection Hrun as <- <-; exact Hres]);
    [discriminate|].
  destruct (item k) as [it k1| |] eqn:Hit; try discriminate.
  assert (Hpush : Forall P (result ++ [it])).
  { apply Forall_app. split; [exact Hres|]. constructor; [|constructor].
    apply (Hitem _ _ _ Hit). }
  destruct uniqueItems; [destruct (isUnique _ _ _)|]; eauto.
Qed.

(** The loop throws only what the item generator throws. *)
Lemma generateArray_loop_64_throws (uniqueItems : bool) (length : number) (e : error) :
  forall (fuel : nat) (result : list value) (k : nat),
    generateArray_loop_64 JSON_stringify item uniqueItems length fuel result k
      = Throw e ->
    exists k0, item k0 = Throw e.
Proof.
  intros fuel.
  induction fuel as [|fuel IH]; intros result k Hrun; cbn [generateArray_loop_64] in Hrun;
    (destruct (js_lt_num _ _); [|discriminate]); [discriminate|].
  destruct (item k) as [it k1| |] eqn:Hit; try discriminate.
  - destruct uniqueItems; [destruct (isUnique _ _ _)|]; eauto.
  - injection Hrun as ->. exists k. exact Hit.
Qed.

End ArrayLoop64.

Lemma generateData_64_array rs JSON_stringify fuel s k :
  s_enum s = None -> s_type s = Some "array"%string ->
  generateData_64 rs JSON_stringify fuel s k =
  generateArray_64 rs JSON_stringify (generateData_64 rs JSON_stringify fuel) fuel s k.
Proof.
  intros He Ht. destruct s as [e t mn mx mnl mxl mni mxi u it ps rq];
    simpl in He, Ht; subst e t.
  reflexivity.
Qed.

(** A bound with a default, as the engine computes it: [x] itself, or
    [base + d] in binary64, which is exact on safe integers. *)
Lemma default_bound (x : option Q) (base : Q) (d c z : Z) :
  base == inject_Z c ->
  or_default x (base + inject_Z d) == inject_Z z ->
  (Z.abs z <= 2 ^ 53)%Z ->
  match x with
  | Some m => num_of_Q m
  | None => js_add (num_of_Q base) (num_of_Z d)
  end = num_of_Z z.
Proof.
  intros Hbase Hx Hz. destruct x as [m|]; simpl in Hx.
  - apply num_of_Z_ext, Hx.
  - unfold num_of_Z at 1.
    assert (Er : round_finite (base + inject_Z d) == inject_Z z).
    { rewrite (round_finite_comp _ _ Hx). apply round_finite_exact_Z, Hz. }
    assert (Hbig : inject_Z (2 ^ 53) < pow2 1024).
    { rewrite <- (pow2_Z 53) by lia. apply pow2_lt. lia. }
    assert (H0 : inject_Z (- 2 ^ 53) <= inject_Z z) by (apply Q_of_Z_le; lia).
    assert (H1 : inject_Z z <= inject_Z (2 ^ 53)) by (apply Q_of_Z_le; lia).
    rewrite inject_Z_opp in H0.
    pose proof (pow2_pos 1024) as Hp.
    rewrite js_add_finite; [apply num_of_Q_ext, Er|rewrite Er; lra..].
Qed.

(** C3, as the code has it.  For an array node with
    [minItems = a <= b = maxItems] (after the defaults [0] and
    [minItems + 10]), [b] below [2^53], every run that returns yields an
    array whose length lies between [a] and [b], and under [uniqueItems]
    the JSON texts of its elements are pairwise different, so that the
    elements are pairwise different as written: two objects with the same
    properties in another order are different elements.  Runs do return:
    without [uniqueItems], when item generation returns, fuel [b] is
    enough. *)
Theorem array_length_and_uniqueness
    (rs : nat -> Q) (JSON_stringify : value -> option string)
    (fuel : nat) (s : schema) (a b : nat) (k : nat) :
  double_draw (rs k) ->
  s_enum s = None ->
  s_type s = Some "array"%string ->
  or_default (s_minItems s) 0 == Q_of_nat a ->
  or_default (s_maxItems s) (or_default (s_minItems s) 0 + 10) == Q_of_nat b ->
  (a <= b)%nat ->
  (Z.of_nat b <= 2 ^ 53 - 1)%Z ->
  (forall v k',
     generateData_64 rs JSON_stringify fuel s k = Ret v k' ->
     exists items,
       v = VArr items /\
       (a <= List.length items <= b)%nat /\
       (or_default (s_uniqueItems s) false = true ->
        NoDup (map JSON_stringify items) /\ NoDup items)) /\
  (forall it,
     s_items s = Some it ->
     (forall k0, exists v k1, generateData_64 rs JSON_stringify fuel it k0 = Ret v k1) ->
     or_default (s_uniqueItems s) false = false ->
     (b <= fuel)%nat ->
     exists v k', generateData_64 rs JSON_stringify fuel s k = Ret v k').
Proof.
  intros [Hd Hv] He Ht Ha Hb Hab Hsafe.
  rewrite (generateData_64_array _ _ _ _ _ He Ht). unfold generateArray_64.
  rewrite (default_bound (s_maxItems s) (or_default (s_minItems s) 0) 10
             (Z.of_nat a) (Z.of_nat b) Ha Hb ltac:(lia)).
  rewrite (num_of_Z_ext _ _ Ha).
  change (num_of_Q (inject_Z (Z.of_nat a))) with (num_of_Z (Z.of_nat a)).
  destruct (strict_eq_num (num_of_Z (Z.of_nat a)) (num_of_Z 0) &&
            strict_eq_num (num_of_Z (Z.of_nat b)) (num_of_Z 0)) eqn:Hz.
  - apply andb_true_iff in Hz as [Hz1 Hz2]. unfold num_of_Z in Hz1, Hz2.
    apply strict_eq_num_Q in Hz1, Hz2.
    rewrite inject_Z_injective in Hz1, Hz2.
    assert (a = 0%nat /\ b = 0%nat) as [-> ->] by lia.
    split.
    + intros v k' H. injection H as <- <-. exists []. split; [reflexivity|].
      split; [simpl; lia|]. intros _. split; constructor.
    + intros. unfold ret. eauto.
  - destruct (getRandomInteger64_in_range (Z.of_nat a) (Z.of_nat b) (rs k)
                ltac:(lia) ltac:(lia) ltac:(lia) Hd Hv) as (z & Hzv & Hbd).
    split.
    + intros v k' H. unfold bind at 1 in H.
      rewrite getRandomInteger_64_run_Z, Hzv in H. unfold bind in H.
      destruct (generateArray_loop_64 _ _ _ _ _ _ _) as [out k1| |] eqn:Hloop;
        try discriminate.
      injection H as <- <-.
      destruct (generateArray_loop_64_inv JSON_stringify
                  (generateData_of (generateData_64 rs JSON_stringify fuel) (s_items s))
                  (or_default (s_uniqueItems s) false) z fuel [] (S k) out k1)
        as [Hlen Hnd]; [simpl; lia|intros; constructor|exact Hloop|].
      exists out. split; [reflexivity|]. split; [lia|].
      intros Hu. specialize (Hnd Hu). split; [exact Hnd|].
      apply (NoDup_map_inv JSON_stringify). exact Hnd.
    + intros it Hit Htot Hu Hfuel. rewrite Hit, Hu. cbn [generateData_of].
      destruct (generateArray_loop_64_returns JSON_stringify
                  (generateData_64 rs JSON_stringify fuel it) z Htot fuel [] (S k))
        as (out & k1 & Hloop); [simpl; lia|].
      unfold bind at 1. rewrite getRandomInteger_64_run_Z, Hzv. unfold bind.
      rewrite Hloop. unfold ret. eauto.
Qed.

(** C3, as stated, fails: [uniqueItems] compares JSON texts, which
    follow the order of the keys.  Out of an [enum] of the two objects
    [{a: 1, b: 2}] and [{b: 2, a: 1}] a node that asks for two unique
    items returns both, and they are the same value as mappings. *)
Lemma unique_items_equal_as_mappings :
  double_draws alternating_draws /\
  s_enum sameMappingsSchema = None /\
  s_type sameMappingsSchema = Some "array"%string /\
  s_uniqueItems sameMappingsSchema = Some true /\
  exists x y : value,
    generateData_64 alternating_draws sample_stringify 2%nat sameMappingsSchema 0%nat
      = Ret (VArr [x; y]) 3%nat /\
    same_value x y = true.
Proof.
  split.
  { intros n. unfold alternating_draws, double_draw, valid_draw.
    destruct (Nat.even n); (split; [split|split]); vm_compute;
      try reflexivity; discriminate. }
  split; [reflexivity|]. split; [reflexivity|]. split; [reflexivity|].
  exists (VObj [("b", VNum (num_of_Z 2)); ("a", VNum (num_of_Z 1))]%string),
         (VObj [("a", VNum (num_of_Z 1)); ("b", VNum (num_of_Z 2))]%string).
  split; [same_run|vm_compute; reflexivity].
Qed.

(** ** The draw counter only advances *)

Lemma advances_getRandomInteger_64 rs lo hi : advances (getRandomInteger_64 rs lo hi).
Proof.
  apply advances_bind; [apply advances_Math_random|intros; apply advances_ret].
Qed.

Lemma advances_getRandomString_64 rs length : advances (getRandomString_64 rs length).
Proof.
  unfold getRandomString_64. destruct (for_count_64 length) as [n|].
  - generalize EmptyString. induction n as [|n IH]; intros result; simpl.
    + apply advances_ret.
    + apply advances_bind; [apply advances_Math_random|intros; apply IH].
  - intros k a k' H. discriminate.
Qed.

Lemma advances_generateArray_loop_64 JSON_stringify item u len :
  advances item ->
  forall fuel result,
    advances (generateArray_loop_64 JSON_stringify item u len fuel result).
Proof.
  intros Hitem fuel.
  induction fuel as [|fuel IH]; intros result k out k' H;
    cbn [generateArray_loop_64] in H.
  - destruct (js_lt_num _ _); [discriminate|]. injection H as _ <-. lia.
  - destruct (js_lt_num _ _); [|injection H as _ <-; lia].
    destruct (item k) as [it k1| |] eqn:E; try discriminate.
    apply Hitem in E.
    destruct u; [destruct (isUnique _ _ _)|]; apply IH in H; lia.
Qed.

Lemma advances_hasOwnProperty_call declared key :
  advances (hasOwnProperty_call declared key).
Proof.
  unfold hasOwnProperty_call.
  destruct (existsb _ _); [apply advances_throw|apply advances_ret].
Qed.

Lemma advances_generateObject_loop_64 rs (gd : schema -> M value) required declared :
  forall properties,
    Forall (fun p => advances (gd (snd p))) properties ->
    forall result,
      advances (generateObject_loop_64 rs gd required declared properties result).
Proof.
  induction properties as [|[key sub] rest IH]; intros Hall result; simpl.
  - apply advances_ret.
  - inversion Hall as [|? ? Hsub Hrest]; subst. simpl in Hsub.
    apply advances_bind; [apply advances_hasOwnProperty_call|].
    intros [|]; [|apply IH, Hrest].
    apply advances_bind.
    + destruct (includes required key); [apply advances_ret|].
      apply advances_bind; [apply advances_Math_random|intros; apply advances_ret].
    + intros [|]; [|apply IH, Hrest].
      apply advances_bind; [exact Hsub|]. intros v. apply IH, Hrest.
Qed.

Lemma advances_generateData_64 rs JSON_stringify fuel :
  forall s, advances (generateData_64 rs JSON_stringify fuel s).
Proof.
  intros s. induction s as [s Hitems Hprops] using schema_nodes_ind.
  destruct s as [e t mn mx mnl mxl mni mxi u items props req].
  cbn [s_items s_properties] in Hitems, Hprops.
  cbn [generateData_64 s_enum s_type].
  destruct e as [enumValues|].
  { apply advances_bind; [apply advances_getRandomInteger_64|intros; apply advances_ret]. }
  repeat match goal with
  | |- advances (if ?c then _ else _) => destruct c
  end.
  - apply advances_bind; [apply advances_getRandomInteger_64|intros; apply advances_ret].
  - apply advances_bind; [|intros; apply advances_ret].
    apply advances_bind; [apply advances_Math_random|intros; apply advances_ret].
  - apply advances_bind; [apply advances_getRandomInteger_64|intros].
    apply advances_bind; [apply advances_getRandomString_64|intros; apply advances_ret].
  - apply advances_bind; [|intros; apply advances_ret].
    apply advances_bind; [apply advances_Math_random|intros; apply advances_ret].
  - unfold generateArray_64. cbn [s_minItems s_maxItems s_uniqueItems s_items].
    destruct (_ && _); [apply advances_ret|].
    apply advances_bind; [apply advances_getRandomInteger_64|intros len].
    apply advances_bind; [|intros; apply advances_ret].
    apply advances_generateArray_loop_64.
    destruct items as [it|]; [exact Hitems|apply advances_throw].
  - unfold generateObject_64. cbn [s_properties s_required].
    apply advances_bind; [|intros; apply advances_ret].
    destruct props as [ps|]; apply advances_generateObject_loop_64;
      [exact Hprops|constructor].
  - apply advances_ret.
Qed.

(** ** Objects *)

Section Strip.

(** The entries of an object under the keys other than [p]. *)
Variable p : string.

Let strip (o : list (string * value)) : list (string * value) :=
  filter (fun q => negb (String.eqb (fst q) p)) o.

Lemma strip_keys (o : list (string * value)) (x : string) :
  In x (map fst (strip o)) <-> In x (map fst o) /\ x <> p.
Proof.
  unfold strip. induction o as [|[k' v'] rest IH]; cbn [filter map fst In]; [tauto|].
  destruct (String.eqb_spec k' p) as [->|Hne]; cbn [negb map fst In]; rewrite IH.
  - split; [tauto|]. intros [[<-|H] Hx]; [congruence|tauto].
  - split; [intros [<-|H]; tauto|tauto].
Qed.

Lemma strip_get (o : list (string * value)) (x : string) :
  x <> p -> obj_get x (strip o) = obj_get x o.
Proof.
  intros Hx. unfold strip.
  induction o as [|[k' v'] rest IH]; cbn [filter obj_get fst]; [reflexivity|].
  destruct (String.eqb_spec k' p) as [->|Hne]; cbn [negb obj_get].
  - destruct (String.eqb_spec x p); [contradiction|exact IH].
  - destruct (String.eqb_spec x k'); [reflexivity|exact IH].
Qed.

Lemma strip_set (key : string) (v : value) (o : list (string * value)) :
  (if String.eqb key p then strip o else obj_set key v (strip o))
  = strip (obj_set key v o).
Proof.
  unfold strip. destruct (String.eqb_spec key p) as [->|Hne].
  - induction o as [|[k' v'] rest IH]; cbn [obj_set filter fst].
    + rewrite String.eqb_refl. reflexivity.
    + destruct (String.eqb_spec p k') as [<-|Hk]; cbn [filter fst].
      * rewrite String.eqb_refl. reflexivity.
      * destruct (String.eqb_spec k' p); [congruence|].
        cbn [negb]. now rewrite IH.
  - induction o as [|[k' v'] rest IH]; cbn [obj_set filter fst].
    + destruct (String.eqb_spec key p); [contradiction|reflexivity].
    + destruct (String.eqb_spec key k') as [->|Hk]; cbn [filter fst].
      * destruct (String.eqb_spec k' p); [contradiction|].
        cbn [negb obj_set]. now rewrite String.eqb_refl.
      * destruct (String.eqb_spec k' p); cbn [negb obj_set]; [exact IH|].
        destruct (String.eqb_spec key k'); [contradiction|]. now rewrite IH.
Qed.

End Strip.

Lemma strip_proto_keys (o : list (string * value)) (x : string) :
  In x (map fst (strip_proto o)) <-> In x (map fst o) /\ x <> "__proto__"%string.
Proof. exact (strip_keys "__proto__" o x). Qed.

Lemma strip_proto_get (o : list (string * value)) (x : string) :
  x <> "__proto__"%string -> obj_get x (strip_proto o) = obj_get x o.
Proof. exact (strip_get "__proto__" o x). Qed.

(** An assignment to [__proto__] leaves the other properties as they
    are; any other assignment does not see the entries under
    [__proto__]. *)
Lemma obj_set_64_strip (key : string) (v : value) (o : list (string * value)) :
  obj_set_64 key v (strip_proto o) = strip_proto (obj_set key v o).
Proof. exact (strip_set "__proto__" key v o). Qed.

Lemma hasOwnProperty_call_own declared key k :
  ~ In "hasOwnProperty"%string (map fst declared) ->
  In key (map fst declared) ->
  hasOwnProperty_call declared key k = Ret true k.
Proof.
  intros Hfree Hin. unfold hasOwnProperty_call.
  replace (existsb (String.eqb "hasOwnProperty") (map fst declared)) with false.
  2:{ symmetry. apply not_true_iff_false. rewrite existsb_exists.
      intros (x & Hx & E). apply String.eqb_eq in E. subst x. contradiction. }
  replace (existsb (String.eqb key) (map fst declared)) with true; [reflexivity|].
  symmetry. apply existsb_exists. exists key. split; [exact Hin|apply String.eqb_refl].
Qed.

Lemma hasOwnProperty_call_shadowed declared key k :
  In "hasOwnProperty"%string (map fst declared) ->
  hasOwnProperty_call declared key k
    = Throw (TypeError "properties.hasOwnProperty is not a function").
Proof.
  intros Hin. unfold hasOwnProperty_call.
  replace (existsb (String.eqb "hasOwnProperty") (map fst declared)) with true;
    [reflexivity|].
  symmetry. apply existsb_exists. exists "hasOwnProperty"%string.
  split; [exact Hin|reflexivity].
Qed.

(** When no property named [hasOwnProperty] is declared, the loop runs as
    the loop of Part I does, and builds the same object without its
    entries under [__proto__]. *)
Lemma generateObject_loop_64_sim rs (gd : schema -> M value) required declared :
  ~ In "hasOwnProperty"%string (map fst declared) ->
  forall properties,
    incl (map fst properties) (map fst declared) ->
    forall result k,
      generateObject_loop_64 rs gd required declared properties (strip_proto result) k
      = match generateObject_loop rs gd required properties result k with
        | Ret out k' => Ret (strip_proto out) k'
        | Throw e => Throw e
        | Diverge => Diverge
        end.
Proof.
  intros Hfree.
  induction properties as [|[key sub] rest IH]; intros Hincl result k; [reflexivity|].
  assert (Hrest : incl (map fst rest) (map fst declared)).
  { intros x Hx. apply Hincl. now right. }
  cbn [generateObject_loop_64 generateObject_loop]. unfold bind at 1.
  rewrite hasOwnProperty_call_own; [|exact Hfree|apply Hincl; now left].
  unfold bind at 1 3.
  destruct (includes required key).
  - unfold ret, bind. destruct (gd sub k) as [v0 k1| |]; try reflexivity.
    rewrite obj_set_64_strip. apply IH, Hrest.
  - unfold bind, Math_random, ret.
    destruct (Qltb (rs k) literal_0_7); [|apply IH, Hrest].
    destruct (gd sub (S k)) as [v0 k1| |]; try reflexivity.
    rewrite obj_set_64_strip. apply IH, Hrest.
Qed.

Lemma generateData_64_object rs JSON_stringify fuel s k :
  s_enum s = None -> s_type s = Some "object"%string ->
  generateData_64 rs JSON_stringify fuel s k =
  generateObject_64 rs (generateData_64 rs JSON_stringify fuel) s k.
Proof.
  intros He Ht. destruct s as [e t mn mx mnl mxl mni mxi u it ps rq];
    simpl in He, Ht; subst e t.
  reflexivity.
Qed.

(** [generateObject] through the loop of Part I. *)
Lemma generateObject_64_sim rs (gd : schema -> M value) (s : schema) (k : nat) :
  hasOwnProperty_free s ->
  generateObject_64 rs gd s k
  = match generateObject_loop rs gd (or_default (s_required s) [])
            (or_default (s_properties s) []) [] k with
    | Ret out k' => Ret (VObj (strip_proto out)) k'
    | Throw e => Throw e
    | Diverge => Diverge
    end.
Proof.
  intros Hfree. unfold hasOwnProperty_free in Hfree. unfold generateObject_64, bind.
  destruct (s_properties s) as [ps|]; cbn [or_default] in *; [|reflexivity].
  change (@nil (string * value)) with (strip_proto []) at 1.
  rewrite (generateObject_loop_64_sim rs gd _ ps Hfree ps (incl_refl _) [] k).
  destruct (generateObject_loop _ _ _ _ _ _); reflexivity.
Qed.

(** X17.  For an object node that declares no
    property named [hasOwnProperty], with [properties] the declared nodes
    and [required] the required names: [generateObject] returns whenever
    the generation of each declared node returns, and every object [out]
    it returns
    - holds each declared property listed in [required], other than
      [__proto__], with a value generated from a node declared under
      that name;
    - holds each other declared property, other than [__proto__],
      exactly when the draw of [Math.random()] taken for it fell below
      the literal [0.7], the draws of different properties being
      different draws of this call (the keys of [properties] being
      distinct, as those of any object);
    - holds no key outside the declared ones, and never the key
      [__proto__]. *)
Theorem object_required_and_optional
    (rs : nat -> Q) (JSON_stringify : value -> option string)
    (fuel : nat) (s : schema) (k : nat) :
  let properties := or_default (s_properties s) [] in
  let required := or_default (s_required s) [] in
  let generate := generateData_64 rs JSON_stringify fuel in
  hasOwnProperty_free s ->
  ((forall key sub, In (key, sub) properties ->
                    forall k0, exists v k1, generate sub k0 = Ret v k1) ->
   exists v k', generateObject_64 rs generate s k = Ret v k') /\
  (forall v k',
     generateObject_64 rs generate s k = Ret v k' ->
     exists out,
       v = VObj out /\
       (forall key,
          In key (map fst properties) -> includes required key = true ->
          key <> "__proto__"%string ->
          exists v1 sub k1 k2,
            obj_get key out = Some v1 /\
            In (key, sub) properties /\ generate sub k1 = Ret v1 k2) /\
       (NoDup (map fst properties) ->
        exists draw : string -> nat,
          (forall key, In key (map fst properties) ->
                       includes required key = false ->
                       key <> "__proto__"%string ->
                       (k <= draw key < k')%nat /\
                       (In key (map fst out) <-> rs (draw key) < literal_0_7)) /\
          (forall x y, In x (map fst properties) -> In y (map fst properties) ->
                       includes required x = false ->
                       includes required y = false ->
                       x <> y -> draw x <> draw y)) /\
       (forall key, In key (map fst out) ->
                    In key (map fst properties) /\ key <> "__proto__"%string)).
Proof.
  intros properties required generate Hfree.
  pose proof (generateObject_64_sim rs generate s k Hfree) as Hsim.
  fold properties required in Hsim.
  split.
  - intros Htot. rewrite Hsim.
    destruct (generateObject_loop_returns rs generate required properties Htot [] k)
      as (out & k' & ->).
    eauto.
  - intros v k' Hrun. rewrite Hsim in Hrun.
    destruct (generateObject_loop rs generate required properties [] k)
      as [out0 k1| |] eqn:Hl; try discriminate.
    injection Hrun as <- <-. exists (strip_proto out0). split; [reflexivity|].
    split; [|split].
    + intros key Hin Hreq Hkey.
      assert (Hk : In key (map fst out0)).
      { apply (generateObject_loop_required rs generate required properties
                 [] k out0 k1 Hl). right. split; assumption. }
      apply obj_get_keys in Hk as [v1 Hv1].
      destruct (generateObject_loop_values rs generate required properties
                  [] k out0 k1 Hl key v1 Hv1) as [Hnil|(sub & k2 & k3 & Hin' & Hg)];
        [discriminate|].
      exists v1, sub, k2, k3. rewrite (strip_proto_get _ _ Hkey).
      repeat split; assumption.
    + intros Hnd.
      assert (Hadv : Forall (fun p => advances (generate (snd p))) properties).
      { apply Forall_forall. intros p _. apply advances_generateData_64. }
      destruct (generateObject_loop_keys rs generate required properties Hnd Hadv
                  [] k out0 k1 Hl) as (_ & draw & Hrange & Hinj & Hkeys).
      exists draw. split; [|exact Hinj].
      intros key Hin Hopt Hkey. split; [apply (Hrange key Hin Hopt)|].
      rewrite strip_proto_keys, Hkeys. simpl. split.
      * intros [[[]|[_ [Hreq|Hd]]] _]; [congruence|exact Hd].
      * intros Hd. split; [|exact Hkey]. right. split; [exact Hin|now right].
    + intros key Hk. apply strip_proto_keys in Hk as [Hk Hkey].
      split; [|exact Hkey].
      destruct (generateObject_loop_declared rs generate required properties
                  [] k out0 k1 Hl key Hk) as [[]|Hin]. exact Hin.
Qed.

(** C4.  The code does not emit every required property.  At the
    object node that declares one property, named [__proto__], and
    requires it, the value of the property is generated (one draw is
    taken), but the assignment [result[key] = ...] adds no property
    under that name: [generateObject] returns the empty object, where
    the claim, and the comment at the assignment, have the required
    property in the result. *)
Lemma required_proto_is_not_emitted :
  s_properties protoSchema = Some [("__proto__", typed "boolean")]%string /\
  s_required protoSchema = Some ["__proto__"]%string /\
  includes ["__proto__"]%string "__proto__" = true /\
  generateObject_64 alternating_draws
    (generateData_64 alternating_draws sample_stringify 0%nat) protoSchema 0%nat
    = Ret (VObj []) 1%nat /\
  generateData_64 alternating_draws sample_stringify 0%nat protoSchema 0%nat
    = Ret (VObj []) 1%nat /\
  obj_get "__proto__" [] = None.
Proof. repeat split. Qed.

(** A second case that the loop misses: a declared property named
    [hasOwnProperty] hides the method that the loop calls, and
    [generateObject] throws a [TypeError] at the first key, before any
    draw. *)
Lemma declared_hasOwnProperty_throws
    (rs : nat -> Q) (gd : schema -> M value) (s : schema) (k : nat) :
  In "hasOwnProperty"%string (map fst (or_default (s_properties s) [])) ->
  generateObject_64 rs gd s k
    = Throw (TypeError "properties.hasOwnProperty is not a function").
Proof.
  intros Hin. unfold generateObject_64, bind.
  destruct (s_properties s) as [[|[key sub] rest]|]; cbn [or_default] in Hin;
    try (now destruct Hin).
  cbn [generateObject_loop_64]. unfold bind.
  now rewrite hasOwnProperty_call_shadowed.
Qed.

Example shadowing_property_throws :
  generateData_64 alternating_draws sample_stringify 0%nat shadowingSchema 0%nat
  = Throw (TypeError "properties.hasOwnProperty is not a function").
Proof. reflexivity. Qed.

(** ** Strings *)

Lemma charAt_comp (s : string) (i j : Q) : i == j -> charAt s i = charAt s j.
Proof.
  intros H. unfold charAt.
  replace (Qle_bool 0 i) with (Qle_bool 0 j).
  - now rewrite (Qfloor_comp _ _ H).
  - destruct (Qle_bool 0 j) eqn:E; symmetry.
    + apply Qle_bool_iff. rewrite H. apply Qle_bool_iff, E.
    + apply not_true_iff_false. rewrite Qle_bool_iff, H, <- Qle_bool_iff. congruence.
Qed.

(** The character that one iteration of [getRandomString] appends. *)
Lemma random_char_64 (r : Q) :
  double_draw r ->
  exists c,
    charAt_num chars
      (Math_floor_num (js_mul (num_of_Q r) (num_of_nat (String.length chars))))
      = String c EmptyString /\
    In c (list_ascii_of_string chars).
Proof.
  intros [[Hd _] [Hr0 Hr1]].
  set (n := inject_Z (Z.of_nat (String.length chars))).
  assert (Hn : round_finite n == n) by (apply round_finite_exact_Z; simpl; lia).
  assert (Hn1 : 1 <= n) by (apply (Q_of_Z_le 1); simpl; lia).
  destruct (draw_product_below n r Hn Hn1 Hd Hr0 Hr1) as (Ht0 & Ht1 & _).
  set (t := round_finite (r * n)) in *.
  assert (Hbig : n < pow2 1024).
  { apply Qlt_trans with (inject_Z (2 ^ 53)); [apply Q_of_Z_lt; simpl; lia|].
    rewrite <- (pow2_Z 53) by lia. apply pow2_lt. lia. }
  pose proof (pow2_pos 1024) as Hp.
  unfold num_of_nat, num_of_Z. fold n.
  rewrite (js_mul_finite r n); fold t; [|lra|lra].
  rewrite Math_floor_num_of_Q. unfold charAt_num, num_of_Z, num_of_Q.
  rewrite (charAt_comp chars _ _ (this_Q2Qc (inject_Z (Qfloor t)))).
  assert (Hf0 : (0 <= Qfloor t)%Z) by (apply (Qfloor_ge_Z t 0), Ht0).
  assert (Hf1 : (Qfloor t < Z.of_nat (String.length chars))%Z)
    by (apply Qfloor_lt_Z, Ht1).
  unfold charAt. rewrite Qfloor_Z.
  replace (Qle_bool 0 (inject_Z (Qfloor t))) with true.
  2:{ symmetry. apply Qle_bool_iff. apply (Q_of_Z_le 0), Hf0. }
  destruct (string_get_Some chars (Z.to_nat (Qfloor t))) as [c Hc]; [lia|].
  exists c. rewrite Hc. split; [reflexivity|]. apply (string_get_In _ _ _ Hc).
Qed.

Lemma getRandomString_loop_64_spec (rs : nat -> Q) :
  double_draws rs ->
  forall (n : nat) (result : string) (k : nat),
    exists str,
      getRandomString_loop_64 rs n result k = Ret (result ++ str)%string (k + n)%nat /\
      String.length str = n /\
      Forall (fun c => In c (list_ascii_of_string chars)) (list_ascii_of_string str).
Proof.
  intros Hrs n. induction n as [|n IH]; intros result k.
  - exists EmptyString. simpl. unfold ret.
    replace (result ++ EmptyString)%string with result
      by (induction result as [|x r IHr]; simpl; [reflexivity|now rewrite <- IHr]).
    rewrite Nat.add_0_r. repeat split; constructor.
  - destruct (random_char_64 (rs k) (Hrs k)) as (c & Hc & Hin).
    cbn [getRandomString_loop_64]. unfold bind, Math_random. rewrite Hc.
    destruct (IH (result ++ String c EmptyString)%string (S k)) as (str & Hrun & Hlen & Hall).
    exists (String c str). rewrite Hrun. split; [|split].
    + rewrite string_app_assoc. simpl. f_equal. lia.
    + simpl. now rewrite Hlen.
    + simpl. constructor; assumption.
Qed.

Lemma for_count_64_Z (z : Z) :
  (z <= 2 ^ 53)%Z -> for_count_64 (num_of_Z z) = Some (Z.to_nat z).
Proof.
  intros Hz. unfold for_count_64, num_of_Z, num_of_Q.
  replace (Qle_bool (Q2Qc (inject_Z z)) (inject_Z (2 ^ 53))) with true.
  - now rewrite (Qceiling_comp _ _ (this_Q2Qc (inject_Z z))), Qceiling_Z.
  - symmetry. apply Qle_bool_iff. rewrite this_Q2Qc. apply Q_of_Z_le, Hz.
Qed.

Lemma generateData_64_string rs JSON_stringify fuel s k :
  s_enum s = None -> s_type s = Some "string"%string ->
  generateData_64 rs JSON_stringify fuel s k =
  (length <- getRandomInteger_64 rs
               (num_of_Q (or_default (s_minLength s) 0))
               match s_maxLength s with
               | Some m => num_of_Q m
               | None => js_add (num_of_Q (or_default (s_minLength s) 0)) (num_of_Z 20)
               end ;;
   str <- getRandomString_64 rs length ;;
   ret (VStr str)) k.
Proof.
  intros He Ht. destruct s as [e t mn mx mnl mxl mni mxi u it ps rq];
    simpl in He, Ht; subst e t.
  reflexivity.
Qed.

(** The run of a string node whose bounds are safe integers in order. *)
Lemma generateData_64_string_run rs JSON_stringify fuel s (a b : Z) k :
  double_draws rs ->
  s_enum s = None -> s_type s = Some "string"%string ->
  or_default (s_minLength s) 0 == inject_Z a ->
  or_default (s_maxLength s) (or_default (s_minLength s) 0 + 20) == inject_Z b ->
  (Z.abs a <= 2 ^ 53 - 1)%Z -> (Z.abs b <= 2 ^ 53 - 1)%Z -> (a <= b)%Z ->
  exists str,
    generateData_64 rs JSON_stringify fuel s k
      = Ret (VStr str) (S k + String.length str)%nat /\
    (Z.max 0 a <= Z.of_nat (String.length str) <= Z.max 0 b)%Z /\
    Forall (fun c => In c (list_ascii_of_string chars)) (list_ascii_of_string str).
Proof.
  intros Hrs He Ht Ha Hb Hsa Hsb Hab.
  rewrite (generateData_64_string _ _ _ _ _ He Ht).
  rewrite (default_bound (s_maxLength s) (or_default (s_minLength s) 0) 20 a b
             Ha Hb ltac:(lia)).
  rewrite (num_of_Z_ext _ _ Ha).
  destruct (Hrs k) as [Hd Hv].
  destruct (getRandomInteger64_in_range a b (rs k) Hsa Hsb Hab Hd Hv)
    as (z & Hz & Hbd).
  destruct (getRandomString_loop_64_spec rs Hrs (Z.to_nat z) EmptyString (S k))
    as (str & Hrun & Hlen & Hall).
  exists str. unfold bind at 1. rewrite getRandomInteger_64_run_Z, Hz.
  unfold bind, getRandomString_64. rewrite for_count_64_Z by lia.
  rewrite Hrun. unfold ret.
  split; [now rewrite Hlen|]. split; [lia|exact Hall].
Qed.

(** X3.  A string node whose length bounds [a <= b] (the declared
    [minLength] and [maxLength], [0] and [minLength + 20] where absent)
    are integers of the safe range yields, for binary64 draws in
    [[0, 1)], a string of letters and digits whose length lies between
    [max(0, a)] and [max(0, b)]; the run draws once for the length and
    once for each character. *)
Theorem string_within_length_bounds
    (rs : nat -> Q) (JSON_stringify : value -> option string)
    (fuel : nat) (s : schema) (a b : Z) (k : nat) :
  double_draws rs ->
  s_enum s = None ->
  s_type s = Some "string"%string ->
  or_default (s_minLength s) 0 == inject_Z a ->
  or_default (s_maxLength s) (or_default (s_minLength s) 0 + 20) == inject_Z b ->
  (Z.abs a <= 2 ^ 53 - 1)%Z -> (Z.abs b <= 2 ^ 53 - 1)%Z ->
  (a <= b)%Z ->
  exists str,
    generateData_64 rs JSON_stringify fuel s k
      = Ret (VStr str) (S k + String.length str)%nat /\
    (Z.max 0 a <= Z.of_nat (String.length str) <= Z.max 0 b)%Z /\
    Forall (fun c => In c (list_ascii_of_string chars)) (list_ascii_of_string str).
Proof.
  intros Hrs He Ht Ha Hb Hsa Hsb Hab.
  exact (generateData_64_string_run rs JSON_stringify fuel s a b k
           Hrs He Ht Ha Hb Hsa Hsb Hab).
Qed.

(** With the bounds [-2^1023] and [2^1023] the length drawn is
    [Infinity], and the loop of [getRandomString] does not end. *)
Example string_length_overflow :
  generateData_64 three_quarter_draws sample_stringify 0%nat
    (mkSchema None (Some "string"%string) None None
       (Some (- inject_Z (2 ^ 1023))) (Some (inject_Z (2 ^ 1023)))
       None None None None None None) 0%nat
  = Diverge.
Proof. vm_compute. reflexivity. Qed.

(** ** Integer nodes whose bounds are in the wrong order *)

(** [getRandomInteger] on safe integers [min = a > b = max] no more than
    [2^53] apart: every operation is exact but the product. *)
Lemma getRandomInteger64_wrong_order (a b : Z) (r : Q) :
  (Z.abs a <= 2 ^ 53 - 1)%Z -> (Z.abs b <= 2 ^ 53 - 1)%Z ->
  (b < a)%Z -> (a - b <= 2 ^ 53)%Z ->
  is_double r -> valid_draw r ->
  exists z : Z,
    getRandomInteger64 r (inject_Z a) (inject_Z b) = num_of_Z z /\ (b < z <= a)%Z.
Proof.
  intros Ha Hb Hab Hd [Hr _] [Hr0 Hr1].
  set (u := round_finite (inject_Z b - inject_Z a)).
  set (n := round_finite (u + 1)).
  set (t := round_finite (r * n)).
  assert (Ed : inject_Z b - inject_Z a == inject_Z (b - a)).
  { unfold Z.sub. rewrite inject_Z_plus, inject_Z_opp. reflexivity. }
  assert (Eu : u == inject_Z (b - a)).
  { unfold u. rewrite (round_finite_comp _ _ Ed). apply round_finite_exact_Z. lia. }
  assert (Eu1 : u + 1 == inject_Z (b - a + 1)).
  { rewrite Eu, inject_Z_plus. reflexivity. }
  assert (En : n == inject_Z (b - a + 1)).
  { unfold n. rewrite (round_finite_comp _ _ Eu1). apply round_finite_exact_Z. lia. }
  assert (Hn0 : n <= 0) by (rewrite En; apply (Q_of_Z_le _ 0); lia).
  assert (Hnd : round_finite n == n).
  { rewrite (round_finite_comp _ _ En), En. apply round_finite_exact_Z. lia. }
  assert (Ht0 : t <= 0).
  { unfold t. rewrite <- (round_finite_zero 0) by reflexivity.
    apply round_finite_mono. nra. }
  assert (Htn : n <= t).
  { unfold t. rewrite <- Hnd at 1. apply round_finite_mono. nra. }
  assert (Hf0 : (Qfloor t <= 0)%Z).
  { enough (H : (Qfloor t < 1)%Z) by lia. apply Qfloor_lt_Z.
    change (inject_Z 1) with 1. lra. }
  assert (Hf1 : (b - a + 1 <= Qfloor t)%Z).
  { apply Qfloor_ge_Z. rewrite <- En. exact Htn. }
  exists (Qfloor t + a)%Z. split; [|lia].
  assert (Hbig : inject_Z (2 ^ 53) < pow2 1024).
  { rewrite <- (pow2_Z 53) by lia. apply pow2_lt. lia. }
  pose proof (pow2_pos 1024) as Hp.
  assert (Hlow : inject_Z (- 2 ^ 53) <= n).
  { rewrite En. apply Q_of_Z_le. lia. }
  assert (Hlowu : inject_Z (- 2 ^ 53) <= u).
  { rewrite Eu. apply Q_of_Z_le. lia. }
  assert (Hu0 : u <= 0) by (rewrite Eu; apply (Q_of_Z_le _ 0); lia).
  rewrite inject_Z_opp in Hlow, Hlowu.
  assert (Esum : inject_Z (Qfloor t) + inject_Z a == inject_Z (Qfloor t + a)).
  { rewrite inject_Z_plus. reflexivity. }
  assert (Ev : round_finite (inject_Z (Qfloor t) + inject_Z a)
               == inject_Z (Qfloor t + a)).
  { rewrite Esum. apply round_finite_exact_Z. lia. }
  assert (Hv0 : inject_Z (- 2 ^ 53) <= inject_Z (Qfloor t + a)) by (apply Q_of_Z_le; lia).
  assert (Hv1 : inject_Z (Qfloor t + a) <= inject_Z (2 ^ 53)) by (apply Q_of_Z_le; lia).
  rewrite inject_Z_opp in Hv0.
  unfold getRandomInteger64.
  rewrite (js_sub_finite (inject_Z b) (inject_Z a)); fold u; [|lra|lra].
  unfold num_of_Z at 1. change (inject_Z 1) with 1.
  rewrite (js_add_finite u 1); fold n; [|lra|lra].
  rewrite (js_mul_finite r n); fold t; [|lra|lra].
  rewrite Math_floor_num_of_Q. unfold num_of_Z at 1.
  rewrite (js_add_finite (inject_Z (Qfloor t)) (inject_Z a)); [|rewrite Ev; lra..].
  unfold num_of_Z. apply num_of_Q_ext, Ev.
Qed.

(** X5.  The bounds of an integer node are not checked.  With bounds
    [minimum = a > b = maximum], integers of the safe range no more than
    [2^53] apart, the node still yields an integer after one binary64
    draw, and that integer is above the declared maximum:
    [b < v <= a]. *)
Theorem integer_bounds_in_wrong_order
    (rs : nat -> Q) (JSON_stringify : value -> option string)
    (fuel : nat) (s : schema) (a b : Z) (k : nat) :
  double_draw (rs k) ->
  s_enum s = None ->
  s_type s = Some "integer"%string ->
  or_default (s_minimum s) MIN_SAFE_INTEGER == inject_Z a ->
  or_default (s_maximum s) MAX_SAFE_INTEGER == inject_Z b ->
  (Z.abs a <= 2 ^ 53 - 1)%Z -> (Z.abs b <= 2 ^ 53 - 1)%Z ->
  (b < a)%Z -> (a - b <= 2 ^ 53)%Z ->
  exists v : Z,
    generateData_64 rs JSON_stringify fuel s k = Ret (VNum (num_of_Z v)) (S k) /\
    (b < v <= a)%Z.
Proof.
  intros [Hd Hv] He Ht Ha Hb Hsa Hsb Hab Hnear.
  destruct (getRandomInteger64_wrong_order a b (rs k) Hsa Hsb Hab Hnear Hd Hv)
    as (z & Hz & Hbd).
  exists z. split; [|exact Hbd].
  rewrite (generateData_64_integer _ _ _ _ _ He Ht).
  rewrite (num_of_Q_ext _ _ Ha), (num_of_Q_ext _ _ Hb).
  unfold bind. rewrite getRandomInteger_64_run, Hz. reflexivity.
Qed.

(** ** What can throw *)

Lemma getRandomString_64_no_throw rs (length : number) (k : nat) (e : error) :
  (str <- getRandomString_64 rs length ;; ret (VStr str)) k <> Throw e.
Proof.
  unfold getRandomString_64. destruct (for_count_64 length) as [n|]; [|discriminate].
  generalize EmptyString. revert k.
  induction n as [|n IHn]; intros k0 result; [discriminate|].
  cbn [getRandomString_loop_64]. unfold bind at 2. unfold Math_random.
  apply IHn.
Qed.

(** X8.  Generation throws for two reasons only: an array node without
    [items], and an object node that declares a property named
    [hasOwnProperty].  On a schema with neither, [generateData] returns
    or is still inside a loop; no exception leaves it, whatever the draws
    and the fuel. *)
Theorem generation_throws_only_without_items
    (rs : nat -> Q) (JSON_stringify : value -> option string)
    (fuel : nat) (s : schema) (k : nat) (e : error) :
  all_nodes (fun n => items_declared n /\ hasOwnProperty_free n) s ->
  generateData_64 rs JSON_stringify fuel s k <> Throw e.
Proof.
  revert k. induction s as [s Hitems Hprops] using schema_nodes_ind.
  intros k Hall Hrun.
  pose proof (all_nodes_here _ _ Hall) as [Hdecl Hfree].
  pose proof (all_nodes_items _ _ Hall) as Hai.
  pose proof (all_nodes_properties _ _ Hall) as Hap.
  destruct (s_enum s) as [enumValues|] eqn:He.
  { destruct s as [en t mn mx mnl mxl mni mxi u items props req].
    cbn [s_enum] in He. subst en. discriminate Hrun. }
  destruct (String.eqb (or_default (s_type s) EmptyString) "array"%string) eqn:Earr.
  { apply type_is in Earr; [|discriminate].
    rewrite (generateData_64_array _ _ _ _ _ He Earr) in Hrun.
    specialize (Hdecl Earr).
    destruct (s_items s) as [it|] eqn:Hit; [|congruence].
    cbn [items_node] in Hitems, Hai.
    unfold generateArray_64 in Hrun. rewrite Hit in Hrun.
    destruct (_ && _); [discriminate|].
    unfold bind at 1 in Hrun. unfold getRandomInteger_64, bind, Math_random, ret in Hrun.
    unfold bind in Hrun.
    destruct (generateArray_loop_64 _ _ _ _ _ _ _) as [out k1|e1|] eqn:Hloop;
      try discriminate.
    injection Hrun as ->.
    apply generateArray_loop_64_throws in Hloop as [k0 Hk0].
    cbn [generateData_of] in Hk0. exact (Hitems k0 Hai Hk0). }
  destruct (String.eqb (or_default (s_type s) EmptyString) "object"%string) eqn:Eobj.
  { apply type_is in Eobj; [|discriminate].
    rewrite (generateData_64_object _ _ _ _ _ He Eobj) in Hrun.
    rewrite (generateObject_64_sim _ _ _ _ Hfree) in Hrun.
    destruct (generateObject_loop _ _ _ _ _ _) as [out k1|e1|] eqn:Hloop;
      try discriminate.
    injection Hrun as ->.
    apply generateObject_loop_throws in Hloop as (key & sub & k0 & Hin & Hk0).
    destruct (s_properties s) as [ps|]; cbn [or_default] in Hin; [|destruct Hin].
    cbn [property_nodes] in Hprops, Hap.
    rewrite Forall_forall in Hprops, Hap.
    exact (Hprops _ Hin k0 (Hap _ Hin) Hk0). }
  destruct s as [en t mn mx mnl mxl mni mxi u items props req].
  cbn [s_enum s_type] in He, Earr, Eobj. subst en.
  cbn [generateData_64 s_enum s_type] in Hrun.
  rewrite Earr, Eobj in Hrun.
  destruct (String.eqb (or_default t EmptyString) "integer"%string); [discriminate|].
  destruct (String.eqb (or_default t EmptyString) "number"%string); [discriminate|].
  destruct (String.eqb (or_default t EmptyString) "string"%string).
  { unfold bind at 1 in Hrun. unfold getRandomInteger_64, bind at 1, Math_random, ret at 1 in Hrun.
    exact (getRandomString_64_no_throw _ _ _ _ Hrun). }
  destruct (String.eqb (or_default t EmptyString) "boolean"%string); discriminate.
Qed.

(** ** Runs that return *)


(** ** Objects: the order of the keys *)

Lemma strip_proto_map_fst (o : list (string * value)) :
  map fst (strip_proto o)
  = filter (fun x => negb (String.eqb x "__proto__")) (map fst o).
Proof.
  unfold strip_proto. generalize "__proto__"%string. intros p.
  induction o as [|[k' v'] rest IH]; cbn [filter map fst]; [reflexivity|].
  destruct (String.eqb k' p); cbn [negb map fst]; now rewrite IH.
Qed.

Lemma filter_filter (f g : string -> bool) (l : list string) :
  filter f (filter g l) = filter (fun x => g x && f x) l.
Proof.
  induction l as [|x l IH]; cbn [filter]; [reflexivity|].
  destruct (g x); cbn [filter andb]; [destruct (f x)|]; now rewrite IH.
Qed.

(** X10.  The keys of a generated object come in the order in which the
    node declares them, that is the order in which [for ... in] visits
    [properties]: the object lists a selection of the declared keys,
    with nothing moved or repeated.  The selection holds every required
    key but [__proto__], which it never holds.  (The node declares no
    property named [hasOwnProperty]; the keys of [properties] are
    distinct, as those of any object.) *)
Theorem object_keys_in_declared_order
    (rs : nat -> Q) (JSON_stringify : value -> option string)
    (fuel : nat) (s : schema) (k : nat) (v : value) (k' : nat) :
  let declared := map fst (or_default (s_properties s) []) in
  NoDup declared ->
  hasOwnProperty_free s ->
  s_enum s = None ->
  s_type s = Some "object"%string ->
  generateData_64 rs JSON_stringify fuel s k = Ret v k' ->
  exists (out : list (string * value)) (keep : string -> bool),
    v = VObj out /\
    map fst out = filter keep declared /\
    keep "__proto__"%string = false /\
    (forall key, includes (or_default (s_required s) []) key = true ->
                 key <> "__proto__"%string ->
                 keep key = true).
Proof.
  intros declared Hnd Hfree He Ht Hrun.
  rewrite (generateData_64_object _ _ _ _ _ He Ht) in Hrun.
  rewrite (generateObject_64_sim _ _ _ _ Hfree) in Hrun.
  destruct (generateObject_loop _ _ _ _ _ _) as [out k1| |] eqn:Hl; try discriminate.
  injection Hrun as <- <-.
  destruct (generateObject_loop_order _ _ _ _ [] _ _ _ Hnd Hl) as (keep & Hk & Hr).
  exists (strip_proto out),
         (fun x => keep x && negb (String.eqb x "__proto__")).
  split; [reflexivity|]. split; [|split].
  - rewrite strip_proto_map_fst, Hk. cbn [map app]. apply filter_filter.
  - rewrite String.eqb_refl. apply andb_false_r.
  - intros key Hreq Hne. rewrite (Hr key Hreq).
    destruct (String.eqb_spec key "__proto__"); [contradiction|reflexivity].
Qed.

(** * Runs on the schemas of the tests *)

Local Open Scope nat_scope.

Example run_integerSchema :
  generateData sample_draws sample_stringify 0 integerSchema 0
    = Ret (VNum (num_of_Z 11)) 1.
Proof. same_run. Qed.

Example run_enumStringSchema :
  generateData sample_draws sample_stringify 0 enumStringSchema 1
    = Ret (VStr "green") 2.
Proof. same_run. Qed.

Example run_emptyArraySchema :
  generateData sample_draws sample_stringify 0 emptyArraySchema 0 = Ret (VArr []) 0.
Proof. same_run. Qed.

Example run_uniqueArraySchema :
  generateData sample_draws sample_stringify 5 uniqueArraySchema 0
    = Ret (VArr [VNum (num_of_Z 49); VNum (num_of_Z 86); VNum (num_of_Z 23)]) 4.
Proof. same_run. Qed.

Example run_numberSchema :
  generateData three_quarter_draws sample_stringify 0 numberSchema 0
    = Ret (VNum (num_of_Q 8)) 1.
Proof. same_run. Qed.

Example run_objectSchema :
  generateData sample_draws sample_stringify 0 objectSchema 0
    = Ret (VObj [("id", VNum (num_of_Z 111));
                 ("name", VStr "0Nk7UrEbyLi5RoBYvIf2Pm9WtG");
                 ("active", VBool false)]%string) 30.
Proof. same_run. Qed.

(** An array node without [items] throws as soon as an item is needed. *)
Example run_array_without_items :
  generateData sample_draws sample_stringify 3 (typed "array") 0
    = Throw (TypeError "Cannot read properties of undefined (reading 'enum')").
Proof. same_run. Qed.

(** The store-level code on [uniqueArraySchema.json]: the same three items,
    in a new array at the first free location. *)
Example run_uniqueArraySchema_store :
  sample_generateDataH 6 (JRef 0) uniqueArraySchema_store 0
    = HRet (JRef 2)
           (uniqueArraySchema_store
              ++ [HArr [JNum (num_of_Z 49); JNum (num_of_Z 86); JNum (num_of_Z 23)]])
           4.
Proof. same_run. Qed.

(** * The theorems at the sample inputs *)

Local Open Scope nat_scope.

Lemma sample_draw_valid_0 : valid_draw (sample_draws 0).
Proof. split; unfold Qle, Qlt; simpl; lia. Qed.

Lemma half_draws_valid : valid_draws half_draws.
Proof. intros n. split; unfold Qle, Qlt; simpl; lia. Qed.

Lemma empty_enum_yields_undefined_witness :
  generateData sample_draws sample_stringify 0 (enum_schema "integer" []) 0
    = Ret VUndefined 1.
Proof.
  destruct (empty_enum_yields_undefined sample_draws sample_stringify 0
              (enum_schema "integer" []) 0%nat) as (_ & _ & H).
  - reflexivity.
  - exact H.
Defined.

Lemma unknown_type_yields_null_witness :
  generateData sample_draws sample_stringify 0 (typed "date") 0 = Ret VNull 0.
Proof.
  apply unknown_type_yields_null.
  - reflexivity.
  - right. exists "date"%string. split; [reflexivity|].
    unfold known_type. simpl. intuition discriminate.
Defined.

Lemma empty_array_short_circuit_witness :
  generateArray sample_draws sample_stringify (fun _ => throw (TypeError "unused"))
    0 emptyArraySchema 7 = Ret (VArr []) 7.
Proof.
  apply empty_array_short_circuit; reflexivity.
Defined.

Lemma unique_items_loop_has_no_cap_witness :
  valid_draws half_draws /\
  generateData half_draws sample_stringify 1000 stuckArraySchema 0 = Diverge.
Proof.
  assert (Hr : valid_draws half_draws)
    by (intros n; split; unfold Qle, Qlt; simpl; lia).
  split; [exact Hr|].
  apply (unique_items_loop_has_no_cap half_draws sample_stringify stuckArraySchema
           (enum_schema "string" [VStr "only"]) [VStr "only"] 2 0 Hr
           eq_refl eq_refl eq_refl eq_refl eq_refl eq_refl eq_refl).
  - discriminate.
  - simpl. lia.
Defined.

Lemma generation_leaves_schema_unchanged_witness :
  nth_error objectSchema_store 3
    = Some (HObj [("type", JStr "integer"); ("minimum", JNum (num_of_Z 1));
                  ("maximum", JNum (num_of_Z 1000))]%string) /\
  nth_error
    (final_heap
       (generateRandomDataH sample_draws sample_arith sample_floor sample_lt
          sample_charAt sample_key_of_index sample_to_key sample_prim_get
          sample_prim_includes sample_stringifyH 40 (JRef 0) objectSchema_store 0)) 3
    = Some (HObj [("type", JStr "integer"); ("minimum", JNum (num_of_Z 1));
                  ("maximum", JNum (num_of_Z 1000))]%string).
Proof.
  split; [reflexivity|].
  exact (proj1 (generation_leaves_schema_unchanged sample_draws sample_arith
                  sample_floor sample_lt sample_charAt sample_key_of_index
                  sample_to_key sample_prim_get sample_prim_includes sample_stringifyH
                  40 (JRef 0) objectSchema_store 0) 3 _ eq_refl).
Defined.

Lemma number_within_bounds_witness :
  is_double (1 # 2) /\ is_double (21 # 2) /\ is_double (3 # 4) /\
  exists v : Q,
    generateData three_quarter_draws sample_stringify 0 numberSchema 0
      = Ret (VNum (num_of_Q v)) 1 /\
    (1 # 2 <= v)%Q /\ (v <= 21 # 2)%Q.
Proof.
  assert (Ha : is_double (1 # 2)) by (split; vm_compute; reflexivity).
  assert (Hb : is_double (21 # 2)) by (split; vm_compute; reflexivity).
  assert (Hr : is_double (3 # 4)) by (split; vm_compute; reflexivity).
  split; [exact Ha|]. split; [exact Hb|]. split; [exact Hr|].
  apply (number_within_bounds three_quarter_draws sample_stringify 0 numberSchema 0
           eq_refl eq_refl Ha Hb).
  - vm_compute. discriminate.
  - vm_compute. reflexivity.
  - exact Hr.
  - split; vm_compute; [discriminate|reflexivity].
Defined.

(** * The further properties at the sample inputs *)


Lemma result_kind_follows_type_witness :
  generateData sample_draws sample_stringify 0 (typed "boolean") 0
    = Ret (VBool true) 1 /\
  exists b, VBool true = VBool b /\ (b = true <-> (sample_draws 0 < 1 # 2)%Q) /\ 1 = 1.
Proof.
  assert (Hrun : generateData sample_draws sample_stringify 0 (typed "boolean") 0
                 = Ret (VBool true) 1) by (vm_compute; reflexivity).
  split; [exact Hrun|].
  destruct (result_kind_follows_type sample_draws sample_stringify 0
              (typed "boolean") 0 (VBool true) 1 eq_refl Hrun) as (_ & _ & Hb & _).
  exact (Hb eq_refl).
Defined.

Lemma array_elements_come_from_items_witness :
  generateData sample_draws sample_stringify 5 uniqueArraySchema 0
    = Ret (VArr [VNum (num_of_Z 49); VNum (num_of_Z 86); VNum (num_of_Z 23)]) 4 /\
  exists items,
    VArr [VNum (num_of_Z 49); VNum (num_of_Z 86); VNum (num_of_Z 23)] = VArr items /\
    Forall (fun x => exists it k0 k1,
                       s_items uniqueArraySchema = Some it /\
                       generateData sample_draws sample_stringify 5 it k0 = Ret x k1)
           items.
Proof.
  assert (Hrun : generateData sample_draws sample_stringify 5 uniqueArraySchema 0
                 = Ret (VArr [VNum (num_of_Z 49); VNum (num_of_Z 86);
                              VNum (num_of_Z 23)]) 4) by same_run.
  split; [exact Hrun|].
  exact (array_elements_come_from_items sample_draws sample_stringify 5
           uniqueArraySchema 0 _ 4 eq_refl eq_refl Hrun).
Defined.

Lemma array_without_items_witness :
  valid_draw (sample_draws 0) /\
  exists msg,
    generateData sample_draws sample_stringify 1 arrayWithoutItems 0
      = Throw (TypeError msg).
Proof.
  assert (Hr : valid_draw (sample_draws 0)) by (split; unfold Qle, Qlt; simpl; lia).
  split; [exact Hr|].
  exact (proj2 (array_without_items sample_draws sample_stringify 0 arrayWithoutItems
                  1 2 0 Hr eq_refl eq_refl eq_refl (Qeq_refl _) (Qeq_refl _)
                  ltac:(lia) ltac:(lia)) ltac:(lia)).
Defined.

Lemma object_values_come_from_declared_nodes_witness :
  generateData sample_draws sample_stringify 0 objectSchema 0
    = Ret (VObj [("id", VNum (num_of_Z 111));
                 ("name", VStr "0Nk7UrEbyLi5RoBYvIf2Pm9WtG");
                 ("active", VBool false)]%string) 30 /\
  exists sub k1 k2,
    In ("active"%string, sub) (or_default (s_properties objectSchema) []) /\
    generateData sample_draws sample_stringify 0 sub k1 = Ret (VBool false) k2.
Proof.
  assert (Hrun : generateData sample_draws sample_stringify 0 objectSchema 0
                 = Ret (VObj [("id", VNum (num_of_Z 111));
                              ("name", VStr "0Nk7UrEbyLi5RoBYvIf2Pm9WtG");
                              ("active", VBool false)]%string) 30) by same_run.
  split; [exact Hrun|].
  destruct (object_values_come_from_declared_nodes sample_draws sample_stringify 0
              objectSchema 0 _ 30 eq_refl eq_refl Hrun) as (out & Hv & Hvals).
  injection Hv as <-.
  exact (Hvals "active"%string (VBool false) eq_refl).
Defined.

Lemma number_bounds_in_wrong_order_witness :
  is_double (21 # 2) /\ is_double (1 # 2) /\ is_double (3 # 4) /\
  exists v : Q,
    generateData three_quarter_draws sample_stringify 0 wrongOrderNumberSchema 0
      = Ret (VNum (num_of_Q v)) 1 /\
    (1 # 2 <= v)%Q /\ (v <= 21 # 2)%Q.
Proof.
  assert (Ha : is_double (21 # 2)) by (split; vm_compute; reflexivity).
  assert (Hb : is_double (1 # 2)) by (split; vm_compute; reflexivity).
  assert (Hr : is_double (3 # 4)) by (split; vm_compute; reflexivity).
  split; [exact Ha|]. split; [exact Hb|]. split; [exact Hr|].
  apply (number_bounds_in_wrong_order three_quarter_draws sample_stringify 0
           wrongOrderNumberSchema 0 eq_refl eq_refl Ha Hb).
  - vm_compute. discriminate.
  - vm_compute. reflexivity.
  - exact Hr.
  - split; vm_compute; [discriminate|reflexivity].
Defined.

Lemma getRandomInteger64_within_bounds_witness :
  is_double (3 # 4) /\ valid_draw (3 # 4) /\
  exists z : Z,
    getRandomInteger64 (3 # 4) (inject_Z 10) (inject_Z 20) = num_of_Z z /\
    (10 <= z <= 20)%Z.
Proof.
  assert (Hr : is_double (3 # 4)) by (split; vm_compute; reflexivity).
  assert (Hv : valid_draw (3 # 4)) by (split; vm_compute; [discriminate|reflexivity]).
  split; [exact Hr|]. split; [exact Hv|].
  exact (getRandomInteger64_within_bounds 10 20 (3 # 4) ltac:(simpl; lia)
           ltac:(simpl; lia) ltac:(lia) Hr Hv).
Defined.

Lemma getRandomInteger64_exact_or_next_witness :
  is_double (three_quarter_draws 0) /\ valid_draw (three_quarter_draws 0) /\
  exists (n : Q) (z : Z),
    getRandomInteger three_quarter_draws (inject_Z 10) (inject_Z 20) 0 = Ret n 1 /\
    (n == inject_Z z)%Q /\ (10 <= z <= 20)%Z /\
    (getRandomInteger64 (three_quarter_draws 0) (inject_Z 10) (inject_Z 20)
       = num_of_Z z \/
     getRandomInteger64 (three_quarter_draws 0) (inject_Z 10) (inject_Z 20)
       = num_of_Z (z + 1) /\ (z + 1 <= 20)%Z).
Proof.
  assert (Hr : is_double (three_quarter_draws 0)) by (split; vm_compute; reflexivity).
  assert (Hv : valid_draw (three_quarter_draws 0))
    by (split; vm_compute; [discriminate|reflexivity]).
  split; [exact Hr|]. split; [exact Hv|].
  exact (getRandomInteger64_exact_or_next three_quarter_draws 10 20 0
           ltac:(simpl; lia) ltac:(simpl; lia) ltac:(lia) ltac:(simpl; lia) Hr Hv).
Defined.

Lemma enum_element_is_shared_witness :
  nth_error enumObjectSchema_store 0 = Some (HObj [("enum", JRef 1)]%string) /\
  nth_error enumObjectSchema_store 1 = Some (HArr [JRef 2; JRef 3; JRef 4]) /\
  exists v,
    generateRandomDataH sample_draws sample_arith sample_floor sample_lt
      sample_charAt sample_key_of_index sample_to_key sample_prim_get
      sample_prim_includes sample_stringifyH 1 (JRef 0) enumObjectSchema_store 0
      = HRet v enumObjectSchema_store 1 /\
    (In v [JRef 2; JRef 3; JRef 4] \/ v = JUndefined \/
     v = JNum (num_of_Z (Z.of_nat (List.length [JRef 2; JRef 3; JRef 4])))).
Proof.
  split; [reflexivity|]. split; [reflexivity|].
  exact (enum_element_is_shared sample_draws sample_arith sample_floor sample_lt
           sample_charAt sample_key_of_index sample_to_key sample_prim_get
           sample_prim_includes sample_stringifyH 0 0 1 _ _ enumObjectSchema_store 0
           eq_refl eq_refl eq_refl).
Defined.

Lemma container_is_new_witness :
  sample_generateDataH 6 (JRef 0) uniqueArraySchema_store 0
    = HRet (JRef 2)
           (uniqueArraySchema_store
              ++ [HArr [JNum (num_of_Z 49); JNum (num_of_Z 86); JNum (num_of_Z 23)]])
           4 /\
  JRef 2 = JRef (List.length uniqueArraySchema_store) /\
  holds_array (List.length uniqueArraySchema_store)
    (uniqueArraySchema_store
       ++ [HArr [JNum (num_of_Z 49); JNum (num_of_Z 86); JNum (num_of_Z 23)]]).
Proof.
  assert (Hrun : sample_generateDataH 6 (JRef 0) uniqueArraySchema_store 0
                 = HRet (JRef 2)
                     (uniqueArraySchema_store
                        ++ [HArr [JNum (num_of_Z 49); JNum (num_of_Z 86);
                                  JNum (num_of_Z 23)]]) 4) by same_run.
  split; [exact Hrun|].
  destruct (container_is_new sample_draws sample_arith sample_floor sample_lt
              sample_charAt sample_key_of_index sample_to_key sample_prim_get
              sample_prim_includes sample_stringifyH 6 0 _ "array"
              uniqueArraySchema_store 0 _ _ 4 eq_refl eq_refl eq_refl
              (or_introl eq_refl) Hrun) as (Hv & _ & Harr & _).
  split; [exact Hv|exact (Harr eq_refl)].
Defined.

(** A file that cannot be read: [null], and one line on [console.error]. *)
Example run_missing_file :
  generateDataFromFile sample_draws sample_arith sample_floor sample_lt
    sample_charAt sample_key_of_index sample_to_key sample_prim_get
    sample_prim_includes sample_stringifyH
    (fun p => inr p)
    (fun p _ => inl (HostError "Error" ("ENOENT: no such file or directory, open " ++ p)))
    (fun _ _ => inl (HostError "SyntaxError" "Unexpected end of JSON input"))
    5 "./schemas/userSchema.json" (mkWorld [] 0 [])
  = FRet JNull
      (mkWorld [] 0
         ["Error reading schema from file: ENOENT: no such file or directory, open ./schemas/userSchema.json"%string]).
Proof. reflexivity. Qed.

(** * Part IV at the sample inputs *)


Lemma double_quarter : double_draw (1 # 4).
Proof. split; split; vm_compute; try reflexivity; discriminate. Qed.

Lemma double_half : double_draw (1 # 2).
Proof. split; split; vm_compute; try reflexivity; discriminate. Qed.

Lemma double_three_quarters : double_draw (3 # 4).
Proof. split; split; vm_compute; try reflexivity; discriminate. Qed.

Lemma half_draws_double : double_draws half_draws.
Proof. intros n. exact double_half. Qed.

Lemma alternating_draws_double : double_draws alternating_draws.
Proof.
  intros n. unfold alternating_draws.
  destruct (Nat.even n); [exact double_quarter|exact double_three_quarters].
Qed.

Lemma dyadic_draw_double_0 : double_draw (dyadic_draws 0).
Proof. split; split; vm_compute; try reflexivity; discriminate. Qed.

Lemma enum_takes_precedence_witness :
  double_draw (alternating_draws 0) /\
  exists i : nat,
    generateData_64 alternating_draws sample_stringify 0 enumStringSchema 0
      = Ret (nth i [VStr "red"; VStr "green"; VStr "blue"] VUndefined) 1 /\
    i < 3 /\
    In (nth i [VStr "red"; VStr "green"; VStr "blue"] VUndefined)
       [VStr "red"; VStr "green"; VStr "blue"].
Proof.
  split; [exact double_quarter|].
  destruct (enum_takes_precedence alternating_draws sample_stringify 0 enumStringSchema
              [VStr "red"; VStr "green"; VStr "blue"] 0 double_quarter eq_refl
              ltac:(discriminate) ltac:(simpl; lia))
    as (i & Hrun & Hlt & Hin & _).
  exists i. split; [exact Hrun|]. split; [exact Hlt|exact Hin].
Defined.


Lemma array_length_and_uniqueness_witness :
  double_draw (dyadic_draws 0) /\
  exists items,
    generateData_64 dyadic_draws sample_stringify 10 uniqueArraySchema 0
      = Ret (VArr items) 4 /\
    3 <= List.length items <= 5 /\
    NoDup (map sample_stringify items) /\ NoDup items.
Proof.
  split; [exact dyadic_draw_double_0|].
  destruct (array_length_and_uniqueness dyadic_draws sample_stringify 10
              uniqueArraySchema 3 5 0 dyadic_draw_double_0 eq_refl eq_refl
              (Qeq_refl _) (Qeq_refl _) ltac:(lia) ltac:(simpl; lia)) as [Hruns _].
  destruct (generateData_64 dyadic_draws sample_stringify 10 uniqueArraySchema 0)
    as [v k'| |] eqn:Hrun; [|vm_compute in Hrun; discriminate..].
  destruct (Hruns v k' eq_refl) as (items & -> & Hlen & Hu).
  exists items. split.
  - f_equal. vm_compute in Hrun. injection Hrun as _ Hk. symmetry. exact Hk.
  - split; [exact Hlen|]. apply Hu. reflexivity.
Defined.

Lemma objectSchema_hasOwnProperty_free : hasOwnProperty_free objectSchema.
Proof. unfold hasOwnProperty_free. simpl. intuition discriminate. Qed.

Lemma object_required_and_optional_witness :
  hasOwnProperty_free objectSchema /\
  NoDup ["id"; "name"; "active"]%string /\
  exists out k',
    generateObject_64 alternating_draws
      (generateData_64 alternating_draws sample_stringify 30) objectSchema 0
      = Ret (VObj out) k' /\
    (exists v1, obj_get "id" out = Some v1) /\
    (exists v1, obj_get "name" out = Some v1) /\
    (exists draw : string -> nat,
       In "active"%string (map fst out)
       <-> (alternating_draws (draw "active"%string) < literal_0_7)%Q) /\
    (forall key, In key (map fst out) ->
                 In key ["id"; "name"; "active"]%string /\ key <> "__proto__"%string).
Proof.
  assert (Hnd : NoDup ["id"; "name"; "active"]%string).
  { repeat constructor; simpl; intuition discriminate. }
  split; [exact objectSchema_hasOwnProperty_free|]. split; [exact Hnd|].
  destruct (object_required_and_optional alternating_draws sample_stringify 30
              objectSchema 0 objectSchema_hasOwnProperty_free) as [_ Hruns].
  destruct (generateObject_64 alternating_draws
              (generateData_64 alternating_draws sample_stringify 30)
              objectSchema 0) as [v k'| |] eqn:Hrun;
    [|vm_compute in Hrun; discriminate..].
  destruct (Hruns v k' eq_refl) as (out & -> & Hreq & Hopt & Hdecl).
  exists out, k'. split; [reflexivity|].
  split; [|split; [|split]].
  - destruct (Hreq "id"%string) as (v1 & _ & _ & _ & H & _);
      [simpl; tauto|reflexivity|discriminate|]. exists v1. exact H.
  - destruct (Hreq "name"%string) as (v1 & _ & _ & _ & H & _);
      [simpl; tauto|reflexivity|discriminate|]. exists v1. exact H.
  - destruct (Hopt Hnd) as (draw & Hd & _). exists draw.
    apply (Hd "active"%string); [simpl; tauto|reflexivity|discriminate].
  - exact Hdecl.
Defined.

Lemma string_within_length_bounds_witness :
  double_draws half_draws /\
  exists str,
    generateData_64 half_draws sample_stringify 0 stringSchema 0
      = Ret (VStr str) (1 + String.length str) /\
    (Z.max 0 5 <= Z.of_nat (String.length str) <= Z.max 0 10)%Z.
Proof.
  split; [exact half_draws_double|].
  destruct (string_within_length_bounds half_draws sample_stringify 0 stringSchema
              5 10 0 half_draws_double eq_refl eq_refl (Qeq_refl _) (Qeq_refl _)
              ltac:(simpl; lia) ltac:(simpl; lia) ltac:(lia))
    as (str & Hrun & Hlen & _).
  exists str. split; [exact Hrun|exact Hlen].
Defined.

Lemma integer_bounds_in_wrong_order_witness :
  double_draw (half_draws 0) /\
  exists v : Z,
    generateData_64 half_draws sample_stringify 0 wrongOrderIntegerSchema 0
      = Ret (VNum (num_of_Z v)) 1 /\ (10 < v <= 20)%Z.
Proof.
  split; [exact double_half|].
  exact (integer_bounds_in_wrong_order half_draws sample_stringify 0
           wrongOrderIntegerSchema 20 10 0 double_half eq_refl eq_refl
           (Qeq_refl _) (Qeq_refl _)
           ltac:(simpl; lia) ltac:(simpl; lia) ltac:(lia) ltac:(simpl; lia)).
Defined.

Lemma generation_throws_only_without_items_witness :
  all_nodes (fun n => items_declared n /\ hasOwnProperty_free n) objectSchema /\
  generateData_64 alternating_draws sample_stringify 30 objectSchema 0
    <> Throw (TypeError "any").
Proof.
  assert (Hall : all_nodes (fun n => items_declared n /\ hasOwnProperty_free n)
                   objectSchema).
  { unfold items_declared, hasOwnProperty_free. simpl. intuition discriminate. }
  split; [exact Hall|].
  exact (generation_throws_only_without_items alternating_draws sample_stringify 30
           objectSchema 0 (TypeError "any") Hall).
Defined.



Lemma object_keys_in_declared_order_witness :
  NoDup ["id"; "name"; "active"]%string /\
  hasOwnProperty_free objectSchema /\
  exists (v : value) (k' : nat),
    generateData_64 alternating_draws sample_stringify 0 objectSchema 0 = Ret v k' /\
    exists (out : list (string * value)) (keep : string -> bool),
      v = VObj out /\
      map fst out = filter keep ["id"; "name"; "active"]%string /\
      keep "id"%string = true /\ keep "name"%string = true.
Proof.
  assert (Hnd : NoDup ["id"; "name"; "active"]%string).
  { repeat constructor; simpl; intuition discriminate. }
  split; [exact Hnd|]. split; [exact objectSchema_hasOwnProperty_free|].
  destruct (generateData_64 alternating_draws sample_stringify 0 objectSchema 0)
    as [v k'| |] eqn:Hrun; [|vm_compute in Hrun; discriminate..].
  exists v, k'. split; [reflexivity|].
  destruct (object_keys_in_declared_order alternating_draws sample_stringify 0
              objectSchema 0 v k' Hnd objectSchema_hasOwnProperty_free
              eq_refl eq_refl Hrun)
    as (out & keep & Hv & Hk & _ & Hreq).
  exists out, keep. split; [exact Hv|]. split; [exact Hk|].
  split; apply Hreq; try reflexivity; discriminate.
Defined.
